(** * HLS server: the job orchestration pipeline of [src/worker/redis_consumer.ts]

    A shallow embedding of the worker that turns an uploaded video into a
    multi-resolution HLS ladder: the resolution checks, the ladder of rungs,
    the master playlist generator, the job runner [processJob] with its
    try / catch / finally discipline, the two worker promises and what an
    unhandled rejection of one of them does to the process, and the two
    queue-level observers together with the queue they read.

    Numbers are the integers that ffprobe reports (JavaScript numbers holding
    integral values); they are rendered in decimal, as a template literal
    renders an integer below 10^21.  The Redis store is a finite map from keys
    to hashes, a hash is a finite map from field names to strings, and [hset]
    is a field-level upsert. *)

From Stdlib Require Import ZArith String List Sorted Lia.
From stdpp Require Import base option list gmap strings pretty.
Import ListNotations.

Local Open Scope string_scope.
Local Open Scope list_scope.

(** ** Rungs and the ladder *)

Record Rung := mkRung { dir : string; height : Z; width : Z }.

(** [uploadSubDir] of [processJob]: an array that starts with the 360p rung
    and receives one [push] per threshold the source height reaches. *)
Definition push (c : bool) (r : Rung) (l : list Rung) : list Rung :=
  if c then l ++ [r] else l.

Definition uploadSubDir (uploadDir : string) (h : Z) : list Rung :=
  let l := [ mkRung (uploadDir +:+ "/360p") 360 640 ] in
  let l := push (bool_decide (h >= 480)%Z) (mkRung (uploadDir +:+ "/480p") 480 854) l in
  let l := push (bool_decide (h >= 720)%Z) (mkRung (uploadDir +:+ "/720p") 720 1280) l in
  let l := push (bool_decide (h >= 1080)%Z) (mkRung (uploadDir +:+ "/1080p") 1080 1920) l in
  let l := push (bool_decide (h >= 1620)%Z) (mkRung (uploadDir +:+ "/1620p") 1620 2880) l in
  let l := push (bool_decide (h >= 2430)%Z) (mkRung (uploadDir +:+ "/2430p") 2430 4320) l in
  l.

(** The six tiers the specification lists, with their canonical widths. *)
Definition tiers : list (Z * Z) :=
  [ (360, 640); (480, 854); (720, 1280); (1080, 1920); (1620, 2880); (2430, 4320) ]%Z.

Definition tierRung (uploadDir : string) (t : Z * Z) : Rung :=
  mkRung (uploadDir +:+ "/" +:+ pretty (fst t) +:+ "p") (fst t) (snd t).

(** ** Master playlist *)

Definition newline : string := String (Ascii.ascii_of_nat 10) EmptyString.

Definition bandwidthStep : Z := 250000.

(** The arrow function given to [map]: [i] is the zero-based array index. *)
Definition streamInf (i : nat) (elem : Rung) : string :=
  "#EXT-X-STREAM-INF:BANDWIDTH=" +:+ pretty ((Z.of_nat i + 1) * bandwidthStep)%Z
  +:+ ",RESOLUTION=" +:+ pretty (width elem) +:+ "x" +:+ pretty (height elem)
  +:+ newline +:+ pretty (height elem) +:+ "p/index.m3u8".

Definition generateMasterPlaylist (rungs : list Rung) : string :=
  String.concat newline ("#EXTM3U" :: imap streamInf rungs).

(** [String.prototype.trim] on the whitespace that one byte can hold (tab,
    line feed, vertical tab, form feed, carriage return, space). *)
Definition isSpace (a : Ascii.ascii) : bool :=
  let n := Ascii.nat_of_ascii a in
  bool_decide (9 <= n <= 13) || bool_decide (n = 32).

Fixpoint trimStart (s : string) : string :=
  match s with
  | String a s' => if isSpace a then trimStart s' else s
  | EmptyString => EmptyString
  end.

Definition trim (s : string) : string :=
  String.rev (trimStart (String.rev (trimStart s))).

(** ** Effects: thrown values, the world, and the environment *)

(** What a [catch] clause can receive: an [Error] object with its message, or
    any other value. *)
Inductive Thrown := ErrorObj (message : string) | NonError.

(** [err instanceof Error ? err.message : "Unkown error"] *)
Definition messageOf (err : Thrown) : string :=
  match err with
  | ErrorObj m => m
  | NonError => "Unkown error"
  end.

(** How a computation ends: it returns, it throws (its promise rejects), or
    the Node process ends on the uncaught error [e].  After [Exited] nothing
    of the run happens any more: no [catch] clause, no [finally] block. *)
Inductive Outcome (A : Type) := Returned (a : A) | Threw (e : Thrown) | Exited (e : Thrown).
Arguments Returned {A} a.
Arguments Threw {A} e.
Arguments Exited {A} e.

(** The [urls] of a [WorkerSuccessMessage]: pairs of [type] and [url]. *)
Definition Urls : Type := list (Z * string).

(** [job.data], as [app.ts] enqueues it and [processJob] destructures it. *)
Record JobData := mkJob {
  videoId : string;
  inputFilePath : string;
  uploadDir : string;
  inputDir : string
}.

(** The [JobsOptions] of BullMQ that [app.ts] sets. *)
Record JobsOptions := mkJobsOptions {
  attempts : Z;
  backoff : Z;
  removeOnComplete : bool;
  removeOnFail : bool
}.

(** [{ attempts: 1, backoff: 0, removeOnComplete: true, removeOnFail: true }],
    the options of the one [videoQueue.add] of the repository
    ([app.ts], line 217). *)
Definition jobOptions : JobsOptions := mkJobsOptions 1 0 true true.

(** The jobs that the queue holds, by job id. *)
Abbreviation Jobs := (gmap string (JobData * JobsOptions)).

(** [queue.add(name, data, opts)], under the id that BullMQ gives the job. *)
Definition add (jobId : string) (data : JobData) (opts : JobsOptions) (jobs : Jobs) : Jobs :=
  <[ jobId := (data, opts) ]> jobs.

(** [queue.getJob(jobId)]: the job, or nothing when the queue does not hold
    it. *)
Definition getJob (jobs : Jobs) (jobId : string) : option JobData :=
  fst <$> jobs !! jobId.

(** What BullMQ does with a job when the promise of its processor settles,
    before it publishes [completed] or [failed]: a job whose option says so
    is removed from the queue. *)
Definition moveToFinished (jobId : string) (completed : bool) (jobs : Jobs) : Jobs :=
  match jobs !! jobId with
  | Some (_, opts) =>
      if (if completed then removeOnComplete opts else removeOnFail opts)
      then delete jobId jobs else jobs
  | None => jobs
  end.

(** The two worker promises of a run, and the moments at which one of them
    can settle while it has no handler: while the runner awaits the status
    write of line 189, or while it awaits the transcoder at line 194.
    [Later] is any moment from the await of the promise itself on. *)
Inductive WorkerPromise := FFmpegPromise | UploadPromise.

Inductive Moment := DuringStatusWrite | DuringTranscode | Later.

#[global] Instance Moment_eq_dec : EqDecision Moment.
Proof. solve_decision. Defined.

(** The places of the worker that write to the status record. *)
Inductive WriteSite :=
  | WChecking | WProcessing | WGenerating | WUploading | WCompleted | WError
  | WObserverFailed | WObserverCompleted.

Inductive RmSite := RmUploadDir | RmInputDir | RmTempRoot.

(** Every call that leaves the process.  [Mkdir d] is
    [fs.mkdir(d, { recursive: true })] and [Rm p] is
    [fs.rm(p, { recursive: true, force: true })]. *)
Inductive Call :=
  | Hset (key : string) (fields : list (string * string))
  | Ffprobe (filePath : string)
  | Mkdir (d : string)
  | SpawnFFmpegWorker (input : string) (rungs : list Rung)
  | SpawnUploadWorker (rungs : list Rung) (folderUUID : string)
  | AwaitFFmpeg
  | AwaitUpload
  | WriteFile (p content : string)
  | UploadToCloudinary (filePath folder : string)
  | Rm (p : string)
  | ConsoleError (e : Thrown).

(** A call together with the way it ended: [None] when it went through,
    [Some e] when it threw or its promise rejected with [e]. *)
Record Event := mkEvent { call : Call; fault : option Thrown }.

(** The outside of the worker during one run: how each external call ends,
    how each worker promise settles ([ffmpegWorker], [uploadWorker]) and when
    ([settles]).  A promise that rejects while it has no handler is an
    unhandled rejection: the worker installs no handler for those, and Node
    then ends the process.  For the transcoder promise [DuringTranscode] and
    [Later] are the same, its own await.  Outside this model: a promise that
    never settles, and a rejection that arrives only after the runner has
    left the [try] block. *)
Record Env := mkEnv {
  hsetFault : WriteSite -> option Thrown;
  ffprobe : string -> Outcome (Z * Z);
  mkdirFault : string -> option Thrown;
  ffmpegWorker : option Thrown;
  uploadWorker : Outcome Urls;
  writeFileFault : option Thrown;
  cloudinaryUpload : Outcome string;
  rmFault : RmSite -> option Thrown;
  JSON_stringify : Urls -> string;
  settles : WorkerPromise -> Moment
}.

(** The Redis store and the log of calls, newest first. *)
Record World := mkWorld {
  redis : gmap string (gmap string string);
  log : list Event
}.

Definition Async (A : Type) : Type := World -> Outcome A * World.

#[global] Instance Async_ret : MRet Async := fun A a w => (Returned a, w).

#[global] Instance Async_bind : MBind Async := fun A B f m w =>
  match m w with
  | (Returned a, w1) => f a w1
  | (Threw e, w1) => (Threw e, w1)
  | (Exited e, w1) => (Exited e, w1)
  end.

Definition throw {A : Type} (e : Thrown) : Async A := fun w => (Threw e, w).

Definition record_event (ev : Event) (w : World) : World :=
  mkWorld (redis w) (ev :: log w).

(** [HSET key f1 v1 f2 v2 ...]: the fields given are overwritten, the others
    stay as they are. *)
Definition upsert (key : string) (fields : list (string * string))
    (db : gmap string (gmap string string)) : gmap string (gmap string string) :=
  <[ key := list_to_map fields ∪ default ∅ (db !! key) ]> db.

(** [try { body } catch (err) { handler(err) }]: the handler runs in the world
    the body left behind; what the handler throws is thrown. *)
Definition tryCatch (body : Async unit) (handler : Thrown -> Async unit) : Async unit :=
  fun w =>
    match body w with
    | (Returned _, w1) => (Returned (), w1)
    | (Threw e, w1) => handler e w1
    | (Exited e, w1) => (Exited e, w1)
    end.

(** [... finally { fin }]: [fin] runs when the guarded part returns or
    throws; its own exception, if any, replaces the completion of the guarded
    part. *)
Definition finally (m fin : Async unit) : Async unit := fun w =>
  match m w with
  | (Exited e, w1) => (Exited e, w1)
  | (r, w1) =>
      let (rf, w2) := fin w1 in
      (match rf with Returned _ => r | _ => rf end, w2)
  end.

(** [promise.catch(handler)] *)
Definition catchWith (m : Async unit) (handler : Thrown -> Async unit) : Async unit :=
  fun w =>
    match m w with
    | (Returned _, w1) => (Returned (), w1)
    | (Threw e, w1) => handler e w1
    | (Exited e, w1) => (Exited e, w1)
    end.

Definition statusKey (vid : string) : string := "video:" +:+ vid.

Definition statusCompleted : string := "completed".
Definition statusError : string := "error".

Section Worker.

Variable env : Env.

(** A call with no result that the environment lets through or fails. *)
Definition perform (c : Call) (f : option Thrown) : Async unit := fun w =>
  (match f with Some e => Threw e | None => Returned () end,
   record_event (mkEvent c f) w).

(** A call whose result the environment supplies. *)
Definition request {A : Type} (c : Call) (o : Outcome A) : Async A := fun w =>
  (o, record_event
        (mkEvent c (match o with Threw e | Exited e => Some e | Returned _ => None end)) w).

Definition hset (site : WriteSite) (key : string) (fields : list (string * string))
    : Async unit := fun w =>
  match hsetFault env site with
  | Some e => (Threw e, record_event (mkEvent (Hset key fields) (Some e)) w)
  | None =>
      (Returned (),
       mkWorld (upsert key fields (redis w)) (mkEvent (Hset key fields) None :: log w))
  end.

Definition getVideoResolution (filePath : string) : Async (Z * Z) :=
  request (Ffprobe filePath) (ffprobe env filePath).

(** [Promise.all(dirs.map(d => fs.mkdir(d, { recursive: true })))]: every
    [mkdir] is issued; the result is the first failure in array order. *)
Fixpoint mkdirAll (dirs : list string) : Async unit := fun w =>
  match dirs with
  | [] => (Returned (), w)
  | d :: rest =>
      let (r, w1) := mkdirAll rest (record_event (mkEvent (Mkdir d) (mkdirFault env d)) w) in
      (match mkdirFault env d with Some e => Threw e | None => r end, w1)
  end.

(** [runFFmpegWorker] and [runUploadWorker] start a worker thread and hand
    back a promise at once; the promise is settled by the worker and observed
    at its [await]. *)
Definition runFFmpegWorker (inputFilePath : string) (rungs : list Rung) : Async unit :=
  perform (SpawnFFmpegWorker inputFilePath rungs) None.

Definition runUploadWorker (rungs : list Rung) (folderUUID : string) : Async unit :=
  perform (SpawnUploadWorker rungs folderUUID) None.

(** The rejection of a worker promise, if it rejects. *)
Definition rejection (p : WorkerPromise) : option Thrown :=
  match p with
  | FFmpegPromise => ffmpegWorker env
  | UploadPromise => match uploadWorker env with Threw e => Some e | _ => None end
  end.

(** The unhandled rejection of the moment [m], if there is one: that of the
    first promise of [unawaited] (the promises without a handler) that
    rejects at [m]. *)
Fixpoint unhandledRejection (m : Moment) (unawaited : list WorkerPromise) : option Thrown :=
  match unawaited with
  | [] => None
  | p :: rest =>
      if bool_decide (settles env p = m)
      then match rejection p with
           | Some e => Some e
           | None => unhandledRejection m rest
           end
      else unhandledRejection m rest
  end.

(** An [await] of [call] during which the promises of [unawaited] have no
    handler.  The call is issued; when one of the promises rejects before
    the runner resumes, the process ends there. *)
Definition exposed {A : Type} (m : Moment) (unawaited : list WorkerPromise)
    (call : Async A) : Async A := fun w =>
  match unhandledRejection m unawaited with
  | Some e => (Exited e, snd (call w))
  | None => call w
  end.

(** [await ffmpegPromise] (line 194): the upload promise has no handler
    while the runner waits here. *)
Definition awaitFFmpeg : Async unit := fun w =>
  match unhandledRejection DuringTranscode [UploadPromise] with
  | Some e => (Exited e, w)
  | None => perform AwaitFFmpeg (ffmpegWorker env) w
  end.

(** [await uploadPromise] (line 196): from here on the promise has its
    handler, and a rejection is thrown into the [try] block. *)
Definition awaitUpload : Async Urls := request AwaitUpload (uploadWorker env).

Definition writeFile (p content : string) : Async unit :=
  perform (WriteFile p content) (writeFileFault env).

Definition uploadToCloudinary (filePath folder : string) : Async string :=
  request (UploadToCloudinary filePath folder) (cloudinaryUpload env).

Definition consoleError (e : Thrown) : Async unit := perform (ConsoleError e) None.

(** [fs.rm(p, { recursive: true, force: true }).catch(console.error)] *)
Definition rmLogged (site : RmSite) (p : string) : Async unit :=
  catchWith (perform (Rm p) (rmFault env site)) consoleError.

(** [path.join("/tmp", videoId)] for an id that is a single path segment. *)
Definition tempRoot (vid : string) : string := "/tmp/" +:+ vid.

Definition aspectMessage : string := "Aspect ratio should be landscape".

(** [`Video resolution too low: ${width}x${height}`] *)
Definition tooLowMessage (w h : Z) : string :=
  "Video resolution too low: " +:+ pretty w +:+ "x" +:+ pretty h.

Definition tryBody (job : JobData) : Async unit :=
  let key := statusKey (videoId job) in
  hset WChecking key [("status", "checking video resolutions"); ("progress", "5")];;
  '(w, h) ← getVideoResolution (inputFilePath job);
  (if bool_decide (h > w)%Z
   then throw (ErrorObj aspectMessage) else mret ());;
  (if bool_decide (Z.min h w < 360)%Z
   then throw (ErrorObj (tooLowMessage w h)) else mret ());;
  let rungs := uploadSubDir (uploadDir job) h in
  mkdirAll (dir <$> rungs);;
  runFFmpegWorker (inputFilePath job) rungs;;
  runUploadWorker rungs (videoId job);;
  exposed DuringStatusWrite [FFmpegPromise; UploadPromise]
    (hset WProcessing key [("status", "Processing & Uploading"); ("progress", "20")]);;
  awaitFFmpeg;;
  urls ← awaitUpload;
  hset WGenerating key [("status", "Generating master file"); ("progress", "20")];;
  let masterPlaylistPath := uploadDir job +:+ "/index.m3u8" in
  let masterPlaylistContent := generateMasterPlaylist rungs in
  writeFile masterPlaylistPath (trim masterPlaylistContent);;
  hset WUploading key [("status", "Uploading master file"); ("progress", "20")];;
  masterUrl ← uploadToCloudinary masterPlaylistPath (videoId job);
  hset WCompleted key
    [("status", statusCompleted); ("progress", "100");
     ("masterUrl", masterUrl); ("urls", JSON_stringify env urls)].

Definition catchHandler (job : JobData) (err : Thrown) : Async unit :=
  hset WError (statusKey (videoId job))
    [("status", statusError); ("error", messageOf err)].

(** The [finally] block: [Promise.all] of the first two removals, then the
    third.  The first two run side by side; the log lists them in array
    order. *)
Definition cleanup (job : JobData) : Async unit :=
  rmLogged RmUploadDir (uploadDir job);;
  rmLogged RmInputDir (inputDir job);;
  rmLogged RmTempRoot (tempRoot (videoId job)).

Definition processJob (job : JobData) : Async unit :=
  finally (tryCatch (tryBody job) (catchHandler job)) (cleanup job).

(** The two [queueEvents] listeners, for a queue that holds [jobs] when the
    event arrives.  A string is truthy when it is not empty. *)
Definition onFailed (jobs : Jobs) (jobId failedReason : string) : Async unit :=
  if bool_decide (jobId = EmptyString) then mret ()
  else match getJob jobs jobId with
       | Some job =>
           if bool_decide (videoId job = EmptyString) then mret ()
           else hset WObserverFailed (statusKey (videoId job))
                  [("status", statusError); ("error", failedReason)]
       | None => mret ()
       end.

Definition onCompleted (jobs : Jobs) (jobId : string) : Async unit :=
  if bool_decide (jobId = EmptyString) then mret ()
  else match getJob jobs jobId with
       | Some job =>
           if bool_decide (videoId job = EmptyString) then mret ()
           else hset WObserverCompleted (statusKey (videoId job))
                  [("status", statusCompleted); ("progress", "100")]
       | None => mret ()
       end.

(** One job of the queue in the worker process (lines 240-271): BullMQ hands
    the job to [processJob]; when the promise of [processJob] settles it
    moves the job to its finished state and publishes [completed] or
    [failed] with [failedReason], which the listener of this process
    receives.  A process that has ended receives nothing.  The result is the
    completion of the last step, the world, and the jobs that the queue then
    holds. *)
Definition worker (failedReason : string) (jobs : Jobs) (jobId : string)
    : World -> Outcome unit * World * Jobs := fun w =>
  match jobs !! jobId with
  | None => (Returned (), w, jobs)
  | Some (job, _) =>
      match processJob job w with
      | (Returned _, w1) =>
          let jobs1 := moveToFinished jobId true jobs in
          (onCompleted jobs1 jobId w1, jobs1)
      | (Threw _, w1) =>
          let jobs1 := moveToFinished jobId false jobs in
          (onFailed jobs1 jobId failedReason w1, jobs1)
      | (Exited e, w1) => (Exited e, w1, jobs)
      end
  end.

End Worker.

(** ** Reading the status record *)

Definition statusRecord (vid : string) (w : World) : gmap string string :=
  default ∅ (redis w !! statusKey vid).

Definition field (vid f : string) (w : World) : option string :=
  statusRecord vid w !! f.

(** The record that [app.ts] writes when it accepts an upload. *)
Definition queuedRecord (createdAt : string) : gmap string string :=
  list_to_map [("status", "queued"); ("progress", "0"); ("error", EmptyString); ("createdAt", createdAt)].

Definition submitted (vid createdAt : string) : World :=
  mkWorld {[ statusKey vid := queuedRecord createdAt ]} [].

(** ** The ladder and the playlist as the specification words them *)

Definition higherTiers : list (Z * Z) :=
  [ (480, 854); (720, 1280); (1080, 1920); (1620, 2880); (2430, 4320) ]%Z.

(** The 360p rung, then every higher tier whose threshold the source height
    reaches, in the order of the tier table. *)
Definition ladderSpec (uploadDir : string) (h : Z) : list Rung :=
  tierRung uploadDir (360, 640)%Z
  :: (tierRung uploadDir <$> filter (fun t => (t.1 <= h)%Z) higherTiers).

(** One entry of the master playlist. *)
Record Variant := mkVariant {
  bandwidth : Z;
  resolutionWidth : Z;
  resolutionHeight : Z;
  uri : string
}.

(** Entry number [k], counted from one, has bandwidth [k] times the step. *)
Definition variantsSpec (rungs : list Rung) : list Variant :=
  zip_with
    (fun k r => mkVariant (Z.of_nat k * bandwidthStep) (width r) (height r)
                  (pretty (height r) +:+ "p/index.m3u8"))
    (seq 1 (length rungs)) rungs.

Definition renderVariant (v : Variant) : string :=
  "#EXT-X-STREAM-INF:BANDWIDTH=" +:+ pretty (bandwidth v)
  +:+ ",RESOLUTION=" +:+ pretty (resolutionWidth v) +:+ "x" +:+ pretty (resolutionHeight v)
  +:+ newline +:+ uri v.

Definition masterSpec (rungs : list Rung) : string :=
  String.concat newline ("#EXTM3U" :: (renderVariant <$> variantsSpec rungs)).

(** ** What a run leaves in the log *)

Definition mkdirEvent (env : Env) (d : string) : Event :=
  mkEvent (Mkdir d) (mkdirFault env d).

(** The completion of [Promise.all] over the [mkdir] calls. *)
Fixpoint mkdirOutcome (env : Env) (dirs : list string) : Outcome unit :=
  match dirs with
  | [] => Returned ()
  | d :: rest =>
      match mkdirFault env d with
      | Some e => Threw e
      | None => mkdirOutcome env rest
      end
  end.

(** The events of one logged removal, newest first. *)
Definition rmLog (env : Env) (site : RmSite) (p : string) : list Event :=
  match rmFault env site with
  | Some e => [ mkEvent (ConsoleError e) None; mkEvent (Rm p) (Some e) ]
  | None => [ mkEvent (Rm p) None ]
  end.

Definition cleanupLog (env : Env) (job : JobData) : list Event :=
  rmLog env RmTempRoot (tempRoot (videoId job))
  ++ rmLog env RmInputDir (inputDir job)
  ++ rmLog env RmUploadDir (uploadDir job).

Definition isMkdir (ev : Event) : bool :=
  match call ev with Mkdir _ => true | _ => false end.

(** The fields of a status write; no fields for any other call. *)
Definition fieldsOf (ev : Event) : list (string * string) :=
  match call ev with Hset _ fields => fields | _ => [] end.

Definition setsField (f : string) (ev : Event) : bool :=
  bool_decide (f ∈ (fieldsOf ev).*1).

Definition setsStatus (s : string) (ev : Event) : bool :=
  bool_decide (("status", s) ∈ fieldsOf ev).

(** ** A logic of runs

    [triple P m Q E]: started in a world that satisfies [P], the computation
    [m] ends in a world that satisfies [Q] when it returns and [E] when it
    throws or the process ends. *)
Definition triple {A : Type} (P : World -> Prop) (m : Async A)
    (Q : A -> World -> Prop) (E : Thrown -> World -> Prop) : Prop :=
  forall w, P w ->
    match m w with
    | (Returned a, w') => Q a w'
    | (Threw e, w') => E e w'
    | (Exited e, w') => E e w'
    end.

(** The events logged since the world [base], all satisfying [ok]. *)
Definition loggedSince (ok : Event -> Prop) (base : World) (w : World) : Prop :=
  exists evs : list Event, log w = evs ++ log base /\ Forall ok evs.

(** A message that speaks of a resolution that is too low. *)
Definition indicatesTooLow (m : string) : bool :=
  String.prefix "Video resolution too low" m.

(** ** Sample runs *)

(** An environment in which every call goes through and the probe reports
    [dims]. *)
Definition calm (dims : Z * Z) : Env :=
  mkEnv (fun _ => None) (fun _ => Returned dims) (fun _ => None) None
        (Returned [(360%Z, "https://cdn.example/vid/360p/index.m3u8")]) None
        (Returned "https://cdn.example/vid/index.m3u8") (fun _ => None)
        (fun _ => "[...]") (fun _ => Later).

Definition sampleJob : JobData :=
  mkJob "vid" "/tmp/vid/in/clip.mp4" "/tmp/vid/out" "/tmp/vid/in".

(** The queue after [app.ts] has added the sample job, which BullMQ numbered
    17. *)
Definition sampleJobs : Jobs := add "17" sampleJob jobOptions ∅.

Definition sampleStart : World := submitted "vid" "2025-01-01T00:00:00.000Z".

(** The transcoder fails. *)
Definition ffmpegDown (dims : Z * Z) : Env :=
  mkEnv (fun _ => None) (fun _ => Returned dims) (fun _ => None)
        (Some (ErrorObj "FFmpeg worker exited with code 1"))
        (Returned []) None
        (Returned "https://cdn.example/vid/index.m3u8") (fun _ => None)
        (fun _ => "[...]") (fun _ => Later).

(** ** Worlds along a run *)

(** The world after the first status write went through and the probe
    answered. *)
Definition probedWorld (job : JobData) (w0 : World) : World :=
  mkWorld
    (upsert (statusKey (videoId job))
       [("status", "checking video resolutions"); ("progress", "5")] (redis w0))
    (mkEvent (Ffprobe (inputFilePath job)) None
     :: mkEvent (Hset (statusKey (videoId job))
                   [("status", "checking video resolutions"); ("progress", "5")]) None
     :: log w0).

(** The write of the [catch] clause, as an event. *)
Definition errorWrite (env : Env) (job : JobData) (err : Thrown) : Event :=
  mkEvent (Hset (statusKey (videoId job))
             [("status", statusError); ("error", messageOf err)])
          (hsetFault env WError).

(** ** The status writes of the job runner, by name *)

(** The milestone writes of the [try] block before the last one: status and
    progress. *)
Definition milestones : list (string * string) :=
  [ ("checking video resolutions", "5"); ("Processing & Uploading", "20");
    ("Generating master file", "20"); ("Uploading master file", "20") ].

Definition milestoneFields (s p : string) : list (string * string) :=
  [("status", s); ("progress", p)].

Definition completedFields (masterUrl urls : string) : list (string * string) :=
  [("status", statusCompleted); ("progress", "100"); ("masterUrl", masterUrl); ("urls", urls)].

Definition notHset (c : Call) : Prop :=
  match c with Hset _ _ => False | _ => True end.

(** The states of the specification, in order, under the names the code
    writes. *)
Definition stateOrder : list string :=
  [ "queued"; "checking video resolutions"; "Processing & Uploading";
    "Generating master file"; "Uploading master file"; "completed" ].

(** The field lists that the [try] block writes. *)
Definition tryWrite (fields : list (string * string)) : Prop :=
  (exists s p, (s, p) ∈ milestones /\ fields = milestoneFields s p)
  \/ (exists m u, fields = completedFields m u).

(** ** The result fields and the completed status *)

(** A write sets [masterUrl] and [urls] exactly when it sets the status
    [completed]. *)
Definition coherentWrite (ev : Event) : Prop :=
  (setsStatus "completed" ev = true ->
   setsField "masterUrl" ev = true /\ setsField "urls" ev = true)
  /\ (setsField "masterUrl" ev = true \/ setsField "urls" ev = true ->
      setsStatus "completed" ev = true).

Definition silentOnUrls (ev : Event) : Prop :=
  setsField "masterUrl" ev = false /\ setsField "urls" ev = false.

(** The record of [vid] is not completed and has neither result field. *)
Definition pending (vid : string) (w : World) : Prop :=
  field vid "status" w <> Some "completed"
  /\ field vid "masterUrl" w = None
  /\ field vid "urls" w = None.

(** The record of [vid] is completed and has both result fields. *)
Definition delivered (vid : string) (w : World) : Prop :=
  field vid "status" w = Some "completed"
  /\ is_Some (field vid "masterUrl" w)
  /\ is_Some (field vid "urls" w).

(** Where the [try] block can stop when it throws: after [i] of the four
    milestone writes, for a property [Inv i] of that stage. *)
Definition stopped (Inv : nat -> World -> Prop) (w : World) : Prop :=
  exists i, i <= 4 /\ Inv i w.

(** ** The sequence of statuses *)

(** The status that an event puts in the record, if it is a write that the
    store took and that names the status. *)
Definition acceptedStatus (ev : Event) : option string :=
  match call ev, fault ev with
  | Hset _ fields, None => (list_to_map fields : gmap string string) !! "status"
  | _, _ => None
  end.

(** The statuses written by the events [evs] (newest first), oldest first. *)
Definition statusesOf (evs : list Event) : list string :=
  omap acceptedStatus (reverse evs).

(** The statuses of the four milestones, in the order of the [try] block. *)
Definition runnerStates : list string := milestones.*1.


(** ** The record at every moment of a run *)

(** The store after an event: changed by a write that went through, and by
    nothing else.  [replay] does this for a log, newest first. *)
Definition applyEvent (ev : Event) (db : gmap string (gmap string string))
    : gmap string (gmap string string) :=
  match call ev, fault ev with
  | Hset k fields, None => upsert k fields db
  | _, _ => db
  end.

Fixpoint replay (evs : list Event) (db : gmap string (gmap string string))
    : gmap string (gmap string string) :=
  match evs with
  | [] => db
  | ev :: rest => applyEvent ev (replay rest db)
  end.

(** Since [base], the store followed the log, and [good] held after every
    event. *)
Definition always (base : World) (good : World -> Prop) (w : World) : Prop :=
  exists evs,
    log w = evs ++ log base
    /\ redis w = replay evs (redis base)
    /\ forall evs1 evs2, evs = evs1 ++ evs2 ->
         good (mkWorld (replay evs2 (redis base)) (evs2 ++ log base)).

(** The result fields are populated exactly when the status is
    [completed]. *)
Definition urlsIffCompleted (vid : string) (w : World) : Prop :=
  (is_Some (field vid "masterUrl" w) <-> field vid "status" w = Some "completed")
  /\ (is_Some (field vid "urls" w) <-> field vid "status" w = Some "completed").

(** An environment for a 1280x720 source in which the given calls fail. *)
Definition troubled (writes : WriteSite -> option Thrown) (probe : Outcome (Z * Z))
    (mkdirs : string -> option Thrown) (upload : Outcome Urls)
    (master : Outcome string) : Env :=
  mkEnv writes (fun _ => probe) mkdirs None upload None master (fun _ => None)
        (fun _ => "[...]") (fun _ => Later).

Definition noFault {A : Type} (_ : A) : option Thrown := None.

Definition probeOk : Outcome (Z * Z) := Returned (1280, 720)%Z.

(** What the sample run leaves in the record. *)
Definition errorOf (env : Env) : option string :=
  field "vid" "error" (snd (processJob env sampleJob sampleStart)).

Definition statusOf (env : Env) : option string :=
  field "vid" "status" (snd (processJob env sampleJob sampleStart)).

Definition progressOf (env : Env) : option string :=
  field "vid" "progress" (snd (processJob env sampleJob sampleStart)).

Definition isSpawnUpload (ev : Event) : bool :=
  match call ev with SpawnUploadWorker _ _ => true | _ => false end.

Definition isAwaitUpload (ev : Event) : bool :=
  match call ev with AwaitUpload => true | _ => false end.

(** ** The promises of the two worker threads

    [runFFmpegWorker] and [runUploadWorker] wrap a worker thread in a
    promise: the listeners for [message], [error] and [exit] call [resolve]
    or [reject], and the first such call settles the promise. *)

Inductive PromiseState (A : Type) := Pending | Resolved (a : A) | Rejected (e : Thrown).
Arguments Pending {A}.
Arguments Resolved {A} a.
Arguments Rejected {A} e.

Inductive WorkerEvent (M : Type) :=
  | OnMessage (m : M)
  | OnError (err : Thrown)
  | OnExit (code : Z).
Arguments OnMessage {M} m.
Arguments OnError {M} err.
Arguments OnExit {M} code.

(** A call of [resolve] or [reject] on a promise in state [st]; [Pending] as
    the second argument stands for a listener that calls neither. *)
Definition settle {A : Type} (st verdict : PromiseState A) : PromiseState A :=
  match st with
  | Pending => verdict
  | _ => st
  end.

Definition promiseOf {M A : Type} (listener : WorkerEvent M -> PromiseState A)
    (events : list (WorkerEvent M)) : PromiseState A :=
  foldl (fun st ev => settle st (listener ev)) Pending events.

(** [{ success: boolean; error?: string }] *)
Record FFmpegMessage := mkFFmpegMessage { ffSuccess : bool; ffError : option string }.

(** [text || fallback]: the fallback for a missing or empty text. *)
Definition orElse (text : option string) (fallback : string) : string :=
  match text with
  | None => fallback
  | Some EmptyString => fallback
  | Some t => t
  end.

Definition ffmpegListener (ev : WorkerEvent FFmpegMessage) : PromiseState unit :=
  match ev with
  | OnMessage m =>
      if ffSuccess m then Resolved ()
      else Rejected (ErrorObj (orElse (ffError m) "FFmpeg worker error"))
  | OnError err => Rejected err
  | OnExit code =>
      if bool_decide (code <> 0%Z)
      then Rejected (ErrorObj ("FFmpeg worker exited with code " +:+ pretty code))
      else Pending
  end.

Definition ffmpegWorkerPromise (events : list (WorkerEvent FFmpegMessage))
    : PromiseState unit :=
  promiseOf ffmpegListener events.

(** A [WorkerMessage] as it arrives: [urls] may be missing, and [upError] is
    the value under the key [error] when the message has that key. *)
Record UploadMessage := mkUploadMessage {
  upSuccess : bool;
  upUrls : option Urls;
  upError : option string
}.

Definition uploadListener (ev : WorkerEvent UploadMessage) : PromiseState Urls :=
  match ev with
  | OnMessage m =>
      match upSuccess m, upUrls m, upError m with
      | true, Some urls, _ => Resolved urls
      | false, _, Some err => Rejected (ErrorObj err)
      | _, _, _ => Pending
      end
  | OnError err => Rejected err
  | OnExit code =>
      if bool_decide (code <> 0%Z)
      then Rejected (ErrorObj ("Upload worker exited with code " +:+ pretty code))
      else Pending
  end.

Definition uploadWorkerPromise (events : list (WorkerEvent UploadMessage))
    : PromiseState Urls :=
  promiseOf uploadListener events.

(** What an [await] of a settled promise receives. *)
Definition awaitedUnit (st : PromiseState unit) : option (option Thrown) :=
  match st with
  | Pending => None
  | Resolved _ => Some None
  | Rejected e => Some (Some e)
  end.

Definition awaited {A : Type} (st : PromiseState A) : option (Outcome A) :=
  match st with
  | Pending => None
  | Resolved a => Some (Returned a)
  | Rejected e => Some (Threw e)
  end.

(** ** The callback of the Cloudinary upload

    [uploadToCloudinary] settles its promise in the callback of
    [cloudinary.uploader.upload]: [error] is the message of the error object
    when there is one, [result] the [url] of the result when there is one. *)
Definition uploadCallback (filePath : string) (error result : option string)
    : Outcome string :=
  match error, result with
  | Some message, _ =>
      Threw (ErrorObj ("Cloudinary upload error for " +:+ filePath +:+ ": " +:+ message))
  | None, Some url => Returned url
  | None, None => Threw (ErrorObj ("Unknown Cloudinary upload error for " +:+ filePath))
  end.

(** The events that the listeners of [runFFmpegWorker] let pass without
    settling the promise: an exit with code 0. *)
Definition cleanExit {M : Type} (ev : WorkerEvent M) : Prop :=
  match ev with OnExit 0%Z => True | _ => False end.

(** The events that the listeners of [runUploadWorker] let pass: an exit with
    code 0, a success message without [urls], a failure message without the
    key [error]. *)
Definition passedByUpload (ev : WorkerEvent UploadMessage) : Prop :=
  match ev with
  | OnExit 0%Z => True
  | OnMessage m =>
      (upSuccess m = true /\ upUrls m = None) \/ (upSuccess m = false /\ upError m = None)
  | _ => False
  end.

(** ** A run in which every step goes through *)

(** Every call of the [try] block goes through: the probe reports [w] x [h],
    a landscape source of at least 360 lines, the upload worker delivers
    [urls] and Cloudinary answers [masterUrl]. *)
Definition smoothRun (env : Env) (job : JobData) (w h : Z) (urls : Urls)
    (masterUrl : string) : Prop :=
  hsetFault env WChecking = None
  /\ ffprobe env (inputFilePath job) = Returned (w, h)
  /\ (h <= w)%Z /\ (360 <= Z.min h w)%Z
  /\ (forall r, r ∈ uploadSubDir (uploadDir job) h -> mkdirFault env (dir r) = None)
  /\ hsetFault env WProcessing = None
  /\ ffmpegWorker env = None
  /\ uploadWorker env = Returned urls
  /\ hsetFault env WGenerating = None
  /\ writeFileFault env = None
  /\ hsetFault env WUploading = None
  /\ cloudinaryUpload env = Returned masterUrl
  /\ hsetFault env WCompleted = None.

(** The calls of the [try] block in such a run, oldest first. *)
Definition smoothCalls (env : Env) (job : JobData) (h : Z) (urls : Urls)
    (masterUrl : string) : list Call :=
  let key := statusKey (videoId job) in
  let rungs := uploadSubDir (uploadDir job) h in
  [ Hset key (milestoneFields "checking video resolutions" "5");
    Ffprobe (inputFilePath job) ]
  ++ (Mkdir <$> (dir <$> rungs))
  ++ [ SpawnFFmpegWorker (inputFilePath job) rungs;
       SpawnUploadWorker rungs (videoId job);
       Hset key (milestoneFields "Processing & Uploading" "20");
       AwaitFFmpeg;
       AwaitUpload;
       Hset key (milestoneFields "Generating master file" "20");
       WriteFile (uploadDir job +:+ "/index.m3u8") (trim (generateMasterPlaylist rungs));
       Hset key (milestoneFields "Uploading master file" "20");
       UploadToCloudinary (uploadDir job +:+ "/index.m3u8") (videoId job);
       Hset key (completedFields masterUrl (JSON_stringify env urls)) ].

(** The run gets as far as the two workers: the first write, the probe, the
    checks, the directories and the second write go through, and no worker
    promise rejects while the second write is awaited. *)
Definition reachesWorkers (env : Env) (job : JobData) (w h : Z) : Prop :=
  hsetFault env WChecking = None
  /\ ffprobe env (inputFilePath job) = Returned (w, h)
  /\ (h <= w)%Z /\ (360 <= Z.min h w)%Z
  /\ (forall r, r ∈ uploadSubDir (uploadDir job) h -> mkdirFault env (dir r) = None)
  /\ hsetFault env WProcessing = None
  /\ unhandledRejection env DuringStatusWrite [FFmpegPromise; UploadPromise] = None.

(** The run gets as far as the upload of the master playlist. *)
Definition reachesMasterUpload (env : Env) (job : JobData) (w h : Z) : Prop :=
  reachesWorkers env job w h
  /\ ffmpegWorker env = None
  /\ (exists urls, uploadWorker env = Returned urls)
  /\ hsetFault env WGenerating = None
  /\ writeFileFault env = None
  /\ hsetFault env WUploading = None.

(** Calls that come after the directories: the workers, the master playlist
    and its upload. *)
Definition afterDirectories (ev : Event) : bool :=
  match call ev with
  | SpawnFFmpegWorker _ _ | SpawnUploadWorker _ _ | AwaitFFmpeg | AwaitUpload
  | WriteFile _ _ | UploadToCloudinary _ _ => true
  | _ => false
  end.

Definition isRm (ev : Event) : bool :=
  match call ev with Rm _ => true | _ => false end.

(** The directory of the 480p rung cannot be created. *)
Definition dirDenied : Env :=
  troubled noFault probeOk
    (fun d => if bool_decide (d = "/tmp/vid/out/480p")
              then Some (ErrorObj "EACCES: permission denied") else None)
    (Returned []) (Returned "https://cdn.example/vid/index.m3u8").

(** The world in which the two workers run: the directories exist, the
    workers are started and the second status write went through. *)
Definition launchedWorld (job : JobData) (h : Z) (w0 : World) : World :=
  mkWorld
    (upsert (statusKey (videoId job)) (milestoneFields "Processing & Uploading" "20")
       (redis (probedWorld job w0)))
    (mkEvent (Hset (statusKey (videoId job))
                (milestoneFields "Processing & Uploading" "20")) None
     :: mkEvent (SpawnUploadWorker (uploadSubDir (uploadDir job) h) (videoId job)) None
     :: mkEvent (SpawnFFmpegWorker (inputFilePath job) (uploadSubDir (uploadDir job) h)) None
     :: reverse ((fun d => mkEvent (Mkdir d) None) <$> (dir <$> uploadSubDir (uploadDir job) h))
     ++ log (probedWorld job w0)).

(** The transcoder exits with code 1 before it posts anything, while the
    runner awaits its promise. *)
Definition transcoderCrash : list (WorkerEvent FFmpegMessage) := [OnExit 1].

Definition crashEnv : Env :=
  mkEnv (fun _ => None) (fun _ => Returned (1280, 720)%Z) (fun _ => None)
        (Some (ErrorObj "FFmpeg worker exited with code 1"))
        (Returned []) None
        (Returned "https://cdn.example/vid/index.m3u8") (fun _ => None)
        (fun _ => "[...]") (fun _ => Later).

(** Cloudinary answers the upload of the master playlist with an error. *)
Definition cloudinaryDown : Env :=
  troubled noFault probeOk noFault (Returned [])
    (uploadCallback "/tmp/vid/out/index.m3u8" (Some "Invalid API key") None).

(** The rest of the [try] block from the two awaits on, and from the upload
    of the master playlist on. *)
Definition fromMasterUpload (env : Env) (job : JobData) (urls : Urls) : Async unit :=
  masterUrl ← uploadToCloudinary env (uploadDir job +:+ "/index.m3u8") (videoId job);
  hset env WCompleted (statusKey (videoId job))
    [("status", statusCompleted); ("progress", "100");
     ("masterUrl", masterUrl); ("urls", JSON_stringify env urls)].

Definition fromWorkers (env : Env) (job : JobData) (h : Z) : Async unit :=
  awaitFFmpeg env;;
  urls ← awaitUpload env;
  hset env WGenerating (statusKey (videoId job))
    [("status", "Generating master file"); ("progress", "20")];;
  writeFile env (uploadDir job +:+ "/index.m3u8")
    (trim (generateMasterPlaylist (uploadSubDir (uploadDir job) h)));;
  hset env WUploading (statusKey (videoId job))
    [("status", "Uploading master file"); ("progress", "20")];;
  fromMasterUpload env job urls.

(** ** The HTTP handlers of [src/app.ts]

    [POST /process] takes an upload, writes the first status record and puts
    a job on the queue; [GET /status/:videoId] reads the status record. *)

Module App.

(** A JSON reply: [{ success: false, error }] under a status code, or a body
    with [success: true] under 200. *)
Inductive Response (B : Type) :=
  | Fail (status : nat) (error : string)
  | Ok (body : B).
Arguments Fail {B} status error.
Arguments Ok {B} body.

(** A string, a [null] or an [undefined] is truthy when it is a string that
    is not empty. *)
Definition truthy (o : option string) : bool :=
  match o with
  | Some s => bool_decide (s <> EmptyString)
  | None => false
  end.

(** *** [GET /status/:videoId] *)

(** The body of a found record.  A field of the hash that is missing leaves
    [status], [progress] and [createdAt] out of the JSON and makes [error]
    and [masterUrl] [null]: both are [None] here.  [Json] is the type of the
    values that [JSON.parse] gives. *)
Record StatusBody (Json : Type) := mkStatusBody {
  bodyVideoId : string;
  bodyStatus : option string;
  bodyProgress : option string;
  bodyError : option string;
  bodyMasterUrl : option string;
  bodyUrls : option Json;
  bodyCreatedAt : option string
}.
Arguments mkStatusBody {Json} _ _ _ _ _ _ _.
Arguments bodyVideoId {Json} _.
Arguments bodyStatus {Json} _.
Arguments bodyProgress {Json} _.
Arguments bodyError {Json} _.
Arguments bodyMasterUrl {Json} _.
Arguments bodyUrls {Json} _.
Arguments bodyCreatedAt {Json} _.

(** The outside of the status handler: whether [redis.hgetall] fails, and
    what [JSON.parse] makes of a text (nothing when it throws). *)
Record Reader (Json : Type) := mkReader {
  hgetallFault : option Thrown;
  JSON_parse : string -> option Json
}.
Arguments mkReader {Json} _ _.
Arguments hgetallFault {Json} _.
Arguments JSON_parse {Json} _ _.

Definition statusFailure {B : Type} : Response B := Fail 500 "Failed to fetch video status".

(** [HGETALL] of a key that does not exist gives the empty object.  The
    handler reads and writes nothing else; its console output is left out. *)
Definition getStatus {Json : Type} (rd : Reader Json) (videoId : string)
    (db : gmap string (gmap string string)) : Response (StatusBody Json) :=
  if bool_decide (videoId = EmptyString) then Fail 400 "Missing videoId."
  else
    match hgetallFault rd with
    | Some _ => statusFailure
    | None =>
        let statusData := default ∅ (db !! statusKey videoId) in
        if bool_decide (size statusData = 0)
        then Fail 404 "Video ID not found or processing not started."
        else
          let body urls :=
            Ok (mkStatusBody videoId (statusData !! "status") (statusData !! "progress")
                  (statusData !! "error") (statusData !! "masterUrl") urls
                  (statusData !! "createdAt")) in
          if truthy (statusData !! "urls")
          then match JSON_parse rd (default EmptyString (statusData !! "urls")) with
               | Some parsed => body (Some parsed)
               | None => statusFailure
               end
          else body None
    end.

(** *** The upload promise of [POST /process] *)

(** What busboy and the streams emit while the request body is read.
    [OnFile] carries the field name, [info.filename] (nothing when it is not
    a string), [info.mimeType], and the path that [path.join(inputDir,
    uniqueFilename)] gives for this part with its fresh UUID.  The events of
    a write stream and of the file stream piped into it carry the path of
    the write stream. *)
Inductive UploadEvent :=
  | OnFile (name : string) (filename : option string) (mimeType : string) (saveAs : string)
  | OnWriteError (p : string) (err : Thrown)
  | OnReadError (p : string) (err : Thrown)
  | OnWriteClose (p : string)
  | OnBusboyError (err : Thrown)
  | OnFinish.

(** The variables that the listeners share, the write streams created so
    far, and the promise. *)
Record Upload := mkUpload {
  done : bool;
  fileSavedPath : option string;
  originalFilename : option string;
  streams : list string;
  promise : PromiseState unit
}.

Definition ALLOWED_VIDEO_TYPES : list string :=
  ["video/mp4"; "video/mkv"; "video/webm"; "video/avi"].

Definition allowedExtensions : list string := [".mp4"; ".mkv"; ".webm"; ".avi"].

(** [err instanceof Error ? err : new Error(fallback)] *)
Definition orError (err : Thrown) (fallback : string) : Thrown :=
  match err with
  | ErrorObj _ => err
  | NonError => ErrorObj fallback
  end.

(** [done = true; reject(e)] and [done = true; resolve()] *)
Definition reject (u : Upload) (e : Thrown) : Upload :=
  mkUpload true (fileSavedPath u) (originalFilename u) (streams u)
           (settle (promise u) (Rejected e)).

Definition resolve (u : Upload) : Upload :=
  mkUpload true (fileSavedPath u) (originalFilename u) (streams u)
           (settle (promise u) (Resolved ())).

Definition missingFilename : string := "Uploaded file missing or invalid filename.".
Definition invalidType : string := "Invalid file type. Allowed: mp4, mkv, webm, avi.".
Definition noFile : string := "No file uploaded with field name 'file'.".

Section Listeners.

(** [path.extname(filename).toLowerCase()] *)
Variable lowerExt : string -> string.

Definition isValidMimeType (mimeType : string) : bool :=
  bool_decide (mimeType ∈ ALLOWED_VIDEO_TYPES).

Definition isValidExtension (fileExt : string) : bool :=
  bool_decide (fileExt ∈ allowedExtensions).

(** The listener of [file]. *)
Definition onFile (u : Upload) (name : string) (filename : option string)
    (mimeType saveAs : string) : Upload :=
  if done u then u
  else if bool_decide (name <> "file") then u
  else if negb (truthy filename) then reject u (ErrorObj missingFilename)
  else
    let u := mkUpload (done u) (fileSavedPath u) filename (streams u) (promise u) in
    let fileExt := lowerExt (default EmptyString filename) in
    if negb (isValidMimeType mimeType) && negb (isValidExtension fileExt)
    then reject u (ErrorObj invalidType)
    else mkUpload (done u) (Some saveAs) (originalFilename u) (streams u ++ [saveAs])
                  (promise u).

(** A stream event reaches a listener only when the handler has created the
    stream. *)
Definition onEvent (u : Upload) (ev : UploadEvent) : Upload :=
  match ev with
  | OnFile name filename mimeType saveAs => onFile u name filename mimeType saveAs
  | OnWriteError p err =>
      if bool_decide (p ∈ streams u) && negb (done u)
      then reject u (orError err "Unknown write error") else u
  | OnReadError p err =>
      if bool_decide (p ∈ streams u) && negb (done u)
      then reject u (orError err "Unknown read error") else u
  | OnWriteClose p =>
      if bool_decide (p ∈ streams u) && negb (done u) then resolve u else u
  | OnBusboyError err =>
      if negb (done u) then reject u (orError err "Unknown busboy error") else u
  | OnFinish =>
      if negb (done u) && negb (truthy (fileSavedPath u))
      then reject u (ErrorObj noFile) else u
  end.

Definition idle : Upload := mkUpload false None None [] Pending.

Definition upload (events : list UploadEvent) : Upload := foldl onEvent idle events.

End Listeners.

(** *** [POST /process] *)

(** [{ success: true, videoId, message }] *)
Record Accepted := mkAccepted { acceptedVideoId : string; message : string }.

(** The calls of the handler that leave the process. *)
Inductive Call :=
  | Connect
  | Mkdir (d : string)
  | CreateWriteStream (p : string)
  | Unlink (p : string)
  | Hset (key : string) (fields : list (string * string))
  | QueueAdd (data : JobData) (originalName : string) (opts : JobsOptions).

Record Event := mkEvent { call : Call; fault : option Thrown }.

(** The outside of one request: the state of the connection, the fresh
    [videoId], the events that the body of the request gives rise to, the
    clock at the status write, and how each call ends. *)
Record Env := mkEnv {
  redisStatus : string;
  connectFault : option Thrown;
  freshVideoId : string;
  mkdirFault : string -> option Thrown;
  lowerExt : string -> string;
  requestEvents : list UploadEvent;
  unlinkFault : string -> option Thrown;
  createdAt : string;
  hsetFault : option Thrown;
  addFault : option Thrown
}.

(** The store, the jobs added to the queue (oldest first, each with the
    original filename and its options) and the calls made (newest first). *)
Record World := mkWorld {
  redis : gmap string (gmap string string);
  queue : list (JobData * string * JobsOptions);
  log : list Event
}.

(** A handler step goes on, sends the reply and returns, or waits for a
    promise that does not settle. *)
Inductive Step (A : Type) :=
  | Next (a : A)
  | Sent (r : Response Accepted)
  | Waiting.
Arguments Next {A} a.
Arguments Sent {A} r.
Arguments Waiting {A}.

Definition Handler (A : Type) : Type := World -> Step A * World.

#[global] Instance Handler_ret : MRet Handler := fun A a w => (Next a, w).

#[global] Instance Handler_bind : MBind Handler := fun A B f m w =>
  match m w with
  | (Next a, w1) => f a w1
  | (Sent r, w1) => (Sent r, w1)
  | (Waiting, w1) => (Waiting, w1)
  end.

(** [return res.status(...).json(...)] *)
Definition send {A : Type} (r : Response Accepted) : Handler A := fun w => (Sent r, w).

Definition record_event (ev : Event) (w : World) : World :=
  mkWorld (redis w) (queue w) (ev :: log w).

(** A call inside [try]: the handler goes on either way and sees whether the
    call threw. *)
Definition attempt (c : Call) (f : option Thrown) : Handler (option Thrown) := fun w =>
  (Next f, record_event (mkEvent c f) w).

(** [if (caught) return res.status(status).json({ success: false, error })] *)
Definition replyIfCaught (f : option Thrown) (status : nat) (error : string) : Handler unit :=
  match f with
  | Some _ => send (Fail status error)
  | None => mret ()
  end.

(** [err instanceof Error ? err.message : "File upload failed"] *)
Definition uploadErrorText (err : Thrown) : string :=
  match err with
  | ErrorObj m => m
  | NonError => "File upload failed"
  end.

Definition queuedFields (createdAt : string) : list (string * string) :=
  [("status", "queued"); ("progress", "0"); ("error", EmptyString); ("createdAt", createdAt)].

Definition queuedMessage : string := "Video queued for processing.".

Section Handlers.

Variable env : Env.

(** [await new Promise(...)]: the write streams are created while the body
    is read; the handler goes on when the promise has settled. *)
Definition awaitUpload : Handler Upload := fun w =>
  let u := upload (lowerExt env) (requestEvents env) in
  let w1 := foldl (fun w p => record_event (mkEvent (CreateWriteStream p) None) w)
                  w (streams u) in
  match promise u with
  | Pending => (Waiting, w1)
  | _ => (Next u, w1)
  end.

(** [if (fileSavedPath) await fs.unlink(fileSavedPath)] with its failure
    swallowed. *)
Definition unlinkSaved (u : Upload) : Handler unit :=
  if truthy (fileSavedPath u)
  then let p := default EmptyString (fileSavedPath u) in
       attempt (Unlink p) (unlinkFault env p);; mret ()
  else mret ().

Definition hset (key : string) (fields : list (string * string))
    : Handler (option Thrown) := fun w =>
  match hsetFault env with
  | Some e => (Next (Some e), record_event (mkEvent (Hset key fields) (Some e)) w)
  | None =>
      (Next None,
       mkWorld (upsert key fields (redis w)) (queue w)
               (mkEvent (Hset key fields) None :: log w))
  end.

(** [videoQueue.add("video-processing", data, opts)] *)
Definition queueAdd (data : JobData) (originalName : string) (opts : JobsOptions)
    : Handler (option Thrown) := fun w =>
  match addFault env with
  | Some e =>
      (Next (Some e), record_event (mkEvent (QueueAdd data originalName opts) (Some e)) w)
  | None =>
      (Next None,
       mkWorld (redis w) (queue w ++ [(data, originalName, opts)])
               (mkEvent (QueueAdd data originalName opts) None :: log w))
  end.

(** The two paths are [path.join("/tmp", videoId, "out")] and
    [path.join("/tmp", videoId, "in")] for an id that is a single path
    segment. *)
Definition postProcess : Handler Empty_set :=
  (if bool_decide (redisStatus env <> "ready")
   then f ← attempt Connect (connectFault env);
        replyIfCaught f 500 "Redis connection failed"
   else mret ());;
  let videoId := freshVideoId env in
  let uploadDir := "/tmp/" +:+ videoId +:+ "/out" in
  let inputDir := "/tmp/" +:+ videoId +:+ "/in" in
  f ← attempt (Mkdir uploadDir) (mkdirFault env uploadDir);
  f ← match f with
      | Some e => mret (Some e)
      | None => attempt (Mkdir inputDir) (mkdirFault env inputDir)
      end;
  replyIfCaught f 500 "Failed to prepare upload directories";;
  u ← awaitUpload;
  match promise u with
  | Rejected err =>
      unlinkSaved u;;
      send (Fail 400 (uploadErrorText err))
  | _ =>
      if negb (truthy (fileSavedPath u)) || negb (truthy (originalFilename u))
      then send (Fail 400 "No valid file was saved")
      else
        let fileSavedPath := default EmptyString (fileSavedPath u) in
        let originalFilename := default EmptyString (originalFilename u) in
        f ← hset (statusKey videoId) (queuedFields (createdAt env));
        (match f with
         | Some _ => unlinkSaved u;; send (Fail 500 "Failed to set video status")
         | None => mret ()
         end);;
        f ← queueAdd (mkJob videoId fileSavedPath uploadDir inputDir) originalFilename
              jobOptions;
        (match f with
         | Some _ => unlinkSaved u;; send (Fail 500 "Failed to enqueue job")
         | None => mret ()
         end);;
        send (Ok (mkAccepted videoId queuedMessage))
  end.

(** The reply that the client receives, if any. *)
Definition reply (w : World) : option (Response Accepted) :=
  match fst (postProcess w) with
  | Sent r => Some r
  | Waiting => None
  | Next nothing => match nothing with end
  end.

End Handlers.

End App.

(** The world in which a worker process picks up a job: the store that the
    handlers left, and a log of its own. *)
Definition workerWorld (w : App.World) : World := mkWorld (App.redis w) [].

(** A file part that the listener of [file] saves: the field is called
    [file], the filename is a string that is not empty, and the MIME type or
    the extension is on its list. *)
Definition acceptablePart (lowerExt : string -> string) (name : string)
    (filename : option string) (mimeType : string) : Prop :=
  name = "file"
  /\ App.truthy filename = true
  /\ (mimeType ∈ App.ALLOWED_VIDEO_TYPES
      \/ lowerExt (default EmptyString filename) ∈ App.allowedExtensions).

(** An upload that is well under way: two parts saved, the first one
    closed. *)
Definition twoParts : list App.UploadEvent :=
  [ App.OnFile "file" (Some "a.mp4") "video/mp4" "/tmp/v/in/a-1.mp4";
    App.OnFile "file" (Some "b.bin") "video/webm" "/tmp/v/in/b-2.bin";
    App.OnWriteClose "/tmp/v/in/a-1.mp4" ].

(** A stand-in for [path.extname(filename).toLowerCase()] on the sample
    names. *)
Definition sampleExt (filename : string) : string :=
  if bool_decide (filename = "a.mp4") then ".mp4"
  else if bool_decide (filename = "clip.mp4") then ".mp4"
  else ".bin".

(** What the listeners keep true of the shared variables: [done] is set
    exactly when the promise has settled; and until a rejection, the saved
    path and the original filename are those of one and the same acceptable
    part, the last one seen. *)
Definition tidy (lowerExt : string -> string) (events : list App.UploadEvent)
    (u : App.Upload) : Prop :=
  (App.done u = false <-> App.promise u = Pending)
  /\ ((forall e, App.promise u <> Rejected e) ->
      match App.fileSavedPath u with
      | None => App.streams u = []
      | Some p =>
          exists name filename mimeType,
            App.OnFile name filename mimeType p ∈ events
            /\ acceptablePart lowerExt name filename mimeType
            /\ App.originalFilename u = filename
      end).

(** The upload worker exits with code 1 while the transcoder is still at
    work on a 1280x720 source; everything else goes through. *)
Definition uploaderDown : Env :=
  mkEnv (fun _ => None) (fun _ => Returned (1280, 720)%Z) (fun _ => None) None
        (Threw (ErrorObj "Upload worker exited with code 1")) None
        (Returned "https://cdn.example/vid/index.m3u8") (fun _ => None)
        (fun _ => "[...]")
        (fun p => match p with UploadPromise => DuringTranscode | FFmpegPromise => Later end).

(** The job that [POST /process] puts on the queue for the upload of its
    request. *)
Definition queuedJob (env : App.Env) : JobData :=
  mkJob (App.freshVideoId env)
        (default EmptyString
           (App.fileSavedPath (App.upload (App.lowerExt env) (App.requestEvents env))))
        ("/tmp/" +:+ App.freshVideoId env +:+ "/out")
        ("/tmp/" +:+ App.freshVideoId env +:+ "/in").

(** The body that [GET /status/:videoId] sends for the record as [app.ts]
    wrote it. *)
Definition queuedBody {Json : Type} (videoId createdAt : string) : App.StatusBody Json :=
  App.mkStatusBody videoId (Some "queued") (Some "0") (Some EmptyString) None None
                   (Some createdAt).

(** A request with one MP4 part that is saved and closed, on a server whose
    connection is ready and whose calls go through. *)
Definition sampleRequest : App.Env :=
  App.mkEnv "ready" None "vid" (fun _ => None) sampleExt
    [ App.OnFile "file" (Some "clip.mp4") "video/mp4" "/tmp/vid/in/clip.mp4";
      App.OnWriteClose "/tmp/vid/in/clip.mp4"; App.OnFinish ]
    (fun _ => None) "2025-01-01T00:00:00.000Z" None None.

(** The same request when the queue refuses the job. *)
Definition queueDown : App.Env :=
  App.mkEnv "ready" None "vid" (fun _ => None) sampleExt
    [ App.OnFile "file" (Some "clip.mp4") "video/mp4" "/tmp/vid/in/clip.mp4";
      App.OnWriteClose "/tmp/vid/in/clip.mp4"; App.OnFinish ]
    (fun _ => None) "2025-01-01T00:00:00.000Z" None (Some (ErrorObj "Connection is closed.")).

Definition emptyServer : App.World := App.mkWorld ∅ [] [].

(** A reader whose store answers and whose parser knows the text of the
    sample environments. *)
Definition sampleReader : App.Reader Urls :=
  App.mkReader None
    (fun text => if bool_decide (text = "[...]")
                 then Some [(360%Z, "https://cdn.example/vid/360p/index.m3u8")]
                 else None).

(** * Theorems *)

(** Membership in a list that is written out. *)
Ltac pick :=
  cbn [app]; rewrite ?elem_of_cons;
  solve [repeat first [left; reflexivity | right]].

(** ** The ladder and the playlist *)

Lemma uploadSubDir_ladderSpec (uploadDir : string) (h : Z) :
  uploadSubDir uploadDir h = ladderSpec uploadDir h.
Proof.
  unfold uploadSubDir, ladderSpec, higherTiers, push.
  repeat case_bool_decide;
    repeat (rewrite filter_cons; cbn [fst];
            destruct (decide _); try lia);
    rewrite ?filter_nil; reflexivity.
Qed.

(** C3: for a landscape source of at least 360 lines, the ladder is the 360p
    rung followed by every higher tier whose threshold does not exceed the
    source height, each with its canonical width, in ascending height order;
    the 360p rung is always there and no rung is taller than the source. *)
Theorem ladder_correct (uploadDir : string) (w h : Z) :
  (h <= w)%Z -> (360 <= Z.min w h)%Z ->
  uploadSubDir uploadDir h = ladderSpec uploadDir h
  /\ StronglySorted (fun a b => (height a < height b)%Z) (uploadSubDir uploadDir h)
  /\ mkRung (uploadDir +:+ "/360p") 360 640 ∈ uploadSubDir uploadDir h
  /\ (forall r, r ∈ uploadSubDir uploadDir h ->
        (height r <= h)%Z /\ (height r, width r) ∈ tiers
        /\ dir r = uploadDir +:+ "/" +:+ pretty (height r) +:+ "p")
  /\ (forall t, t ∈ tiers -> (t.1 <= h)%Z -> tierRung uploadDir t ∈ uploadSubDir uploadDir h).
Proof.
  intros Hland Hmin.
  assert (Hh : (360 <= h)%Z) by lia.
  split; [apply uploadSubDir_ladderSpec|].
  unfold uploadSubDir, push, tiers.
  repeat case_bool_decide; try lia; cbn [app].
  all: split; [repeat constructor; cbn; lia|].
  all: split; [pick|].
  all: split.
  all: try (intros r Hr; repeat (apply elem_of_cons in Hr as [->|Hr]);
            try (apply elem_of_nil in Hr; contradiction);
            cbn [height width dir]; (split; [lia|]); (split; [|reflexivity]);
            pick).
  all: intros t Ht Hle;
       repeat (apply elem_of_cons in Ht as [->|Ht]);
       try (apply elem_of_nil in Ht; contradiction);
       cbn [fst] in Hle; try lia;
       unfold tierRung; cbn [fst snd]; pick.
Qed.

Lemma ladder_correct_witness :
  (1080 <= 1920)%Z /\ (360 <= Z.min 1920 1080)%Z
  /\ uploadSubDir "/tmp/v/out" 1080 = ladderSpec "/tmp/v/out" 1080
  /\ mkRung ("/tmp/v/out" +:+ "/360p") 360 640 ∈ uploadSubDir "/tmp/v/out" 1080.
Proof.
  split; [lia|]. split; [lia|].
  destruct (ladder_correct "/tmp/v/out" 1920 1080) as (H1 & _ & H3 & _); [lia | lia |].
  exact (conj H1 H3).
Defined.

(** The scenario of the specification: a 1920x1080 source gives the rungs
    360p, 480p, 720p and 1080p. *)
Example ladder_1080 :
  uploadSubDir "/tmp/v/out" 1080
  = [ mkRung "/tmp/v/out/360p" 360 640; mkRung "/tmp/v/out/480p" 480 854;
      mkRung "/tmp/v/out/720p" 720 1280; mkRung "/tmp/v/out/1080p" 1080 1920 ].
Proof. reflexivity. Qed.

Lemma imap_streamInf_from (n : nat) (rungs : list Rung) :
  imap (fun i => streamInf (n + i)) rungs
  = renderVariant <$>
      zip_with
        (fun k r => mkVariant (Z.of_nat k * bandwidthStep) (width r) (height r)
                      (pretty (height r) +:+ "p/index.m3u8"))
        (seq (S n) (length rungs)) rungs.
Proof.
  revert n. induction rungs as [|r rungs IH]; intros n; [reflexivity|].
  cbn [imap length seq zip_with fmap list_fmap]. f_equal.
  - unfold streamInf, renderVariant; cbn [bandwidth resolutionWidth resolutionHeight uri].
    replace (Z.of_nat (n + 0) + 1)%Z with (Z.of_nat (S n)) by lia. reflexivity.
  - rewrite <- (IH (S n)). apply imap_ext. intros i x _. cbn.
    f_equal. lia.
Qed.

Lemma variantsSpec_lookup (rungs : list Rung) (i : nat) (r : Rung) :
  rungs !! i = Some r ->
  variantsSpec rungs !! i
  = Some (mkVariant ((Z.of_nat i + 1) * bandwidthStep) (width r) (height r)
            (pretty (height r) +:+ "p/index.m3u8")).
Proof.
  intros Hr. unfold variantsSpec.
  rewrite lookup_zip_with, lookup_seq_lt by (eapply lookup_lt_Some; eauto).
  rewrite Hr. cbn. do 2 f_equal. lia.
Qed.

Lemma bandwidths_from (n : nat) (rungs : list Rung) :
  bandwidth <$>
    zip_with
      (fun k r => mkVariant (Z.of_nat k * bandwidthStep) (width r) (height r)
                    (pretty (height r) +:+ "p/index.m3u8"))
      (seq n (length rungs)) rungs
  = (fun k => Z.of_nat k * bandwidthStep)%Z <$> seq n (length rungs).
Proof.
  revert n. induction rungs as [|r rungs IH]; intros n; [reflexivity|].
  cbn [length seq zip_with fmap list_fmap bandwidth]. f_equal. apply IH.
Qed.

Lemma scaled_seq_sorted (n len : nat) :
  StronglySorted Z.lt ((fun k => Z.of_nat k * bandwidthStep)%Z <$> seq n len).
Proof.
  revert n. induction len as [|len IH]; intros n; cbn; constructor.
  - apply IH.
  - apply Forall_forall. intros x Hx.
    apply list_elem_of_fmap in Hx as (k & -> & Hk).
    apply elem_of_seq in Hk. unfold bandwidthStep. lia.
Qed.

(** C9: the master playlist lists one entry per rung, in order; the entry at
    position k (counted from one) carries the bandwidth k * 250000, so the
    bandwidths increase strictly; its RESOLUTION is the declared width x
    height of the rung and its sub-manifest path is <height>p/index.m3u8. *)
Theorem masterPlaylist_entries (rungs : list Rung) :
  generateMasterPlaylist rungs = masterSpec rungs
  /\ length (variantsSpec rungs) = length rungs
  /\ (forall i r, rungs !! i = Some r ->
        variantsSpec rungs !! i
        = Some (mkVariant ((Z.of_nat i + 1) * 250000) (width r) (height r)
                  (pretty (height r) +:+ "p/index.m3u8")))
  /\ StronglySorted Z.lt (bandwidth <$> variantsSpec rungs).
Proof.
  repeat split.
  - unfold generateMasterPlaylist, masterSpec, variantsSpec.
    rewrite <- (imap_streamInf_from 0). reflexivity.
  - unfold variantsSpec. rewrite length_zip_with, length_seq. lia.
  - intros i r Hr. apply variantsSpec_lookup, Hr.
  - unfold variantsSpec. rewrite bandwidths_from. apply scaled_seq_sorted.
Qed.

Lemma imap_streamInf_dims (n : nat) (rungs1 rungs2 : list Rung) :
  Forall2 (fun a b => width a = width b /\ height a = height b) rungs1 rungs2 ->
  imap (fun i => streamInf (n + i)) rungs1 = imap (fun i => streamInf (n + i)) rungs2.
Proof.
  intros H. revert n. induction H as [|a b l1 l2 [Hw Hh] _ IH]; intros n; [reflexivity|].
  cbn [imap]. f_equal.
  - unfold streamInf. rewrite Hw, Hh. reflexivity.
  - specialize (IH (S n)).
    erewrite (imap_ext _ (fun i => streamInf (S n + i)) l1),
             (imap_ext _ (fun i => streamInf (S n + i)) l2); [exact IH| |];
      intros i x _; cbn; f_equal; lia.
Qed.

(** C8: the master playlist is a function of the rung list alone, and only of
    the declared widths and heights in it: two runs on rung lists that agree
    on these, in particular two runs on the same list, give the same bytes.
    The generator takes no world and logs no call. *)
Theorem generateMasterPlaylist_deterministic (rungs1 rungs2 : list Rung) :
  Forall2 (fun a b => width a = width b /\ height a = height b) rungs1 rungs2 ->
  generateMasterPlaylist rungs1 = generateMasterPlaylist rungs2.
Proof.
  intros H. unfold generateMasterPlaylist.
  do 2 f_equal. exact (imap_streamInf_dims 0 rungs1 rungs2 H).
Qed.

Lemma generateMasterPlaylist_deterministic_witness :
  Forall2 (fun a b => width a = width b /\ height a = height b)
    (uploadSubDir "/tmp/a/out" 720) (uploadSubDir "/tmp/b/out" 720)
  /\ generateMasterPlaylist (uploadSubDir "/tmp/a/out" 720)
     = generateMasterPlaylist (uploadSubDir "/tmp/b/out" 720).
Proof.
  assert (H : Forall2 (fun a b => width a = width b /\ height a = height b)
                (uploadSubDir "/tmp/a/out" 720) (uploadSubDir "/tmp/b/out" 720))
    by (repeat constructor).
  split; [exact H|].
  apply (generateMasterPlaylist_deterministic _ _ H).
Defined.

(** ** Rules of the logic of runs *)

Section Rules.

Context {A B : Type}.

Lemma triple_ret (P : World -> Prop) (a : A) Q E :
  (forall w, P w -> Q a w) -> triple P (mret a : Async A) Q E.
Proof. intros H w Hw. cbn. auto. Qed.

Lemma triple_throw (P : World -> Prop) (e : Thrown) (Q : A -> World -> Prop) E :
  (forall w, P w -> E e w) -> triple P (throw e : Async A) Q E.
Proof. intros H w Hw. cbn. auto. Qed.

Lemma triple_bind (P : World -> Prop) (m : Async A) (f : A -> Async B) R Q E :
  triple P m R E -> (forall a, triple (R a) (f a) Q E) -> triple P (m ≫= f) Q E.
Proof.
  intros Hm Hf w Hw. specialize (Hm w Hw).
  unfold mbind, Async_bind. destruct (m w) as [[a|e|e] w1]; [|exact Hm|exact Hm].
  exact (Hf a w1 Hm).
Qed.

Lemma triple_conseq (P P' : World -> Prop) (m : Async A)
    (Q Q' : A -> World -> Prop) (E E' : Thrown -> World -> Prop) :
  triple P' m Q' E' ->
  (forall w, P w -> P' w) -> (forall a w, Q' a w -> Q a w) ->
  (forall e w, E' e w -> E e w) ->
  triple P m Q E.
Proof.
  intros Hm HP HQ HE w Hw. specialize (Hm w (HP w Hw)).
  destruct (m w) as [[a|e|e] w1]; auto.
Qed.

End Rules.

(** When the process ends in the body, the handler does not run: what held
    where the body stopped is what holds at the end. *)
Lemma triple_tryCatch (P : World -> Prop) (body : Async unit)
    (handler : Thrown -> Async unit) R Q E :
  triple P body (fun _ => Q ()) R ->
  (forall e, triple (R e) (handler e) Q E) ->
  (forall e w, R e w -> E e w) ->
  triple P (tryCatch body handler) Q E.
Proof.
  intros Hb Hh Hx w Hw. specialize (Hb w Hw). unfold tryCatch.
  destruct (body w) as [[[]|e|e] w1]; [exact Hb| |exact (Hx e w1 Hb)].
  exact (Hh e w1 Hb).
Qed.

(** An exposed await ends where its call ends. *)
Lemma triple_exposed {A : Type} (env : Env) (m : Moment) (unawaited : list WorkerPromise)
    (call : Async A) (P : World -> Prop) (Q : A -> World -> Prop) (S : World -> Prop) :
  triple P call Q (fun _ => S) ->
  (forall a w, Q a w -> S w) ->
  triple P (exposed env m unawaited call) Q (fun _ => S).
Proof.
  intros Hc Hq w Hw. specialize (Hc w Hw). unfold exposed.
  destruct (unhandledRejection env m unawaited) as [e|]; [|exact Hc].
  destruct (call w) as [[a|e0|e0] w1]; cbn [snd]; eauto.
Qed.

(** ** What the primitive steps do *)

Section Steps.

Variable env : Env.

Lemma hset_accepted site key fields w :
  hsetFault env site = None ->
  hset env site key fields w
  = (Returned (), mkWorld (upsert key fields (redis w))
                          (mkEvent (Hset key fields) None :: log w)).
Proof. intros H. unfold hset. rewrite H. reflexivity. Qed.

Lemma mkdirAll_run dirs w :
  mkdirAll env dirs w
  = (mkdirOutcome env dirs,
     mkWorld (redis w) (reverse (mkdirEvent env <$> dirs) ++ log w)).
Proof.
  revert w. induction dirs as [|d rest IH]; intros w.
  - destruct w; reflexivity.
  - cbn [mkdirAll mkdirOutcome fmap list_fmap]. rewrite IH.
    rewrite reverse_cons, <- app_assoc. cbn [record_event redis log app].
    unfold mkdirEvent. destruct (mkdirFault env d); reflexivity.
Qed.

Lemma rmLogged_run site p w :
  rmLogged env site p w = (Returned (), mkWorld (redis w) (rmLog env site p ++ log w)).
Proof.
  unfold rmLogged, catchWith, perform, consoleError, perform, rmLog, record_event.
  destruct (rmFault env site); reflexivity.
Qed.

Lemma cleanup_run job w :
  cleanup env job w = (Returned (), mkWorld (redis w) (cleanupLog env job ++ log w)).
Proof.
  unfold cleanup, mbind, Async_bind. rewrite !rmLogged_run. cbn [redis log].
  unfold cleanupLog. rewrite <- !app_assoc. reflexivity.
Qed.

(** [processJob] is its guarded part followed by the cleanup, unless the
    process ends in the guarded part. *)
Lemma processJob_run job w0 :
  processJob env job w0
  = match tryCatch (tryBody env job) (catchHandler env job) w0 with
    | (Exited e, w1) => (Exited e, w1)
    | (r, w1) => (r, mkWorld (redis w1) (cleanupLog env job ++ log w1))
    end.
Proof.
  unfold processJob, finally.
  destruct (tryCatch (tryBody env job) (catchHandler env job) w0) as [[[]|e|e] w1];
    rewrite ?cleanup_run; reflexivity.
Qed.

Lemma tryCatch_threw job w0 e w1 :
  tryBody env job w0 = (Threw e, w1) ->
  tryCatch (tryBody env job) (catchHandler env job) w0 = catchHandler env job e w1.
Proof. intros H. unfold tryCatch. rewrite H. reflexivity. Qed.

(** The handler writes and returns or throws; the process does not end in
    it. *)
Lemma catchHandler_run job e w1 :
  catchHandler env job e w1
  = (match hsetFault env WError with Some e' => Threw e' | None => Returned () end,
     snd (catchHandler env job e w1)).
Proof. unfold catchHandler, hset. destruct (hsetFault env WError); reflexivity. Qed.

(** A run whose [try] block throws: the handler, then the cleanup. *)
Lemma processJob_caught job w0 e w1 :
  tryBody env job w0 = (Threw e, w1) ->
  processJob env job w0
  = (fst (catchHandler env job e w1),
     mkWorld (redis (snd (catchHandler env job e w1)))
             (cleanupLog env job ++ log (snd (catchHandler env job e w1)))).
Proof.
  intros H. rewrite processJob_run, (tryCatch_threw _ _ _ _ H).
  rewrite catchHandler_run. cbn [fst snd].
  destruct (hsetFault env WError); reflexivity.
Qed.

(** A run whose [try] block returns: the cleanup follows. *)
Lemma processJob_returned job w0 w1 :
  tryBody env job w0 = (Returned (), w1) ->
  processJob env job w0
  = (Returned (), mkWorld (redis w1) (cleanupLog env job ++ log w1)).
Proof. intros H. rewrite processJob_run. unfold tryCatch. rewrite H. reflexivity. Qed.

(** A run in whose [try] block the process ends: nothing follows. *)
Lemma processJob_exited job w0 e w1 :
  tryBody env job w0 = (Exited e, w1) ->
  processJob env job w0 = (Exited e, w1).
Proof. intros H. rewrite processJob_run. unfold tryCatch. rewrite H. reflexivity. Qed.

End Steps.

(** ** Reading fields after a write *)

Lemma field_upsert_other vid f fields db l l' :
  f ∉ fields.*1 ->
  field vid f (mkWorld (upsert (statusKey vid) fields db) l) = field vid f (mkWorld db l').
Proof.
  intros Hf. unfold field, statusRecord, upsert. cbn [redis].
  rewrite lookup_insert_eq. cbn [default from_option id].
  rewrite lookup_union_r; [reflexivity|].
  apply not_elem_of_list_to_map_1, Hf.
Qed.

Lemma field_upsert_set vid f v fields db l :
  NoDup fields.*1 -> (f, v) ∈ fields ->
  field vid f (mkWorld (upsert (statusKey vid) fields db) l) = Some v.
Proof.
  intros Hnd Hf. unfold field, statusRecord, upsert. cbn [redis].
  rewrite lookup_insert_eq. cbn [default from_option id].
  apply lookup_union_Some_l, elem_of_list_to_map_1; assumption.
Qed.

(** ** The job runner: cleanup *)

(** However the guarded part of [processJob] ends, as long as the process
    is alive at its end (success, a failure that the handler recorded, or a
    failure of the handler itself), the three removals (output directory,
    input directory, [/tmp/<videoId>]) are then issued; every removal that
    fails is followed by a [console.error] of its exception; the cleanup
    never throws, so the completion of [processJob] is the completion of the
    guarded part. *)
Lemma cleanup_when_alive (env : Env) (job : JobData) (w0 : World) :
  (forall e, fst (tryCatch (tryBody env job) (catchHandler env job) w0) <> Exited e) ->
  processJob env job w0
  = (fst (tryCatch (tryBody env job) (catchHandler env job) w0),
     mkWorld (redis (snd (tryCatch (tryBody env job) (catchHandler env job) w0)))
             (cleanupLog env job
              ++ log (snd (tryCatch (tryBody env job) (catchHandler env job) w0))))
  /\ (forall w, fst (cleanup env job w) = Returned ())
  /\ mkEvent (Rm (uploadDir job)) (rmFault env RmUploadDir) ∈ cleanupLog env job
  /\ mkEvent (Rm (inputDir job)) (rmFault env RmInputDir) ∈ cleanupLog env job
  /\ mkEvent (Rm ("/tmp/" +:+ videoId job)) (rmFault env RmTempRoot) ∈ cleanupLog env job
  /\ (forall ev e, ev ∈ cleanupLog env job -> fault ev = Some e ->
        mkEvent (ConsoleError e) None ∈ cleanupLog env job).
Proof.
  intros Halive. split.
  { rewrite processJob_run.
    destruct (tryCatch (tryBody env job) (catchHandler env job) w0) as [[[]|e|e] w1];
      [reflexivity|reflexivity|destruct (Halive e eq_refl)]. }
  split; [intros w; rewrite cleanup_run; reflexivity|].
  unfold cleanupLog, rmLog, tempRoot.
  destruct (rmFault env RmUploadDir), (rmFault env RmInputDir), (rmFault env RmTempRoot).
  all: repeat split; try pick.
  all: intros ev e Hev Hf; cbn [app] in Hev;
       repeat (apply elem_of_cons in Hev as [->|Hev]);
       try (apply elem_of_nil in Hev; contradiction);
       cbn [fault] in Hf; try discriminate;
       injection Hf as <-; pick.
Qed.

(** ** The job runner: failures *)

Ltac nodup := apply (bool_decide_unpack _); vm_compute; exact I.

Lemma catchHandler_accepted env job err w :
  hsetFault env WError = None ->
  catchHandler env job err w
  = (Returned (),
     mkWorld (upsert (statusKey (videoId job))
                [("status", statusError); ("error", messageOf err)] (redis w))
             (errorWrite env job err :: log w)).
Proof.
  intros H. unfold catchHandler, errorWrite. rewrite H. apply hset_accepted, H.
Qed.

Lemma catchHandler_log env job err w :
  log (snd (catchHandler env job err w)) = errorWrite env job err :: log w.
Proof.
  unfold catchHandler, errorWrite, hset.
  destruct (hsetFault env WError); reflexivity.
Qed.

(** Only a fault of the store at the error write makes [processJob] reject,
    and then with the exception of the store. *)
Lemma processJob_rejects_only_on_store_fault env job w0 e :
  fst (processJob env job w0) = Threw e -> hsetFault env WError = Some e.
Proof.
  rewrite processJob_run. unfold tryCatch.
  destruct (tryBody env job w0) as [[[]|e0|e0] w1]; cbn [fst]; [discriminate| |discriminate].
  rewrite catchHandler_run.
  destruct (hsetFault env WError); cbn [fst]; congruence.
Qed.

(** A failure of the [try] block that the store lets the handler record. *)
Lemma processJob_handled env job w0 w1 e :
  tryBody env job w0 = (Threw e, w1) ->
  hsetFault env WError = None ->
  processJob env job w0
  = (Returned (),
     mkWorld (upsert (statusKey (videoId job))
                [("status", statusError); ("error", messageOf e)] (redis w1))
             (cleanupLog env job ++ errorWrite env job e :: log w1)).
Proof.
  intros Hbody Hstore.
  rewrite (processJob_caught _ _ _ _ _ Hbody), (catchHandler_accepted _ _ _ _ Hstore).
  reflexivity.
Qed.

Lemma handled_status vid m db l :
  field vid "status"
    (mkWorld (upsert (statusKey vid) [("status", statusError); ("error", m)] db) l)
  = Some "error".
Proof. apply field_upsert_set; [nodup|pick]. Qed.

Lemma handled_error vid m db l :
  field vid "error"
    (mkWorld (upsert (statusKey vid) [("status", statusError); ("error", m)] db) l)
  = Some m.
Proof. apply field_upsert_set; [nodup|pick]. Qed.

Lemma cleanupLog_no_mkdir env job :
  Forall (fun ev => isMkdir ev = false) (cleanupLog env job).
Proof.
  unfold cleanupLog, rmLog.
  destruct (rmFault env RmUploadDir), (rmFault env RmInputDir), (rmFault env RmTempRoot);
    repeat constructor.
Qed.

(** Whatever the [try] block throws, and wherever, the handler records it:
    once the store has taken the write, the status is [error] and the error
    field holds the message of the exception ([err.message] for an [Error]);
    [processJob] itself returns.  This covers the exceptions that reach the
    [catch] clause; a rejection of a worker promise that has no handler does
    not reach it. *)
Lemma failure_recorded (env : Env) (job : JobData) (w0 w1 : World) (e : Thrown) :
  tryBody env job w0 = (Threw e, w1) ->
  hsetFault env WError = None ->
  fst (processJob env job w0) = Returned ()
  /\ field (videoId job) "status" (snd (processJob env job w0)) = Some "error"
  /\ field (videoId job) "error" (snd (processJob env job w0)) = Some (messageOf e)
  /\ (forall m, e = ErrorObj m ->
        field (videoId job) "error" (snd (processJob env job w0)) = Some m)
  /\ log (snd (processJob env job w0))
     = cleanupLog env job ++ errorWrite env job e :: log w1.
Proof.
  intros Hbody Hstore.
  rewrite (processJob_handled _ _ _ _ _ Hbody Hstore). cbn [fst snd log].
  repeat split.
  - apply handled_status.
  - apply handled_error.
  - intros m ->. apply handled_error.
Qed.

Lemma failure_recorded_witness :
  tryBody (ffmpegDown (1280, 720)%Z) sampleJob sampleStart
  = (Threw (ErrorObj "FFmpeg worker exited with code 1"),
     snd (tryBody (ffmpegDown (1280, 720)%Z) sampleJob sampleStart))
  /\ hsetFault (ffmpegDown (1280, 720)%Z) WError = None
  /\ fst (processJob (ffmpegDown (1280, 720)%Z) sampleJob sampleStart) = Returned ()
  /\ field "vid" "status" (snd (processJob (ffmpegDown (1280, 720)%Z) sampleJob sampleStart))
     = Some "error"
  /\ field "vid" "error" (snd (processJob (ffmpegDown (1280, 720)%Z) sampleJob sampleStart))
     = Some "FFmpeg worker exited with code 1".
Proof.
  assert (H : tryBody (ffmpegDown (1280, 720)%Z) sampleJob sampleStart
              = (Threw (ErrorObj "FFmpeg worker exited with code 1"),
                 snd (tryBody (ffmpegDown (1280, 720)%Z) sampleJob sampleStart)))
    by (vm_compute; reflexivity).
  split; [exact H|]. split; [reflexivity|].
  destruct (failure_recorded _ _ _ _ _ H eq_refl) as (H1 & H2 & H3 & _).
  exact (conj H1 (conj H2 H3)).
Defined.

(** ** The job runner: the two resolution checks *)

Lemma tryBody_portrait env job w0 (w h : Z) :
  hsetFault env WChecking = None ->
  ffprobe env (inputFilePath job) = Returned (w, h) ->
  (h > w)%Z ->
  tryBody env job w0 = (Threw (ErrorObj aspectMessage), probedWorld job w0).
Proof.
  intros Hc Hp Hgt.
  unfold tryBody, mbind, Async_bind, getVideoResolution, request.
  rewrite (hset_accepted _ _ _ _ _ Hc), Hp.
  rewrite (bool_decide_eq_true_2 _ Hgt). reflexivity.
Qed.

Lemma tryBody_too_low env job w0 (w h : Z) :
  hsetFault env WChecking = None ->
  ffprobe env (inputFilePath job) = Returned (w, h) ->
  (h <= w)%Z -> (Z.min w h < 360)%Z ->
  tryBody env job w0 = (Threw (ErrorObj (tooLowMessage w h)), probedWorld job w0).
Proof.
  intros Hc Hp Hle Hmin.
  unfold tryBody, mbind, Async_bind, getVideoResolution, request.
  rewrite (hset_accepted _ _ _ _ _ Hc), Hp.
  rewrite bool_decide_eq_false_2 by lia.
  unfold mret, Async_ret.
  rewrite bool_decide_eq_true_2 by lia. reflexivity.
Qed.

Lemma rejected_before_mkdir env job w0 e :
  loggedSince (fun ev => isMkdir ev = false) w0
    (mkWorld
       (upsert (statusKey (videoId job))
          [("status", statusError); ("error", messageOf e)] (redis (probedWorld job w0)))
       (cleanupLog env job ++ errorWrite env job e :: log (probedWorld job w0))).
Proof.
  exists (cleanupLog env job
          ++ [errorWrite env job e; mkEvent (Ffprobe (inputFilePath job)) None;
              mkEvent (Hset (statusKey (videoId job))
                         [("status", "checking video resolutions"); ("progress", "5")])
                      None]).
  split.
  - cbn [log probedWorld]. rewrite <- app_assoc. reflexivity.
  - apply Forall_app. split; [apply cleanupLog_no_mkdir|].
    repeat constructor.
Qed.

(** C6: a source that is taller than wide ends in status [error] with the
    aspect-ratio message, and no [mkdir] is issued during the run. *)
Theorem portrait_rejected (env : Env) (job : JobData) (w0 : World) (w h : Z) :
  hsetFault env WChecking = None ->
  ffprobe env (inputFilePath job) = Returned (w, h) ->
  (h > w)%Z ->
  hsetFault env WError = None ->
  fst (processJob env job w0) = Returned ()
  /\ field (videoId job) "status" (snd (processJob env job w0)) = Some "error"
  /\ field (videoId job) "error" (snd (processJob env job w0))
     = Some "Aspect ratio should be landscape"
  /\ loggedSince (fun ev => isMkdir ev = false) w0 (snd (processJob env job w0)).
Proof.
  intros Hc Hp Hgt He.
  rewrite (processJob_handled _ _ _ _ _ (tryBody_portrait _ _ _ _ _ Hc Hp Hgt) He).
  cbn [fst snd]. repeat split.
  - apply handled_status.
  - apply handled_error.
  - apply rejected_before_mkdir.
Qed.

Lemma portrait_rejected_witness :
  hsetFault (calm (600, 800)%Z) WChecking = None
  /\ ffprobe (calm (600, 800)%Z) (inputFilePath sampleJob) = Returned (600, 800)%Z
  /\ (800 > 600)%Z
  /\ hsetFault (calm (600, 800)%Z) WError = None
  /\ field "vid" "status" (snd (processJob (calm (600, 800)%Z) sampleJob sampleStart))
     = Some "error"
  /\ field "vid" "error" (snd (processJob (calm (600, 800)%Z) sampleJob sampleStart))
     = Some "Aspect ratio should be landscape".
Proof.
  destruct (portrait_rejected (calm (600, 800)%Z) sampleJob sampleStart 600 800
              eq_refl eq_refl ltac:(lia) eq_refl) as (_ & H2 & H3 & _).
  repeat split; first [exact H2 | exact H3 | reflexivity | lia].
Defined.

(** C7 does not hold as worded: a portrait source of 200x300 is below
    360 on its short side, yet the message is the aspect-ratio one, because
    the orientation is checked first. *)
Lemma lowres_portrait_counterexample :
  (Z.min 200 300 < 360)%Z
  /\ field "vid" "status" (snd (processJob (calm (200, 300)%Z) sampleJob sampleStart))
     = Some "error"
  /\ field "vid" "error" (snd (processJob (calm (200, 300)%Z) sampleJob sampleStart))
     = Some "Aspect ratio should be landscape"
  /\ indicatesTooLow "Aspect ratio should be landscape" = false.
Proof. split; [lia|]. vm_compute. repeat split. Qed.

(** C7, amended: a source whose short side is below 360 ends in status
    [error] and no [mkdir] is issued; the message is the too-low one when the
    source is not taller than wide, and the aspect-ratio one otherwise. *)
Theorem low_resolution_rejected (env : Env) (job : JobData) (w0 : World) (w h : Z) :
  hsetFault env WChecking = None ->
  ffprobe env (inputFilePath job) = Returned (w, h) ->
  (Z.min w h < 360)%Z ->
  hsetFault env WError = None ->
  fst (processJob env job w0) = Returned ()
  /\ field (videoId job) "status" (snd (processJob env job w0)) = Some "error"
  /\ loggedSince (fun ev => isMkdir ev = false) w0 (snd (processJob env job w0))
  /\ ((h <= w)%Z ->
      field (videoId job) "error" (snd (processJob env job w0)) = Some (tooLowMessage w h)
      /\ indicatesTooLow (tooLowMessage w h) = true)
  /\ ((h > w)%Z ->
      field (videoId job) "error" (snd (processJob env job w0)) = Some aspectMessage).
Proof.
  intros Hc Hp Hmin He.
  destruct (decide (h > w)%Z) as [Hgt|Hle].
  - rewrite (processJob_handled _ _ _ _ _ (tryBody_portrait _ _ _ _ _ Hc Hp Hgt) He).
    cbn [fst snd].
    split; [reflexivity|]. split; [apply handled_status|].
    split; [apply rejected_before_mkdir|].
    split; [lia|]. intros _. apply handled_error.
  - assert (Hle' : (h <= w)%Z) by lia.
    rewrite (processJob_handled _ _ _ _ _
               (tryBody_too_low _ _ _ _ _ Hc Hp Hle' Hmin) He).
    cbn [fst snd].
    split; [reflexivity|]. split; [apply handled_status|].
    split; [apply rejected_before_mkdir|].
    split; [|lia]. intros _. split; [apply handled_error|reflexivity].
Qed.

Lemma low_resolution_rejected_witness :
  hsetFault (calm (480, 270)%Z) WChecking = None
  /\ ffprobe (calm (480, 270)%Z) (inputFilePath sampleJob) = Returned (480, 270)%Z
  /\ (Z.min 480 270 < 360)%Z
  /\ hsetFault (calm (480, 270)%Z) WError = None
  /\ field "vid" "status" (snd (processJob (calm (480, 270)%Z) sampleJob sampleStart))
     = Some "error"
  /\ field "vid" "error" (snd (processJob (calm (480, 270)%Z) sampleJob sampleStart))
     = Some "Video resolution too low: 480x270".
Proof.
  destruct (low_resolution_rejected (calm (480, 270)%Z) sampleJob sampleStart
              480 270 eq_refl eq_refl ltac:(lia) eq_refl) as (_ & H2 & _ & H4 & _).
  destruct H4 as [H4 _]; [lia|].
  repeat split; first [exact H2 | exact H4 | reflexivity | lia].
Defined.

(** ** Invariants of the [try] block *)

Section Stages.

Variable env : Env.
Variable job : JobData.

(** [Inv i] holds once [i] milestone writes went through; every other step
    keeps it, the milestone write number [i] moves it to [Inv (S i)], and the
    last write establishes [Q]. *)
Variable Inv : nat -> World -> Prop.
Variable Q : World -> Prop.

Hypothesis Inv_event :
  forall i w c f, notHset c -> Inv i w -> Inv i (record_event (mkEvent c f) w).
Hypothesis Inv_rejected :
  forall i w fs e, tryWrite fs -> Inv i w ->
    Inv i (record_event (mkEvent (Hset (statusKey (videoId job)) fs) (Some e)) w).
Hypothesis Inv_milestone :
  forall i w s p, milestones !! i = Some (s, p) -> Inv i w ->
    Inv (S i)
      (mkWorld (upsert (statusKey (videoId job)) (milestoneFields s p) (redis w))
               (mkEvent (Hset (statusKey (videoId job)) (milestoneFields s p)) None :: log w)).
Hypothesis Q_completed :
  forall w m u, Inv 4 w ->
    Q (mkWorld (upsert (statusKey (videoId job)) (completedFields m u) (redis w))
               (mkEvent (Hset (statusKey (videoId job)) (completedFields m u)) None :: log w)).

Lemma stage_perform i c f :
  i <= 4 -> notHset c ->
  triple (Inv i) (perform c f) (fun _ => Inv i) (fun _ => stopped Inv).
Proof.
  intros Hi Hc w Hw. unfold perform.
  destruct f; [exists i; split; [exact Hi|]|]; apply Inv_event; assumption.
Qed.

Lemma stage_request {A : Type} i c (o : Outcome A) :
  i <= 4 -> notHset c ->
  triple (Inv i) (request c o) (fun _ => Inv i) (fun _ => stopped Inv).
Proof.
  intros Hi Hc w Hw. unfold request.
  destruct o; [|exists i; split; [exact Hi|]|exists i; split; [exact Hi|]];
    apply Inv_event; assumption.
Qed.

Lemma stage_mkdirAll i dirs :
  i <= 4 -> triple (Inv i) (mkdirAll env dirs) (fun _ => Inv i) (fun _ => stopped Inv).
Proof.
  intros Hi.
  assert (H : forall w, Inv i w -> Inv i (snd (mkdirAll env dirs w))).
  { induction dirs as [|d rest IH]; intros w Hw; cbn [mkdirAll]; [exact Hw|].
    specialize (IH (record_event (mkEvent (Mkdir d) (mkdirFault env d)) w)
                   (Inv_event i w (Mkdir d) (mkdirFault env d) I Hw)).
    destruct (mkdirAll env rest _) as [r w1]. exact IH. }
  intros w Hw. specialize (H w Hw).
  destruct (mkdirAll env dirs w) as [[[]|e|e] w1]; [exact H| |];
    (exists i; split; [exact Hi|exact H]).
Qed.

Lemma stage_awaitFFmpeg i :
  i <= 4 -> triple (Inv i) (awaitFFmpeg env) (fun _ => Inv i) (fun _ => stopped Inv).
Proof.
  intros Hi w Hw. unfold awaitFFmpeg.
  destruct (unhandledRejection env DuringTranscode [UploadPromise]).
  - exists i. split; [exact Hi|exact Hw].
  - apply (stage_perform i AwaitFFmpeg (ffmpegWorker env) Hi I w Hw).
Qed.

Lemma stage_milestone i site s p :
  milestones !! i = Some (s, p) ->
  triple (Inv i)
    (hset env site (statusKey (videoId job)) [("status", s); ("progress", p)])
    (fun _ => Inv (S i)) (fun _ => stopped Inv).
Proof.
  intros Hm w Hw. unfold hset. destruct (hsetFault env site).
  - exists i. split.
    + apply lookup_lt_Some in Hm. cbn in Hm. lia.
    + apply Inv_rejected; [left; exists s, p; split; [|reflexivity]|exact Hw].
      apply list_elem_of_lookup. exists i. exact Hm.
  - apply (Inv_milestone i w s p Hm Hw).
Qed.

Lemma stage_guard i (c : bool) e :
  i <= 4 ->
  triple (Inv i) (if c then throw e else mret ()) (fun _ => Inv i) (fun _ => stopped Inv).
Proof.
  intros Hi w Hw. destruct c; [exists i; split; [exact Hi|exact Hw]|exact Hw].
Qed.

Lemma tryBody_stages :
  triple (Inv 0) (tryBody env job) (fun _ => Q) (fun _ => stopped Inv).
Proof.
  unfold tryBody.
  eapply triple_bind; [apply (stage_milestone 0); reflexivity|intros []].
  eapply triple_bind; [apply (stage_request (A := Z * Z) 1); [lia|exact I]|intros [pw ph]].
  eapply triple_bind; [apply (stage_guard 1); lia|intros []].
  eapply triple_bind; [apply (stage_guard 1); lia|intros []].
  eapply triple_bind; [apply (stage_mkdirAll 1); lia|intros []].
  eapply triple_bind; [apply (stage_perform 1); [lia|exact I]|intros []].
  eapply triple_bind; [apply (stage_perform 1); [lia|exact I]|intros []].
  eapply triple_bind;
    [apply triple_exposed;
       [apply (stage_milestone 1); reflexivity|intros a w Hw; exists 2; split; [lia|exact Hw]]
    |intros []].
  eapply triple_bind; [apply (stage_awaitFFmpeg 2); lia|intros []].
  eapply triple_bind; [apply (stage_request (A := Urls) 2); [lia|exact I]|intros urls].
  eapply triple_bind; [apply (stage_milestone 2); reflexivity|intros []].
  eapply triple_bind; [apply (stage_perform 3); [lia|exact I]|intros []].
  eapply triple_bind; [apply (stage_milestone 3); reflexivity|intros []].
  eapply triple_bind; [apply (stage_request (A := string) 4); [lia|exact I]|intros masterUrl].
  intros w Hw. unfold hset. destruct (hsetFault env WCompleted).
  - exists 4. split; [lia|].
    apply Inv_rejected; [right; eexists _, _; reflexivity|exact Hw].
  - apply (Q_completed w masterUrl (JSON_stringify env urls) Hw).
Qed.

End Stages.

(** The same for an invariant that does not depend on the stage. *)
Lemma tryBody_invariant (env : Env) (job : JobData) (Inv Q : World -> Prop) :
  (forall w c f, notHset c -> Inv w -> Inv (record_event (mkEvent c f) w)) ->
  (forall w fs e, tryWrite fs -> Inv w ->
     Inv (record_event (mkEvent (Hset (statusKey (videoId job)) fs) (Some e)) w)) ->
  (forall w s p, (s, p) ∈ milestones -> Inv w ->
     Inv (mkWorld (upsert (statusKey (videoId job)) (milestoneFields s p) (redis w))
           (mkEvent (Hset (statusKey (videoId job)) (milestoneFields s p)) None :: log w))) ->
  (forall w m u, Inv w ->
     Q (mkWorld (upsert (statusKey (videoId job)) (completedFields m u) (redis w))
          (mkEvent (Hset (statusKey (videoId job)) (completedFields m u)) None :: log w))) ->
  triple Inv (tryBody env job) (fun _ => Q) (fun _ => Inv).
Proof.
  intros Hev Hrej Hms Hq.
  eapply triple_conseq.
  - apply (tryBody_stages env job (fun _ => Inv) Q).
    + intros _. exact Hev.
    + intros _. exact Hrej.
    + intros i w s p Hi. apply Hms. apply list_elem_of_lookup. exists i. exact Hi.
    + exact Hq.
  - auto.
  - auto.
  - intros e w (i & _ & Hw). exact Hw.
Qed.

(** ** The error write and the rest of the record *)

Lemma field_milestone_progress vid s p db l :
  field vid "progress" (mkWorld (upsert (statusKey vid) (milestoneFields s p) db) l) = Some p.
Proof. apply field_upsert_set; [nodup|pick]. Qed.

Lemma field_milestone_status vid s p db l :
  field vid "status" (mkWorld (upsert (statusKey vid) (milestoneFields s p) db) l) = Some s.
Proof. apply field_upsert_set; [nodup|pick]. Qed.

(** Where the [try] block throws, the progress is the one the record had at
    the start or the one of a milestone before the last: 5 or 20. *)
Lemma thrown_progress env job w0 w1 e :
  tryBody env job w0 = (Threw e, w1) ->
  field (videoId job) "progress" w1 = field (videoId job) "progress" w0
  \/ field (videoId job) "progress" w1 = Some "5"
  \/ field (videoId job) "progress" w1 = Some "20".
Proof.
  intros Hbody.
  set (Inv := fun w : World =>
        field (videoId job) "progress" w = field (videoId job) "progress" w0
        \/ field (videoId job) "progress" w = Some "5"
        \/ field (videoId job) "progress" w = Some "20").
  assert (H : triple Inv (tryBody env job) (fun _ _ => True) (fun _ => Inv)).
  { apply tryBody_invariant.
    - intros w c f _ Hw. exact Hw.
    - intros w fs e0 _ Hw. exact Hw.
    - intros w s p Hsp _. unfold Inv. rewrite field_milestone_progress.
      unfold milestones in Hsp.
      repeat (apply elem_of_cons in Hsp as [Hsp|Hsp]);
        try (apply elem_of_nil in Hsp; contradiction);
        injection Hsp as -> ->; auto.
    - intros; exact I. }
  specialize (H w0 (or_introl eq_refl)). rewrite Hbody in H. exact H.
Qed.

(** C10: the write of the [catch] clause names the fields [status] and
    [error] only.  After a failed run every other field of the record, the
    progress among them, and every other key of the store are as the [try]
    block left them, so the progress is that of the last milestone reached
    (5 or 20, or the value the record had at the start). *)
Theorem error_write_frame (env : Env) (job : JobData) (w0 w1 : World) (e : Thrown) :
  tryBody env job w0 = (Threw e, w1) ->
  (fieldsOf (errorWrite env job e)).*1 = ["status"; "error"]
  /\ log (snd (processJob env job w0))
     = cleanupLog env job ++ errorWrite env job e :: log w1
  /\ (forall f, f <> "status" -> f <> "error" ->
        field (videoId job) f (snd (processJob env job w0)) = field (videoId job) f w1)
  /\ field (videoId job) "progress" (snd (processJob env job w0))
     = field (videoId job) "progress" w1
  /\ (field (videoId job) "progress" w1 = field (videoId job) "progress" w0
      \/ field (videoId job) "progress" w1 = Some "5"
      \/ field (videoId job) "progress" w1 = Some "20")
  /\ (forall k, k <> statusKey (videoId job) ->
        redis (snd (processJob env job w0)) !! k = redis w1 !! k).
Proof.
  intros Hbody.
  assert (Hframe : forall f, f <> "status" -> f <> "error" ->
            field (videoId job) f (snd (processJob env job w0)) = field (videoId job) f w1).
  { intros f Hs He.
    rewrite (processJob_caught _ _ _ _ _ Hbody). cbn [snd].
    unfold catchHandler, hset. destruct (hsetFault env WError); cbn [snd redis].
    - destruct w1; reflexivity.
    - rewrite (field_upsert_other _ _ _ _ _ (log w1)); [destruct w1; reflexivity|].
      cbn. rewrite !not_elem_of_cons. repeat split; auto using not_elem_of_nil. }
  split; [reflexivity|].
  split.
  { rewrite (processJob_caught _ _ _ _ _ Hbody). cbn [snd log].
    rewrite catchHandler_log. reflexivity. }
  split; [exact Hframe|].
  split; [apply Hframe; discriminate|].
  split; [exact (thrown_progress _ _ _ _ _ Hbody)|].
  intros k Hk.
  rewrite (processJob_caught _ _ _ _ _ Hbody). cbn [snd redis].
  unfold catchHandler, hset. destruct (hsetFault env WError); cbn [snd redis]; [reflexivity|].
  unfold upsert. apply lookup_insert_ne. congruence.
Qed.

Lemma error_write_frame_witness :
  tryBody (ffmpegDown (1280, 720)%Z) sampleJob sampleStart
  = (Threw (ErrorObj "FFmpeg worker exited with code 1"),
     snd (tryBody (ffmpegDown (1280, 720)%Z) sampleJob sampleStart))
  /\ field "vid" "progress" (snd (processJob (ffmpegDown (1280, 720)%Z) sampleJob sampleStart))
     = field "vid" "progress" (snd (tryBody (ffmpegDown (1280, 720)%Z) sampleJob sampleStart))
  /\ field "vid" "progress" (snd (tryBody (ffmpegDown (1280, 720)%Z) sampleJob sampleStart))
     = Some "20".
Proof.
  assert (H : tryBody (ffmpegDown (1280, 720)%Z) sampleJob sampleStart
              = (Threw (ErrorObj "FFmpeg worker exited with code 1"),
                 snd (tryBody (ffmpegDown (1280, 720)%Z) sampleJob sampleStart)))
    by (vm_compute; reflexivity).
  destruct (error_write_frame _ _ _ _ _ H) as (_ & _ & _ & H4 & _).
  split; [exact H|]. split; [exact H4|]. vm_compute. reflexivity.
Defined.

(** ** The result fields and the completed status *)

Lemma loggedSince_refl ok w : loggedSince ok w w.
Proof. exists []. split; [reflexivity|constructor]. Qed.

Lemma loggedSince_cons (ok : Event -> Prop) base w ev db :
  ok ev -> loggedSince ok base w -> loggedSince ok base (mkWorld db (ev :: log w)).
Proof.
  intros Hev (evs & Hlog & Hok). exists (ev :: evs). split.
  - cbn [log]. rewrite Hlog. reflexivity.
  - constructor; assumption.
Qed.

Lemma loggedSince_app (ok : Event -> Prop) base w evs db :
  Forall ok evs -> loggedSince ok base w -> loggedSince ok base (mkWorld db (evs ++ log w)).
Proof.
  intros Hevs (evs0 & Hlog & Hok). exists (evs ++ evs0). split.
  - cbn [log]. rewrite Hlog, app_assoc. reflexivity.
  - apply Forall_app. split; assumption.
Qed.

Lemma coherent_notHset c f : notHset c -> coherentWrite (mkEvent c f).
Proof.
  intros Hc. destruct c; try contradiction; split; cbn; intros H;
    first [discriminate | destruct H; discriminate].
Qed.

Lemma coherent_milestone k s p f :
  (s, p) ∈ milestones -> coherentWrite (mkEvent (Hset k (milestoneFields s p)) f).
Proof.
  intros Hsp. unfold milestones in Hsp.
  repeat (apply elem_of_cons in Hsp as [Hsp|Hsp]);
    try (apply elem_of_nil in Hsp; contradiction);
    injection Hsp as -> ->; split; cbn; intros H;
    first [discriminate | destruct H; discriminate].
Qed.

Lemma coherent_completed k m u f :
  coherentWrite (mkEvent (Hset k (completedFields m u)) f).
Proof.
  assert (Hs : setsStatus "completed" (mkEvent (Hset k (completedFields m u)) f) = true)
    by (apply bool_decide_eq_true_2; cbn; pick).
  split; [|intros _; exact Hs].
  intros _. split; apply bool_decide_eq_true_2; cbn; pick.
Qed.

Lemma status_error_not_completed m :
  ("status", "completed") ∉ [("status", statusError); ("error", m)].
Proof.
  rewrite !not_elem_of_cons. repeat split; try discriminate. apply not_elem_of_nil.
Qed.

Lemma coherent_errorWrite env job e : coherentWrite (errorWrite env job e).
Proof.
  split; intros H.
  - apply bool_decide_eq_true_1 in H. cbn in H.
    destruct (status_error_not_completed _ H).
  - destruct H as [H|H]; discriminate.
Qed.

Lemma cleanupLog_coherent env job : Forall coherentWrite (cleanupLog env job).
Proof.
  unfold cleanupLog, rmLog.
  destruct (rmFault env RmUploadDir), (rmFault env RmInputDir), (rmFault env RmTempRoot);
    cbn [app];
    repeat (apply Forall_cons_2; [apply coherent_notHset; exact I|]);
    apply Forall_nil_2.
Qed.

(** Every write of the job runner sets the result fields exactly when it
    sets the status [completed]. *)
Lemma processJob_writes_coherent env job w0 :
  loggedSince coherentWrite w0 (snd (processJob env job w0)).
Proof.
  assert (H : triple (loggedSince coherentWrite w0)
                (tryCatch (tryBody env job) (catchHandler env job))
                (fun _ => loggedSince coherentWrite w0)
                (fun _ => loggedSince coherentWrite w0)).
  { eapply triple_tryCatch.
    - apply tryBody_invariant.
      + intros w c f Hc Hw. apply loggedSince_cons; [apply coherent_notHset, Hc|exact Hw].
      + intros w fs e [(s & p & Hsp & ->)|(m & u & ->)] Hw;
          (apply loggedSince_cons; [|exact Hw]).
        * apply coherent_milestone, Hsp.
        * apply coherent_completed.
      + intros w s p Hsp Hw.
        apply loggedSince_cons; [apply coherent_milestone, Hsp|exact Hw].
      + intros w m u Hw. apply loggedSince_cons; [apply coherent_completed|exact Hw].
    - intros e w Hw. unfold catchHandler, hset.
      pose proof (coherent_errorWrite env job e) as Hc. unfold errorWrite in Hc.
      destruct (hsetFault env WError); apply loggedSince_cons; assumption.
    - intros e w Hw. exact Hw. }
  specialize (H w0 (loggedSince_refl _ _)).
  rewrite processJob_run.
  destruct (tryCatch (tryBody env job) (catchHandler env job) w0) as [[[]|e|e] w1];
    cbn [snd]; try exact H;
    (apply loggedSince_app; [apply cleanupLog_coherent|exact H]).
Qed.

Lemma pending_milestone vid s p db l l' :
  (s, p) ∈ milestones ->
  pending vid (mkWorld db l) ->
  pending vid (mkWorld (upsert (statusKey vid) (milestoneFields s p) db) l').
Proof.
  intros Hsp (_ & Hm & Hu). unfold pending.
  rewrite field_milestone_status.
  rewrite !(field_upsert_other _ _ _ _ _ l)
    by (cbn; rewrite !not_elem_of_cons; repeat split;
        first [discriminate | apply not_elem_of_nil]).
  repeat split; try assumption.
  unfold milestones in Hsp.
  repeat (apply elem_of_cons in Hsp as [Hsp|Hsp]);
    try (apply elem_of_nil in Hsp; contradiction);
    injection Hsp as -> ->; discriminate.
Qed.

Lemma delivered_completed vid m u db l :
  delivered vid (mkWorld (upsert (statusKey vid) (completedFields m u) db) l).
Proof.
  unfold delivered.
  rewrite (field_upsert_set vid "status" statusCompleted),
          (field_upsert_set vid "masterUrl" m),
          (field_upsert_set vid "urls" u)
    by first [nodup | pick].
  repeat split; eexists; reflexivity.
Qed.

Lemma pending_error vid m db l l' :
  pending vid (mkWorld db l) ->
  pending vid (mkWorld (upsert (statusKey vid) [("status", statusError); ("error", m)] db) l').
Proof.
  intros (_ & Hm & Hu). unfold pending.
  rewrite handled_status.
  rewrite !(field_upsert_other _ _ _ _ _ l)
    by (cbn; rewrite !not_elem_of_cons; repeat split;
        first [discriminate | apply not_elem_of_nil]).
  repeat split; try assumption. discriminate.
Qed.

(** From a pending record the job runner leaves either a pending record or a
    delivered one. *)
Lemma processJob_pending_or_delivered env job w0 :
  pending (videoId job) w0 ->
  pending (videoId job) (snd (processJob env job w0))
  \/ delivered (videoId job) (snd (processJob env job w0)).
Proof.
  intros H0.
  assert (H : triple (pending (videoId job))
                (tryCatch (tryBody env job) (catchHandler env job))
                (fun _ w => pending (videoId job) w \/ delivered (videoId job) w)
                (fun _ w => pending (videoId job) w \/ delivered (videoId job) w)).
  { eapply triple_tryCatch.
    - apply (tryBody_invariant env job (pending (videoId job))).
      + intros w c f _ Hw. exact Hw.
      + intros w fs e _ Hw. exact Hw.
      + intros w s p Hsp Hw. destruct w as [db l].
        apply (pending_milestone _ _ _ _ l); assumption.
      + intros w m u _. right. apply delivered_completed.
    - intros e w Hw. unfold catchHandler, hset.
      destruct (hsetFault env WError); left; [exact Hw|].
      destruct w as [db l]. apply (pending_error _ _ _ l), Hw.
    - intros e w Hw. left. exact Hw. }
  specialize (H w0 H0).
  rewrite processJob_run.
  destruct (tryCatch (tryBody env job) (catchHandler env job) w0) as [[[]|e|e] [db l]];
    exact H.
Qed.

(** The record at every moment of a run. *)

Lemma always_refl base (good : World -> Prop) :
  good base -> always base good base.
Proof.
  intros Hg. exists []. split; [reflexivity|]. split; [reflexivity|].
  intros evs1 evs2 Heq. symmetry in Heq. apply app_eq_nil in Heq as [-> ->].
  destruct base; exact Hg.
Qed.

Lemma always_cons base (good : World -> Prop) w ev :
  always base good w ->
  good (mkWorld (applyEvent ev (redis w)) (ev :: log w)) ->
  always base good (mkWorld (applyEvent ev (redis w)) (ev :: log w)).
Proof.
  intros (evs & Hlog & Hdb & Hall) Hg. exists (ev :: evs).
  split; [cbn [log]; rewrite Hlog; reflexivity|].
  split; [cbn [redis replay]; rewrite Hdb; reflexivity|].
  intros evs1 evs2 Heq. destruct evs1 as [|ev1 evs1]; cbn [app] in Heq.
  - subst evs2. cbn [replay app]. rewrite <- Hdb, <- Hlog. exact Hg.
  - injection Heq as _ Heq. apply (Hall evs1 evs2 Heq).
Qed.

Lemma always_silent base (good : World -> Prop) w c f :
  notHset c ->
  always base good w ->
  good (record_event (mkEvent c f) w) ->
  always base good (record_event (mkEvent c f) w).
Proof.
  intros Hc Hw Hg.
  assert (Hid : applyEvent (mkEvent c f) (redis w) = redis w)
    by (destruct c; try contradiction; reflexivity).
  unfold record_event in *. rewrite <- Hid in *. apply always_cons; assumption.
Qed.

Lemma always_rejected base (good : World -> Prop) w k fs e :
  always base good w ->
  good (record_event (mkEvent (Hset k fs) (Some e)) w) ->
  always base good (record_event (mkEvent (Hset k fs) (Some e)) w).
Proof.
  intros Hw Hg.
  apply (always_cons base good w (mkEvent (Hset k fs) (Some e)) Hw Hg).
Qed.

Lemma always_written base (good : World -> Prop) w k fs :
  always base good w ->
  good (mkWorld (upsert k fs (redis w)) (mkEvent (Hset k fs) None :: log w)) ->
  always base good (mkWorld (upsert k fs (redis w)) (mkEvent (Hset k fs) None :: log w)).
Proof.
  intros Hw Hg.
  apply (always_cons base good w (mkEvent (Hset k fs) None) Hw Hg).
Qed.

Lemma always_cleanup base (good : World -> Prop) env job w :
  (forall l, good (mkWorld (redis w) l)) ->
  always base good w ->
  always base good (mkWorld (redis w) (cleanupLog env job ++ log w)).
Proof.
  intros Hg Hw.
  assert (Hevs : Forall (fun ev => notHset (call ev)) (cleanupLog env job)).
  { unfold cleanupLog, rmLog.
    destruct (rmFault env RmUploadDir), (rmFault env RmInputDir), (rmFault env RmTempRoot);
      cbn [app]; repeat (apply Forall_cons_2; [exact I|]); apply Forall_nil_2. }
  induction Hevs as [|[c f] evs Hc _ IH]; [destruct w; exact Hw|].
  cbn [app call] in *.
  apply (always_silent base good (mkWorld (redis w) (evs ++ log w)) c f Hc IH).
  apply Hg.
Qed.

Lemma pending_urlsIffCompleted vid w : pending vid w -> urlsIffCompleted vid w.
Proof.
  intros (Hs & Hm & Hu). unfold urlsIffCompleted. rewrite Hm, Hu.
  split; (split; [intros [x Hx]; discriminate|intros H; contradiction]).
Qed.

Lemma delivered_urlsIffCompleted vid w : delivered vid w -> urlsIffCompleted vid w.
Proof.
  intros (Hs & Hm & Hu). unfold urlsIffCompleted.
  split; (split; intros _; assumption).
Qed.

(** From a pending record, the result fields are populated exactly when the
    status is [completed] at every moment of the run of the job runner. *)
Lemma processJob_always_urlsIffCompleted env job w0 :
  pending (videoId job) w0 ->
  always w0 (urlsIffCompleted (videoId job)) (snd (processJob env job w0)).
Proof.
  intros H0.
  set (G := urlsIffCompleted (videoId job)).
  assert (H : triple (fun w => always w0 G w /\ pending (videoId job) w)
                (tryCatch (tryBody env job) (catchHandler env job))
                (fun _ w => always w0 G w) (fun _ w => always w0 G w)).
  { eapply triple_tryCatch.
    - apply (tryBody_invariant env job
               (fun w => always w0 G w /\ pending (videoId job) w)
               (fun w => always w0 G w)).
      + intros w c f Hc [Hw Hp]. split; [|exact Hp].
        apply always_silent; [exact Hc|exact Hw|].
        apply pending_urlsIffCompleted, Hp.
      + intros w fs e _ [Hw Hp]. split; [|exact Hp].
        apply always_rejected; [exact Hw|]. apply pending_urlsIffCompleted, Hp.
      + intros w s p Hsp [Hw Hp].
        assert (Hp' : pending (videoId job)
                  (mkWorld (upsert (statusKey (videoId job)) (milestoneFields s p) (redis w))
                     (mkEvent (Hset (statusKey (videoId job)) (milestoneFields s p)) None
                      :: log w)))
          by (destruct w as [db l]; apply (pending_milestone _ _ _ _ l); assumption).
        split; [|exact Hp'].
        apply always_written; [exact Hw|]. apply pending_urlsIffCompleted, Hp'.
      + intros w m u [Hw _]. apply always_written; [exact Hw|].
        apply delivered_urlsIffCompleted, delivered_completed.
    - intros e w [Hw Hp]. unfold catchHandler, hset.
      destruct (hsetFault env WError).
      + apply always_rejected; [exact Hw|]. apply pending_urlsIffCompleted, Hp.
      + apply always_written; [exact Hw|].
        apply pending_urlsIffCompleted.
        destruct w as [db l]. apply (pending_error _ _ _ l), Hp.
    - intros e w [Hw _]. exact Hw. }
  specialize (H w0 (conj (always_refl _ _ (pending_urlsIffCompleted _ _ H0)) H0)).
  rewrite processJob_run.
  destruct (tryCatch (tryBody env job) (catchHandler env job) w0) as [r w1] eqn:Hrun.
  assert (H1 : always w0 G w1) by (destruct r as [[]|e|e]; exact H).
  destruct r as [[]|e|e]; cbn [snd]; try exact H1;
    (apply always_cleanup; [|exact H1];
     intros l; destruct H1 as (evs & _ & Hdb & Hall); rewrite Hdb;
     exact (Hall [] evs eq_refl)).
Qed.

(** ** The queue and its two listeners *)

Lemma statusKey_inj vid vid' : statusKey vid = statusKey vid' -> vid = vid'.
Proof. unfold statusKey. cbn. intros H. injection H as H. exact H. Qed.

Lemma field_upsert_frame vid vid' f fields db l l' :
  f ∉ fields.*1 ->
  field vid f (mkWorld (upsert (statusKey vid') fields db) l) = field vid f (mkWorld db l').
Proof.
  intros Hf. destruct (decide (vid = vid')) as [->|Hne].
  - apply field_upsert_other, Hf.
  - unfold field, statusRecord, upsert. cbn [redis].
    rewrite lookup_insert_ne; [reflexivity|].
    intros H. apply Hne. symmetry. apply statusKey_inj, H.
Qed.

Lemma observer_write_frame env site key' vid' f fields vid w :
  key' = statusKey vid' ->
  f ∉ fields.*1 ->
  field vid f (snd (hset env site key' fields w)) = field vid f w.
Proof.
  intros -> Hf. unfold hset. destruct (hsetFault env site); cbn [snd].
  - destruct w; reflexivity.
  - rewrite (field_upsert_frame _ _ _ _ _ _ (log w)) by exact Hf.
    destruct w; reflexivity.
Qed.

Lemma observer_write_logged (ok : Event -> Prop) env site key fields w :
  (forall f, ok (mkEvent (Hset key fields) f)) ->
  loggedSince ok w (snd (hset env site key fields w)).
Proof.
  intros Hok. unfold hset.
  destruct (hsetFault env site); cbn [snd];
    apply loggedSince_cons; auto using loggedSince_refl.
Qed.

Lemma onCompleted_silent env jobs jobId w :
  loggedSince silentOnUrls w (snd (onCompleted env jobs jobId w)).
Proof.
  unfold onCompleted.
  case_bool_decide; [apply loggedSince_refl|].
  destruct (getJob jobs jobId) as [job|]; [|apply loggedSince_refl].
  case_bool_decide; [apply loggedSince_refl|].
  apply observer_write_logged. intros f. split; reflexivity.
Qed.

Lemma onFailed_silent env jobs jobId reason w :
  loggedSince silentOnUrls w (snd (onFailed env jobs jobId reason w)).
Proof.
  unfold onFailed.
  case_bool_decide; [apply loggedSince_refl|].
  destruct (getJob jobs jobId) as [job|]; [|apply loggedSince_refl].
  case_bool_decide; [apply loggedSince_refl|].
  apply observer_write_logged. intros f. split; reflexivity.
Qed.

Lemma onCompleted_frame env jobs jobId w vid f :
  f <> "status" -> f <> "progress" ->
  field vid f (snd (onCompleted env jobs jobId w)) = field vid f w.
Proof.
  intros Hs Hp. unfold onCompleted.
  case_bool_decide; [reflexivity|].
  destruct (getJob jobs jobId) as [job|]; [|reflexivity].
  case_bool_decide; [reflexivity|].
  apply (observer_write_frame _ _ _ (videoId job)); [reflexivity|].
  cbn. rewrite !not_elem_of_cons. repeat split; auto using not_elem_of_nil.
Qed.

Lemma onFailed_frame env jobs jobId reason w vid f :
  f <> "status" -> f <> "error" ->
  field vid f (snd (onFailed env jobs jobId reason w)) = field vid f w.
Proof.
  intros Hs Hp. unfold onFailed.
  case_bool_decide; [reflexivity|].
  destruct (getJob jobs jobId) as [job|]; [|reflexivity].
  case_bool_decide; [reflexivity|].
  apply (observer_write_frame _ _ _ (videoId job)); [reflexivity|].
  cbn. rewrite !not_elem_of_cons. repeat split; auto using not_elem_of_nil.
Qed.

(** A job that was added with the options of [app.ts] is gone from the queue
    when its event is published, whichever of the two it is. *)
Lemma getJob_finished jobs jobId job completed :
  jobs !! jobId = Some (job, jobOptions) ->
  getJob (moveToFinished jobId completed jobs) jobId = None.
Proof.
  intros Hjob. unfold moveToFinished, getJob. rewrite Hjob.
  assert (Hopt : (if completed then removeOnComplete jobOptions
                  else removeOnFail jobOptions) = true)
    by (destruct completed; reflexivity).
  rewrite Hopt, lookup_delete_eq. reflexivity.
Qed.

(** A listener that does not find the job does nothing. *)
Lemma listener_idle env jobs jobId reason w :
  getJob jobs jobId = None ->
  onCompleted env jobs jobId w = (Returned (), w)
  /\ onFailed env jobs jobId reason w = (Returned (), w).
Proof.
  intros H. unfold onCompleted, onFailed. rewrite H.
  case_bool_decide; split; reflexivity.
Qed.

(** For a job of [app.ts], the world that the worker process leaves is the
    world that [processJob] leaves: the listeners add nothing. *)
Lemma worker_world env reason jobs jobId job w0 :
  jobs !! jobId = Some (job, jobOptions) ->
  snd (fst (worker env reason jobs jobId w0)) = snd (processJob env job w0).
Proof.
  intros Hjob. unfold worker. rewrite Hjob.
  destruct (processJob env job w0) as [[[]|e|e] w1]; cbn [fst snd]; [| |reflexivity].
  - rewrite (proj1 (listener_idle env _ jobId reason w1
                      (getJob_finished jobs jobId job true Hjob))).
    reflexivity.
  - rewrite (proj2 (listener_idle env _ jobId reason w1
                      (getJob_finished jobs jobId job false Hjob))).
    reflexivity.
Qed.

(** C2: for every job that [app.ts] has added, from the record that it
    created (not completed, neither result field), every write of the worker
    process, the job runner's and the listeners', sets [masterUrl] and [urls]
    exactly when it sets the status [completed]; and the two fields are
    populated exactly when the status is [completed], at every moment of the
    run and at its end. *)
Theorem result_fields_iff_completed
    (env : Env) (failedReason : string) (jobs : Jobs) (jobId : string)
    (job : JobData) (w0 : World) :
  jobs !! jobId = Some (job, jobOptions) ->
  pending (videoId job) w0 ->
  loggedSince coherentWrite w0 (snd (fst (worker env failedReason jobs jobId w0)))
  /\ always w0 (urlsIffCompleted (videoId job))
       (snd (fst (worker env failedReason jobs jobId w0)))
  /\ (is_Some (field (videoId job) "masterUrl"
                 (snd (fst (worker env failedReason jobs jobId w0))))
      <-> field (videoId job) "status" (snd (fst (worker env failedReason jobs jobId w0)))
          = Some "completed")
  /\ (is_Some (field (videoId job) "urls"
                 (snd (fst (worker env failedReason jobs jobId w0))))
      <-> field (videoId job) "status" (snd (fst (worker env failedReason jobs jobId w0)))
          = Some "completed").
Proof.
  intros Hjob H0. rewrite (worker_world _ _ _ _ _ _ Hjob).
  split; [apply processJob_writes_coherent|].
  split; [apply processJob_always_urlsIffCompleted, H0|].
  assert (Hend : urlsIffCompleted (videoId job) (snd (processJob env job w0))).
  { destruct (processJob_pending_or_delivered env job w0 H0) as [H|H].
    - apply pending_urlsIffCompleted, H.
    - apply delivered_urlsIffCompleted, H. }
  exact Hend.
Qed.

Lemma result_fields_iff_completed_witness :
  sampleJobs !! "17" = Some (sampleJob, jobOptions)
  /\ pending "vid" sampleStart
  /\ (is_Some (field "vid" "masterUrl"
                 (snd (fst (worker (calm (1920, 1080)%Z) "failed" sampleJobs "17" sampleStart))))
      <-> field "vid" "status"
            (snd (fst (worker (calm (1920, 1080)%Z) "failed" sampleJobs "17" sampleStart)))
          = Some "completed")
  /\ field "vid" "status"
       (snd (fst (worker (calm (1920, 1080)%Z) "failed" sampleJobs "17" sampleStart)))
     = Some "completed".
Proof.
  assert (Hj : sampleJobs !! "17" = Some (sampleJob, jobOptions)) by reflexivity.
  assert (H0 : pending "vid" sampleStart)
    by (unfold pending; split; [vm_compute; discriminate|split; vm_compute; reflexivity]).
  destruct (result_fields_iff_completed (calm (1920, 1080)%Z) "failed" sampleJobs "17"
              sampleJob sampleStart Hj H0) as (_ & _ & H2 & _).
  split; [exact Hj|]. split; [exact H0|]. split; [exact H2|]. vm_compute. reflexivity.
Defined.

(** ** The sequence of statuses *)

Example stateOrder_runner :
  stateOrder = "queued" :: runnerStates ++ [statusCompleted].
Proof. reflexivity. Qed.












(** A job that ends in [error] stays there: the queue then publishes
    [completed], since [processJob] returned, and the listener finds no
    job. *)
Example portrait_job_stays_in_error :
  statusesOf (log (snd (fst (worker (calm (600, 800)%Z) "failed" sampleJobs "17" sampleStart))))
  = [ "checking video resolutions"; "error" ]
  /\ field "vid" "status"
       (snd (fst (worker (calm (600, 800)%Z) "failed" sampleJobs "17" sampleStart)))
     = Some "error"
  /\ snd (worker (calm (600, 800)%Z) "failed" sampleJobs "17" sampleStart) = ∅.
Proof. vm_compute. repeat split. Qed.

(** ** The scenarios of the specification *)

Example playlist_two_rungs :
  generateMasterPlaylist (uploadSubDir "/tmp/vid/out" 480)
  = "#EXTM3U" +:+ newline
    +:+ "#EXT-X-STREAM-INF:BANDWIDTH=250000,RESOLUTION=640x360" +:+ newline
    +:+ "360p/index.m3u8" +:+ newline
    +:+ "#EXT-X-STREAM-INF:BANDWIDTH=500000,RESOLUTION=854x480" +:+ newline
    +:+ "480p/index.m3u8".
Proof. vm_compute. reflexivity. Qed.

(** A 1920x1080 source: four rung directories, status [completed], progress
    100, both result fields. *)
Example scenario_1080 :
  fst (processJob (calm (1920, 1080)%Z) sampleJob sampleStart) = Returned ()
  /\ filter (fun ev => isMkdir ev = true)
       (reverse (log (snd (processJob (calm (1920, 1080)%Z) sampleJob sampleStart))))
     = [ mkEvent (Mkdir "/tmp/vid/out/360p") None; mkEvent (Mkdir "/tmp/vid/out/480p") None;
         mkEvent (Mkdir "/tmp/vid/out/720p") None; mkEvent (Mkdir "/tmp/vid/out/1080p") None ]
  /\ statusesOf (log (snd (processJob (calm (1920, 1080)%Z) sampleJob sampleStart)))
     = [ "checking video resolutions"; "Processing & Uploading"; "Generating master file";
         "Uploading master file"; "completed" ]
  /\ field "vid" "progress"
       (snd (processJob (calm (1920, 1080)%Z) sampleJob sampleStart)) = Some "100"
  /\ field "vid" "masterUrl"
       (snd (processJob (calm (1920, 1080)%Z) sampleJob sampleStart))
     = Some "https://cdn.example/vid/index.m3u8".
Proof. vm_compute. repeat split. Qed.

(** A 480x270 source: status [error], the too-low message, no result. *)
Example scenario_270 :
  field "vid" "status" (snd (processJob (calm (480, 270)%Z) sampleJob sampleStart))
  = Some "error"
  /\ field "vid" "error" (snd (processJob (calm (480, 270)%Z) sampleJob sampleStart))
     = Some "Video resolution too low: 480x270"
  /\ field "vid" "masterUrl"
       (snd (processJob (calm (480, 270)%Z) sampleJob sampleStart)) = None.
Proof. vm_compute. repeat split. Qed.

(** A 600x800 source: status [error], the aspect-ratio message, no rung
    directory. *)
Example scenario_portrait :
  field "vid" "status" (snd (processJob (calm (600, 800)%Z) sampleJob sampleStart))
  = Some "error"
  /\ field "vid" "error" (snd (processJob (calm (600, 800)%Z) sampleJob sampleStart))
     = Some "Aspect ratio should be landscape"
  /\ filter (fun ev => isMkdir ev = true)
       (log (snd (processJob (calm (600, 800)%Z) sampleJob sampleStart))) = [].
Proof. vm_compute. repeat split. Qed.

(** ** Failures at several steps *)

(** The probe cannot read the file. *)
Example failure_at_probe :
  let env := troubled noFault (Threw (ErrorObj "Command failed: ffprobe")) noFault
               (Returned []) (Returned "m") in
  statusOf env = Some "error" /\ errorOf env = Some "Command failed: ffprobe"
  /\ progressOf env = Some "5".
Proof. vm_compute. repeat split. Qed.

(** The directory of the 480p rung cannot be created. *)
Example failure_at_mkdir :
  let env := troubled noFault probeOk
               (fun d => if bool_decide (d = "/tmp/vid/out/480p")
                         then Some (ErrorObj "EACCES: permission denied") else None)
               (Returned []) (Returned "m") in
  statusOf env = Some "error" /\ errorOf env = Some "EACCES: permission denied"
  /\ progressOf env = Some "5".
Proof. vm_compute. repeat split. Qed.

(** The upload worker reports a failure. *)
Example failure_at_upload :
  let env := troubled noFault probeOk noFault
               (Threw (ErrorObj "Cloudinary upload error")) (Returned "m") in
  statusOf env = Some "error" /\ errorOf env = Some "Cloudinary upload error"
  /\ progressOf env = Some "20".
Proof. vm_compute. repeat split. Qed.

(** The upload of the master playlist rejects with a value that is not an
    [Error]. *)
Example failure_at_master_upload :
  let env := troubled noFault probeOk noFault (Returned []) (Threw NonError) in
  statusOf env = Some "error" /\ errorOf env = Some "Unkown error"
  /\ progressOf env = Some "20".
Proof. vm_compute. repeat split. Qed.

(** The store refuses the last write of the [try] block and then takes the
    write of the handler. *)
Example failure_at_completed_write :
  let env := troubled (fun s => match s with
                                | WCompleted => Some (ErrorObj "READONLY")
                                | _ => None
                                end)
               probeOk noFault (Returned []) (Returned "m") in
  statusOf env = Some "error" /\ errorOf env = Some "READONLY"
  /\ progressOf env = Some "20"
  /\ field "vid" "masterUrl" (snd (processJob env sampleJob sampleStart)) = None.
Proof. vm_compute. repeat split. Qed.

(** The store refuses the write of the handler: [processJob] rejects with the
    exception of the store, after the cleanup. *)
Example failure_of_the_handler :
  let env := troubled (fun s => match s with
                                | WError => Some (ErrorObj "READONLY")
                                | _ => None
                                end)
               (Threw (ErrorObj "Command failed: ffprobe")) noFault
               (Returned []) (Returned "m") in
  fst (processJob env sampleJob sampleStart) = Threw (ErrorObj "READONLY")
  /\ statusOf env = Some "checking video resolutions"
  /\ take 3 (log (snd (processJob env sampleJob sampleStart)))
     = [ mkEvent (Rm "/tmp/vid") None; mkEvent (Rm "/tmp/vid/in") None;
         mkEvent (Rm "/tmp/vid/out") None ].
Proof. vm_compute. repeat split. Qed.

(** The transcoder fails: the upload worker was started, and its promise is
    never awaited. *)
Example upload_not_awaited_after_transcoder_failure :
  statusOf (ffmpegDown (1280, 720)%Z) = Some "error"
  /\ length (filter (fun ev => isSpawnUpload ev = true)
               (log (snd (processJob (ffmpegDown (1280, 720)%Z) sampleJob sampleStart)))) = 1
  /\ filter (fun ev => isAwaitUpload ev = true)
       (log (snd (processJob (ffmpegDown (1280, 720)%Z) sampleJob sampleStart))) = [].
Proof. vm_compute. repeat split. Qed.

(** ** The promises of the two worker threads *)

Section Promises.

Context {M A : Type}.
Variable listener : WorkerEvent M -> PromiseState A.

Lemma settled_stays (st : PromiseState A) (events : list (WorkerEvent M)) :
  st <> Pending ->
  foldl (fun st ev => settle st (listener ev)) st events = st.
Proof.
  intros Hst. induction events as [|ev events IH]; [reflexivity|].
  cbn [foldl]. destruct st; [contradiction| |]; exact IH.
Qed.

Lemma promiseOf_pending (events : list (WorkerEvent M)) :
  promiseOf listener events = Pending <-> Forall (fun ev => listener ev = Pending) events.
Proof.
  unfold promiseOf. split.
  - induction events as [|ev events IH]; intros H; [constructor|].
    cbn [foldl settle] in H. destruct (listener ev) eqn:Hev.
    + constructor; [exact Hev|]. apply IH, H.
    + rewrite settled_stays in H by discriminate. discriminate.
    + rewrite settled_stays in H by discriminate. discriminate.
  - induction 1 as [|ev events Hev _ IH]; [reflexivity|].
    cbn [foldl settle]. rewrite Hev. exact IH.
Qed.

Lemma promiseOf_first (pre post : list (WorkerEvent M)) (ev : WorkerEvent M) :
  Forall (fun ev => listener ev = Pending) pre ->
  listener ev <> Pending ->
  promiseOf listener (pre ++ ev :: post) = listener ev.
Proof.
  intros Hpre Hev. unfold promiseOf. rewrite foldl_app.
  apply promiseOf_pending in Hpre. unfold promiseOf in Hpre. rewrite Hpre.
  cbn [foldl settle]. apply settled_stays, Hev.
Qed.

Lemma promiseOf_settled (events : list (WorkerEvent M)) (v : PromiseState A) :
  v <> Pending ->
  promiseOf listener events = v <->
  exists pre ev post,
    events = pre ++ ev :: post
    /\ Forall (fun ev => listener ev = Pending) pre
    /\ listener ev = v.
Proof.
  intros Hv. split.
  - unfold promiseOf. induction events as [|ev events IH]; intros H.
    + cbn in H. congruence.
    + cbn [foldl settle] in H. destruct (listener ev) eqn:Hev.
      * destruct (IH H) as (pre & ev' & post & -> & Hpre & Hev').
        exists (ev :: pre), ev', post.
        split; [reflexivity|]. split; [constructor; assumption|exact Hev'].
      * rewrite settled_stays in H by discriminate.
        exists [], ev, events.
        split; [reflexivity|]. split; [constructor|congruence].
      * rewrite settled_stays in H by discriminate.
        exists [], ev, events.
        split; [reflexivity|]. split; [constructor|congruence].
  - intros (pre & ev & post & -> & Hpre & Hev).
    rewrite promiseOf_first; [exact Hev|exact Hpre|congruence].
Qed.

End Promises.

Lemma ffmpegListener_pending (ev : WorkerEvent FFmpegMessage) :
  ffmpegListener ev = Pending <-> cleanExit ev.
Proof.
  destruct ev as [[[] err]|err|code]; cbn; try (split; [discriminate|contradiction]).
  case_bool_decide as Hc.
  - split; [discriminate|]. destruct code; first [contradiction | congruence].
  - subst code. split; trivial.
Qed.

Lemma uploadListener_pending (ev : WorkerEvent UploadMessage) :
  uploadListener ev = Pending <-> passedByUpload ev.
Proof.
  destruct ev as [[[] [urls|] [err|]]|err|code]; cbn;
    try (split; [discriminate|intros [[? ?]|[? ?]]; discriminate]);
    try (split; [discriminate|contradiction]);
    try (split; [intros _|reflexivity]; first [left; split; reflexivity | right; split; reflexivity]).
  case_bool_decide as Hc.
  - split; [discriminate|]. destruct code; first [contradiction | congruence].
  - subst code. split; trivial.
Qed.

Lemma Forall_iff_pointwise {X : Type} (P Q : X -> Prop) (l : list X) :
  (forall x, P x <-> Q x) -> Forall P l <-> Forall Q l.
Proof.
  intros H. split; induction 1; constructor; try assumption; apply H; assumption.
Qed.

(** X1: the promise of [runFFmpegWorker] never settles exactly when the worker
    does nothing but exit with code 0. *)
Theorem ffmpeg_promise_hangs (events : list (WorkerEvent FFmpegMessage)) :
  ffmpegWorkerPromise events = Pending <-> Forall cleanExit events.
Proof.
  unfold ffmpegWorkerPromise. rewrite promiseOf_pending.
  apply Forall_iff_pointwise, ffmpegListener_pending.
Qed.

(** X2: the first event that is not an exit with code 0 settles the promise of
    [runFFmpegWorker], and what follows changes nothing: a success message
    resolves it; a failure message rejects it with its text, or with
    "FFmpeg worker error" when the text is missing or empty; an [error] event
    rejects it with that error; an exit with another code rejects it with
    the text that names the code. *)
Theorem ffmpeg_promise_first_event
    (pre post : list (WorkerEvent FFmpegMessage)) (ev : WorkerEvent FFmpegMessage) :
  Forall cleanExit pre ->
  ~ cleanExit ev ->
  ffmpegWorkerPromise (pre ++ ev :: post)
  = match ev with
    | OnMessage m =>
        if ffSuccess m then Resolved ()
        else Rejected (ErrorObj (match ffError m with
                                 | Some (String a t) => String a t
                                 | _ => "FFmpeg worker error"
                                 end))
    | OnError err => Rejected err
    | OnExit code =>
        Rejected (ErrorObj ("FFmpeg worker exited with code " +:+ pretty code))
    end.
Proof.
  intros Hpre Hev. unfold ffmpegWorkerPromise.
  rewrite promiseOf_first.
  - destruct ev as [[[] [[|a t]|]]|err|code]; try reflexivity.
    cbn. rewrite bool_decide_eq_true_2; [reflexivity|].
    intros ->. apply Hev. exact I.
  - apply (Forall_iff_pointwise _ _ _ ffmpegListener_pending), Hpre.
  - intros H. apply Hev, ffmpegListener_pending, H.
Qed.

Lemma ffmpeg_promise_first_event_witness :
  Forall cleanExit [OnExit (M := FFmpegMessage) 0]
  /\ ~ cleanExit (OnMessage (mkFFmpegMessage true None))
  /\ ffmpegWorkerPromise
       ([OnExit 0] ++ OnMessage (mkFFmpegMessage true None) :: [OnExit 1])
     = Resolved ().
Proof.
  assert (H1 : Forall cleanExit [OnExit (M := FFmpegMessage) 0])
    by (repeat constructor).
  assert (H2 : ~ cleanExit (OnMessage (mkFFmpegMessage true None)))
    by (intros H; exact H).
  split; [exact H1|]. split; [exact H2|].
  exact (ffmpeg_promise_first_event _ [OnExit 1] _ H1 H2).
Defined.

(** X3: the promise of [runUploadWorker] resolves with [urls] exactly when the
    first event that its listeners do not let pass is a success message that
    carries [urls]. *)
Theorem upload_promise_resolves (events : list (WorkerEvent UploadMessage)) (urls : Urls) :
  uploadWorkerPromise events = Resolved urls <->
  exists pre m post,
    events = pre ++ OnMessage m :: post
    /\ Forall passedByUpload pre
    /\ upSuccess m = true /\ upUrls m = Some urls.
Proof.
  unfold uploadWorkerPromise. rewrite promiseOf_settled by discriminate. split.
  - intros (pre & ev & post & -> & Hpre & Hev).
    destruct ev as [[[] [u|] [err|]]|err|code]; cbn in Hev; try discriminate;
      try (case_bool_decide; discriminate).
    all: injection Hev as ->; eexists pre, _, post; repeat split;
      apply (Forall_iff_pointwise _ _ _ uploadListener_pending), Hpre.
  - intros (pre & m & post & -> & Hpre & Hs & Hu).
    exists pre, (OnMessage m), post. repeat split.
    + apply (Forall_iff_pointwise _ _ _ uploadListener_pending), Hpre.
    + cbn. rewrite Hs, Hu. reflexivity.
Qed.

(** X4: the promise of [runUploadWorker] never settles exactly when every event
    is one that its listeners let pass; a success message without [urls]
    followed by a clean exit is such a run. *)
Theorem upload_promise_hangs (events : list (WorkerEvent UploadMessage)) :
  (uploadWorkerPromise events = Pending <-> Forall passedByUpload events)
  /\ uploadWorkerPromise [OnMessage (mkUploadMessage true None None); OnExit 0] = Pending.
Proof.
  split; [|reflexivity].
  unfold uploadWorkerPromise. rewrite promiseOf_pending.
  apply Forall_iff_pointwise, uploadListener_pending.
Qed.

(** ** A run in which every step goes through *)

Lemma mkdirOutcome_returned env (dirs : list string) :
  mkdirOutcome env dirs = Returned () <-> forall d, d ∈ dirs -> mkdirFault env d = None.
Proof.
  induction dirs as [|d rest IH]; cbn [mkdirOutcome].
  - split; [intros _ d Hd; apply elem_of_nil in Hd; contradiction|reflexivity].
  - destruct (mkdirFault env d) eqn:Hd.
    + split; [discriminate|]. intros H. specialize (H d (list_elem_of_here _ _)). congruence.
    + rewrite IH. split.
      * intros H d' Hd'. apply elem_of_cons in Hd' as [->|Hd']; auto.
      * intros H d' Hd'. apply H. apply list_elem_of_further, Hd'.
Qed.

Lemma mkdirEvents_ok env (dirs : list string) :
  (forall d, d ∈ dirs -> mkdirFault env d = None) ->
  mkdirEvent env <$> dirs = (fun d => mkEvent (Mkdir d) None) <$> dirs.
Proof.
  intros H. apply list_fmap_ext. intros i d Hd. unfold mkdirEvent.
  rewrite (H d); [reflexivity|]. apply list_elem_of_lookup. exists i. exact Hd.
Qed.

(** Running a sequence step by step. *)

Lemma bind_returned {A B : Type} (m : Async A) (f : A -> Async B) w a w1 :
  m w = (Returned a, w1) -> (m ≫= f) w = f a w1.
Proof. intros H. unfold mbind, Async_bind. rewrite H. reflexivity. Qed.

Lemma bind_threw {A B : Type} (m : Async A) (f : A -> Async B) w e w1 :
  m w = (Threw e, w1) -> (m ≫= f) w = (Threw e, w1).
Proof. intros H. unfold mbind, Async_bind. rewrite H. reflexivity. Qed.

Lemma bind_returned_inv {A B : Type} (m : Async A) (f : A -> Async B) w b w2 :
  (m ≫= f) w = (Returned b, w2) ->
  exists a w1, m w = (Returned a, w1) /\ f a w1 = (Returned b, w2).
Proof.
  unfold mbind, Async_bind. destruct (m w) as [[a|e|e] w1]; [eauto|discriminate|discriminate].
Qed.

Lemma bind_exited {A B : Type} (m : Async A) (f : A -> Async B) w e w1 :
  m w = (Exited e, w1) -> (m ≫= f) w = (Exited e, w1).
Proof. intros H. unfold mbind, Async_bind. rewrite H. reflexivity. Qed.

Lemma request_returned {A : Type} c (o : Outcome A) a w :
  o = Returned a -> request c o w = (Returned a, record_event (mkEvent c None) w).
Proof. intros ->. reflexivity. Qed.

Lemma request_threw {A : Type} c (o : Outcome A) e w :
  o = Threw e -> request c o w = (Threw e, record_event (mkEvent c (Some e)) w).
Proof. intros ->. reflexivity. Qed.

Lemma request_returned_inv {A : Type} c (o : Outcome A) a w w1 :
  request c o w = (Returned a, w1) -> o = Returned a.
Proof. unfold request. intros H. injection H as H _. exact H. Qed.

Lemma perform_returned c f w :
  f = None -> perform c f w = (Returned (), record_event (mkEvent c None) w).
Proof. intros ->. reflexivity. Qed.

Lemma perform_threw c f e w :
  f = Some e -> perform c f w = (Threw e, record_event (mkEvent c (Some e)) w).
Proof. intros ->. reflexivity. Qed.

Lemma perform_returned_inv c f a w w1 :
  perform c f w = (Returned a, w1) -> f = None.
Proof. unfold perform. destruct f; [discriminate|reflexivity]. Qed.

Lemma hset_returned_inv env site key fields a w w1 :
  hset env site key fields w = (Returned a, w1) -> hsetFault env site = None.
Proof. unfold hset. destruct (hsetFault env site); [discriminate|reflexivity]. Qed.

(** Worker promises that do not reject end no process. *)
Lemma unhandled_none env m unawaited :
  (forall p, p ∈ unawaited -> rejection env p = None) ->
  unhandledRejection env m unawaited = None.
Proof.
  induction unawaited as [|p rest IH]; intros H; [reflexivity|].
  cbn [unhandledRejection]. rewrite (H p (list_elem_of_here _ _)).
  rewrite IH by (intros q Hq; apply H, list_elem_of_further, Hq).
  destruct (bool_decide _); reflexivity.
Qed.

Lemma unhandled_later env m unawaited :
  (forall p, p ∈ unawaited -> settles env p <> m) ->
  unhandledRejection env m unawaited = None.
Proof.
  induction unawaited as [|p rest IH]; intros H; [reflexivity|].
  cbn [unhandledRejection].
  rewrite (bool_decide_eq_false_2 _ (H p (list_elem_of_here _ _))).
  apply IH. intros q Hq. apply H, list_elem_of_further, Hq.
Qed.

Lemma unhandled_upload env m e :
  settles env UploadPromise = m -> uploadWorker env = Threw e ->
  unhandledRejection env m [UploadPromise] = Some e.
Proof.
  intros Hm Hup. cbn [unhandledRejection rejection].
  rewrite (bool_decide_eq_true_2 _ Hm), Hup. reflexivity.
Qed.

Lemma exposed_quiet {A : Type} env m unawaited (call : Async A) w :
  unhandledRejection env m unawaited = None ->
  exposed env m unawaited call w = call w.
Proof. intros H. unfold exposed. rewrite H. reflexivity. Qed.

Lemma exposed_hset_accepted env m unawaited site key fields w :
  unhandledRejection env m unawaited = None ->
  hsetFault env site = None ->
  exposed env m unawaited (hset env site key fields) w
  = (Returned (), mkWorld (upsert key fields (redis w))
                          (mkEvent (Hset key fields) None :: log w)).
Proof. intros Hq Hs. rewrite (exposed_quiet _ _ _ _ _ Hq). apply hset_accepted, Hs. Qed.

Lemma exposed_returned_inv {A : Type} env m unawaited (call : Async A) a w w1 :
  exposed env m unawaited call w = (Returned a, w1) ->
  unhandledRejection env m unawaited = None /\ call w = (Returned a, w1).
Proof.
  unfold exposed. destruct (unhandledRejection env m unawaited); [discriminate|].
  intros H. split; [reflexivity|exact H].
Qed.

Lemma awaitFFmpeg_returned env w :
  unhandledRejection env DuringTranscode [UploadPromise] = None ->
  ffmpegWorker env = None ->
  awaitFFmpeg env w = (Returned (), record_event (mkEvent AwaitFFmpeg None) w).
Proof. intros Hq Hff. unfold awaitFFmpeg. rewrite Hq, Hff. reflexivity. Qed.

Lemma awaitFFmpeg_threw env w e :
  unhandledRejection env DuringTranscode [UploadPromise] = None ->
  ffmpegWorker env = Some e ->
  awaitFFmpeg env w = (Threw e, record_event (mkEvent AwaitFFmpeg (Some e)) w).
Proof. intros Hq Hff. unfold awaitFFmpeg. rewrite Hq, Hff. reflexivity. Qed.

Lemma awaitFFmpeg_exited env w e :
  unhandledRejection env DuringTranscode [UploadPromise] = Some e ->
  awaitFFmpeg env w = (Exited e, w).
Proof. intros Hq. unfold awaitFFmpeg. rewrite Hq. reflexivity. Qed.

Lemma awaitFFmpeg_returned_inv env a w w1 :
  awaitFFmpeg env w = (Returned a, w1) ->
  unhandledRejection env DuringTranscode [UploadPromise] = None /\ ffmpegWorker env = None.
Proof.
  unfold awaitFFmpeg. destruct (unhandledRejection env DuringTranscode [UploadPromise]);
    [discriminate|].
  intros H. split; [reflexivity|]. exact (perform_returned_inv _ _ _ _ _ H).
Qed.

Lemma upload_returned_quiet env m urls :
  uploadWorker env = Returned urls -> unhandledRejection env m [UploadPromise] = None.
Proof.
  intros H. apply unhandled_none. intros p Hp.
  apply list_elem_of_singleton in Hp as ->. cbn. rewrite H. reflexivity.
Qed.

Lemma guard_passes (P : Prop) `{Decision P} e w :
  ~ P -> (if bool_decide P then throw e else mret ()) w = (Returned (), w).
Proof. intros HP. rewrite bool_decide_eq_false_2 by exact HP. reflexivity. Qed.

Lemma guard_returned_inv (P : Prop) `{Decision P} e a w w1 :
  (if bool_decide P then throw e else mret ()) w = (Returned a, w1) -> ~ P /\ w1 = w.
Proof.
  case_bool_decide as HP; [discriminate|]. intros Hrun. injection Hrun as _ <-.
  split; [exact HP|reflexivity].
Qed.

Lemma mkdirAll_ok env (dirs : list string) w :
  (forall d, d ∈ dirs -> mkdirFault env d = None) ->
  mkdirAll env dirs w
  = (Returned (),
     mkWorld (redis w) (reverse ((fun d => mkEvent (Mkdir d) None) <$> dirs) ++ log w)).
Proof.
  intros H. rewrite mkdirAll_run, (proj2 (mkdirOutcome_returned _ _) H),
    (mkdirEvents_ok _ _ H). reflexivity.
Qed.

(** One step that goes through, by the lemma [H] that runs it. *)
Ltac step H :=
  erewrite bind_returned by (apply H; first [eassumption | lia | reflexivity]);
  cbv beta iota zeta; cbn [redis log record_event].

(** The [try] block as far as the two workers and the second write. *)
Lemma tryBody_launched env job w0 (w h : Z) :
  reachesWorkers env job w h ->
  tryBody env job w0 = fromWorkers env job h (launchedWorld job h w0).
Proof.
  intros (Hc & Hp & Hland & Hmin & Hmk & Hpr & Hquiet).
  assert (Hmk' : forall d, d ∈ dir <$> uploadSubDir (uploadDir job) h -> mkdirFault env d = None).
  { intros d Hd. apply list_elem_of_fmap in Hd as (r & -> & Hr). apply Hmk, Hr. }
  unfold tryBody. cbv zeta.
  step hset_accepted.
  unfold getVideoResolution. step (@request_returned (Z * Z)).
  step guard_passes. step guard_passes.
  erewrite bind_returned by (apply mkdirAll_ok, Hmk').
  cbv beta. cbn [redis log].
  unfold runFFmpegWorker. step perform_returned.
  unfold runUploadWorker. step perform_returned.
  erewrite bind_returned by (apply exposed_hset_accepted; [exact Hquiet|exact Hpr]).
  reflexivity.
Qed.

(** The rest of the [try] block as far as the upload of the master
    playlist. *)
Lemma tryBody_at_master_upload env job w0 (w h : Z) urls :
  reachesMasterUpload env job w h ->
  uploadWorker env = Returned urls ->
  exists w1,
    tryBody env job w0 = fromMasterUpload env job urls w1
    /\ field (videoId job) "progress" w1 = Some "20"
    /\ (forall f, f <> "status" -> f <> "progress" ->
          field (videoId job) f w1 = field (videoId job) f w0)
    /\ exists evs, log w1 = evs ++ log (launchedWorld job h w0)
                   /\ call <$> reverse evs
                      = [ AwaitFFmpeg; AwaitUpload;
                          Hset (statusKey (videoId job))
                            (milestoneFields "Generating master file" "20");
                          WriteFile (uploadDir job +:+ "/index.m3u8")
                            (trim (generateMasterPlaylist (uploadSubDir (uploadDir job) h)));
                          Hset (statusKey (videoId job))
                            (milestoneFields "Uploading master file" "20") ]
                   /\ Forall (fun ev => fault ev = None) evs.
Proof.
  intros (Hreach & Hff & _ & Hg & Hwf & Hu) Hup.
  rewrite (tryBody_launched env job w0 w h Hreach).
  unfold fromWorkers.
  erewrite bind_returned
    by (apply awaitFFmpeg_returned; [exact (upload_returned_quiet _ _ _ Hup)|exact Hff]).
  cbv beta iota zeta; cbn [redis log record_event].
  unfold awaitUpload. step (@request_returned Urls).
  step hset_accepted.
  unfold writeFile. step perform_returned.
  step hset_accepted.
  eexists. split; [reflexivity|].
  split; [apply (field_milestone_progress (videoId job) "Uploading master file" "20")|].
  split.
  { intros f Hs Hp'.
    assert (Hf : f ∉ (milestoneFields "x" "y").*1).
    { cbn. rewrite !not_elem_of_cons. repeat split; auto using not_elem_of_nil. }
    unfold launchedWorld, probedWorld. cbn [redis].
    rewrite (field_upsert_other _ f (milestoneFields "Uploading master file" "20") _ _ []) by exact Hf.
    rewrite (field_upsert_other _ f (milestoneFields "Generating master file" "20") _ _ []) by exact Hf.
    rewrite (field_upsert_other _ f (milestoneFields "Processing & Uploading" "20") _ _ []) by exact Hf.
    rewrite (field_upsert_other _ f (milestoneFields "checking video resolutions" "5") _ _ (log w0))
      by exact Hf.
    destruct w0; reflexivity. }
  eexists [_; _; _; _; _]. split; [reflexivity|].
  split; [reflexivity|repeat constructor].
Qed.

Lemma launchedWorld_calls job h w0 :
  call <$> reverse (log (launchedWorld job h w0))
  = (call <$> reverse (log w0))
    ++ [ Hset (statusKey (videoId job)) (milestoneFields "checking video resolutions" "5");
         Ffprobe (inputFilePath job) ]
    ++ (Mkdir <$> (dir <$> uploadSubDir (uploadDir job) h))
    ++ [ SpawnFFmpegWorker (inputFilePath job) (uploadSubDir (uploadDir job) h);
         SpawnUploadWorker (uploadSubDir (uploadDir job) h) (videoId job);
         Hset (statusKey (videoId job)) (milestoneFields "Processing & Uploading" "20") ].
Proof.
  unfold launchedWorld, probedWorld. cbn [log].
  rewrite !reverse_cons, reverse_app, !reverse_cons, reverse_involutive.
  rewrite !fmap_app, <- list_fmap_compose, <- !app_assoc. reflexivity.
Qed.

Lemma launchedWorld_faultless job h w0 :
  loggedSince (fun ev => fault ev = None) w0 (launchedWorld job h w0).
Proof.
  eexists (_ :: _ :: _ :: reverse _ ++ [_; _]). split.
  - unfold launchedWorld, probedWorld. cbn [log app]. rewrite <- app_assoc. reflexivity.
  - repeat (apply Forall_cons_2; [reflexivity|]).
    apply Forall_app. split; [|repeat constructor].
    apply Forall_reverse, Forall_fmap, Forall_true. reflexivity.
Qed.

Lemma smoothRun_reaches env job w h urls masterUrl :
  smoothRun env job w h urls masterUrl -> reachesMasterUpload env job w h.
Proof.
  intros (Hc & Hp & Hland & Hmin & Hmk & Hpr & Hff & Hup & Hg & Hwf & Hu & Hcl & Hdone).
  unfold reachesMasterUpload, reachesWorkers. repeat split; try assumption.
  - apply unhandled_none. intros p Hp'.
    apply elem_of_cons in Hp' as [->|Hp']; [exact Hff|].
    apply list_elem_of_singleton in Hp' as ->. cbn. rewrite Hup. reflexivity.
  - exists urls. exact Hup.
Qed.

Lemma smooth_tryBody env job w0 w h urls masterUrl :
  smoothRun env job w h urls masterUrl ->
  exists w1,
    tryBody env job w0 = (Returned (), w1)
    /\ call <$> reverse (log w1)
       = (call <$> reverse (log w0)) ++ smoothCalls env job h urls masterUrl
    /\ loggedSince (fun ev => fault ev = None) w0 w1
    /\ delivered (videoId job) w1
    /\ field (videoId job) "progress" w1 = Some "100"
    /\ field (videoId job) "masterUrl" w1 = Some masterUrl
    /\ field (videoId job) "urls" w1 = Some (JSON_stringify env urls).
Proof.
  intros Hsmooth.
  pose proof (smoothRun_reaches _ _ _ _ _ _ Hsmooth) as Hreach.
  destruct Hsmooth as (_ & _ & _ & _ & _ & _ & _ & Hup & _ & _ & _ & Hcl & Hdone).
  destruct (tryBody_at_master_upload env job w0 w h urls Hreach Hup)
    as (w1 & Hrun & _ & _ & evs & Hlog & Hcalls & Hok).
  rewrite Hrun. unfold fromMasterUpload, uploadToCloudinary.
  step (@request_returned string). rewrite hset_accepted by exact Hdone.
  eexists. split; [reflexivity|].
  unfold record_event. cbn [log redis].
  split.
  { rewrite Hlog, !reverse_cons, reverse_app, !fmap_app, Hcalls, launchedWorld_calls.
    unfold smoothCalls. rewrite <- !app_assoc. reflexivity. }
  split.
  { destruct (launchedWorld_faultless job h w0) as (evs0 & Hlog0 & Hok0).
    exists (mkEvent (Hset (statusKey (videoId job))
                       (completedFields masterUrl (JSON_stringify env urls))) None
            :: mkEvent (UploadToCloudinary (uploadDir job +:+ "/index.m3u8") (videoId job)) None
            :: evs ++ evs0).
    split; [cbn [log app]; rewrite Hlog, Hlog0, app_assoc; reflexivity|].
    repeat (apply Forall_cons_2; [reflexivity|]).
    apply Forall_app. split; assumption. }
  split; [apply delivered_completed|].
  repeat split; apply field_upsert_set; first [nodup | pick].
Qed.

Lemma tryBody_returned_smooth env job w0 :
  fst (tryBody env job w0) = Returned () ->
  exists w h urls masterUrl, smoothRun env job w h urls masterUrl.
Proof.
  destruct (tryBody env job w0) as [r wf] eqn:Hrun. cbn [fst]. intros ->.
  unfold tryBody in Hrun. cbv zeta in Hrun.
  apply bind_returned_inv in Hrun as ([] & w1 & Hc & Hrun).
  apply hset_returned_inv in Hc.
  apply bind_returned_inv in Hrun as ([w h] & w2 & Hp & Hrun).
  apply request_returned_inv in Hp.
  cbv beta iota in Hrun.
  apply bind_returned_inv in Hrun as ([] & w3 & Hland & Hrun).
  apply guard_returned_inv in Hland as [Hland ->].
  apply bind_returned_inv in Hrun as ([] & w4 & Hmin & Hrun).
  apply guard_returned_inv in Hmin as [Hmin ->].
  apply bind_returned_inv in Hrun as ([] & w5 & Hmk & Hrun).
  rewrite mkdirAll_run in Hmk. injection Hmk as Hmk _.
  apply bind_returned_inv in Hrun as ([] & w6 & _ & Hrun).
  apply bind_returned_inv in Hrun as ([] & w7 & _ & Hrun).
  apply bind_returned_inv in Hrun as ([] & w8 & Hpr & Hrun).
  apply exposed_returned_inv in Hpr as [_ Hpr].
  apply hset_returned_inv in Hpr.
  apply bind_returned_inv in Hrun as ([] & w9 & Hff & Hrun).
  apply awaitFFmpeg_returned_inv in Hff as [_ Hff].
  apply bind_returned_inv in Hrun as (urls & w10 & Hup & Hrun).
  apply request_returned_inv in Hup.
  apply bind_returned_inv in Hrun as ([] & w11 & Hg & Hrun).
  apply hset_returned_inv in Hg.
  apply bind_returned_inv in Hrun as ([] & w12 & Hwf & Hrun).
  apply perform_returned_inv in Hwf.
  apply bind_returned_inv in Hrun as ([] & w13 & Hu & Hrun).
  apply hset_returned_inv in Hu.
  apply bind_returned_inv in Hrun as (masterUrl & w14 & Hcl & Hrun).
  apply request_returned_inv in Hcl.
  apply hset_returned_inv in Hrun.
  exists w, h, urls, masterUrl.
  repeat split; try assumption; try lia.
  intros r Hr. apply (proj1 (mkdirOutcome_returned _ _) Hmk).
  apply list_elem_of_fmap. exists r. split; [reflexivity|exact Hr].
Qed.

(** From a pending record, the record that [processJob] leaves is delivered
    when the [try] block returns and pending when it throws. *)
Lemma processJob_record_by_outcome env job w0 :
  pending (videoId job) w0 ->
  match fst (tryBody env job w0) with
  | Returned _ => delivered (videoId job) (snd (processJob env job w0))
  | _ => pending (videoId job) (snd (processJob env job w0))
  end.
Proof.
  intros H0. rewrite processJob_run. unfold tryCatch.
  pose proof (tryBody_invariant env job (pending (videoId job)) (delivered (videoId job))) as H.
  assert (Ht : triple (pending (videoId job)) (tryBody env job)
                 (fun _ => delivered (videoId job)) (fun _ => pending (videoId job))).
  { apply H.
    - intros w c f _ Hw. exact Hw.
    - intros w fs e _ Hw. exact Hw.
    - intros w s p Hsp Hw. destruct w as [db l].
      apply (pending_milestone _ _ _ _ l); assumption.
    - intros w m u _. apply delivered_completed. }
  specialize (Ht w0 H0).
  destruct (tryBody env job w0) as [[[]|e|e] [db l]]; cbn [fst snd redis].
  - exact Ht.
  - rewrite catchHandler_run. unfold catchHandler, hset.
    destruct (hsetFault env WError); cbn [snd redis].
    + exact Ht.
    + apply (pending_error _ _ _ l), Ht.
  - exact Ht.
Qed.

(** X5: on a record that was pending, the job runner leaves the status
    [completed] exactly when every call of the [try] block went through:
    the five status writes, the probe with a landscape source of at least
    360 lines, every [mkdir], both workers, the write of the master playlist
    and its upload. *)
Theorem completed_iff_every_step (env : Env) (job : JobData) (w0 : World) :
  pending (videoId job) w0 ->
  field (videoId job) "status" (snd (processJob env job w0)) = Some "completed"
  <-> exists w h urls masterUrl, smoothRun env job w h urls masterUrl.
Proof.
  intros H0. pose proof (processJob_record_by_outcome env job w0 H0) as H.
  split.
  - intros Hs. apply (tryBody_returned_smooth env job w0).
    destruct (fst (tryBody env job w0)) as [[]|e|e]; [reflexivity| |];
      destruct H as (Hne & _); contradiction.
  - intros (w & h & urls & m & Hsmooth).
    destruct (smooth_tryBody env job w0 w h urls m Hsmooth) as (w1 & Hrun & _).
    rewrite Hrun in H. cbn [fst] in H. apply H.
Qed.

Lemma completed_iff_every_step_witness :
  pending "vid" sampleStart
  /\ (field "vid" "status"
        (snd (processJob (ffmpegDown (1280, 720)%Z) sampleJob sampleStart)) = Some "completed"
      <-> exists w h urls masterUrl,
            smoothRun (ffmpegDown (1280, 720)%Z) sampleJob w h urls masterUrl).
Proof.
  assert (H0 : pending "vid" sampleStart)
    by (unfold pending; split; [vm_compute; discriminate|split; vm_compute; reflexivity]).
  split; [exact H0|].
  exact (completed_iff_every_step (ffmpegDown (1280, 720)%Z) sampleJob sampleStart H0).
Defined.

Lemma smooth_run_facts env job w0 (w h : Z) urls masterUrl :
  smoothRun env job w h urls masterUrl ->
  field (videoId job) "status" (snd (processJob env job w0)) = Some "completed"
  /\ field (videoId job) "progress" (snd (processJob env job w0)) = Some "100"
  /\ field (videoId job) "masterUrl" (snd (processJob env job w0)) = Some masterUrl
  /\ field (videoId job) "urls" (snd (processJob env job w0)) = Some (JSON_stringify env urls).
Proof.
  intros Hsmooth.
  destruct (smooth_tryBody env job w0 w h urls masterUrl Hsmooth)
    as (w1 & Hrun & _ & _ & (Hs & _ & _) & Hp & Hm & Hu).
  rewrite (processJob_returned _ _ _ _ Hrun). cbn [snd].
  destruct w1 as [db l]. repeat split; assumption.
Qed.

(** X6: when every call goes through, the calls of [processJob] are, in this
    order: the first status write, the probe, one [mkdir] per rung, the start
    of the two workers, the second status write, the two awaits, the third
    write, the write of the master playlist generated from the ladder, the
    fourth write, the upload of that file into the folder of the job, the
    completed write, and the three removals.  The record then holds progress
    100, the URL that Cloudinary answered and the serialised list of the
    upload worker. *)
Theorem smooth_run_trace (env : Env) (job : JobData) (w0 : World) (w h : Z)
    (urls : Urls) (masterUrl : string) :
  smoothRun env job w h urls masterUrl ->
  fst (processJob env job w0) = Returned ()
  /\ call <$> reverse (log (snd (processJob env job w0)))
     = (call <$> reverse (log w0)) ++ smoothCalls env job h urls masterUrl
       ++ (call <$> reverse (cleanupLog env job))
  /\ field (videoId job) "status" (snd (processJob env job w0)) = Some "completed"
  /\ field (videoId job) "progress" (snd (processJob env job w0)) = Some "100"
  /\ field (videoId job) "masterUrl" (snd (processJob env job w0)) = Some masterUrl
  /\ field (videoId job) "urls" (snd (processJob env job w0))
     = Some (JSON_stringify env urls).
Proof.
  intros Hsmooth.
  destruct (smooth_tryBody env job w0 w h urls masterUrl Hsmooth)
    as (w1 & Hrun & Hcalls & _ & (Hs & _ & _) & Hp & Hm & Hu).
  rewrite (processJob_returned _ _ _ _ Hrun). cbn [fst snd log redis].
  split; [reflexivity|].
  split.
  { rewrite reverse_app, fmap_app, Hcalls, <- app_assoc. reflexivity. }
  destruct w1 as [db l]. repeat split; assumption.
Qed.

Lemma smooth_run_trace_witness :
  smoothRun (calm (1280, 720)%Z) sampleJob 1280 720
    [(360%Z, "https://cdn.example/vid/360p/index.m3u8")] "https://cdn.example/vid/index.m3u8"
  /\ field "vid" "masterUrl"
       (snd (processJob (calm (1280, 720)%Z) sampleJob sampleStart))
     = Some "https://cdn.example/vid/index.m3u8".
Proof.
  assert (H : smoothRun (calm (1280, 720)%Z) sampleJob 1280 720
                [(360%Z, "https://cdn.example/vid/360p/index.m3u8")]
                "https://cdn.example/vid/index.m3u8").
  { unfold smoothRun. cbn. repeat split; first [reflexivity | lia]. }
  split; [exact H|].
  destruct (smooth_run_trace _ _ sampleStart _ _ _ _ H) as (_ & _ & _ & _ & Hm & _).
  exact Hm.
Defined.

(** ** Failures after the checks *)

Lemma mkdirOutcome_threw env (dirs : list string) d e0 :
  d ∈ dirs -> mkdirFault env d = Some e0 -> exists e, mkdirOutcome env dirs = Threw e.
Proof.
  intros Hd Hf. induction dirs as [|d' rest IH]; [apply elem_of_nil in Hd; contradiction|].
  cbn [mkdirOutcome]. destruct (mkdirFault env d') as [e'|] eqn:Hd'; [eauto|].
  apply IH. apply elem_of_cons in Hd as [->|Hd]; [congruence|exact Hd].
Qed.

Lemma progress_after_error vid p m db l l' :
  field vid "progress" (mkWorld db l) = Some p ->
  field vid "progress"
    (mkWorld (upsert (statusKey vid) [("status", statusError); ("error", m)] db) l')
  = Some p.
Proof.
  intros H. rewrite (field_upsert_other _ _ _ _ _ l); [exact H|].
  cbn. rewrite !not_elem_of_cons. repeat split; try discriminate. apply not_elem_of_nil.
Qed.

(** The [try] block when a directory cannot be created. *)
Lemma tryBody_mkdir_fails env job w0 (w h : Z) e :
  hsetFault env WChecking = None ->
  ffprobe env (inputFilePath job) = Returned (w, h) ->
  (h <= w)%Z -> (360 <= Z.min h w)%Z ->
  mkdirOutcome env (dir <$> uploadSubDir (uploadDir job) h) = Threw e ->
  tryBody env job w0
  = (Threw e,
     mkWorld (redis (probedWorld job w0))
       (reverse (mkdirEvent env <$> (dir <$> uploadSubDir (uploadDir job) h))
        ++ log (probedWorld job w0))).
Proof.
  intros Hc Hp Hland Hmin Hmk.
  unfold tryBody. cbv zeta.
  step hset_accepted.
  unfold getVideoResolution. step (@request_returned (Z * Z)).
  step guard_passes. step guard_passes.
  erewrite bind_threw; [reflexivity|].
  rewrite mkdirAll_run, Hmk. reflexivity.
Qed.

(** X7: when a rung directory cannot be created, every [mkdir] of the ladder
    has still been issued, no worker is started and nothing is written or
    uploaded; the job ends with status [error] and progress 5. *)
Theorem mkdir_failure_stops_before_workers
    (env : Env) (job : JobData) (w0 : World) (w h : Z) (r : Rung) (e0 : Thrown) :
  hsetFault env WChecking = None ->
  ffprobe env (inputFilePath job) = Returned (w, h) ->
  (h <= w)%Z -> (360 <= Z.min h w)%Z ->
  r ∈ uploadSubDir (uploadDir job) h ->
  mkdirFault env (dir r) = Some e0 ->
  hsetFault env WError = None ->
  fst (processJob env job w0) = Returned ()
  /\ field (videoId job) "status" (snd (processJob env job w0)) = Some "error"
  /\ field (videoId job) "progress" (snd (processJob env job w0)) = Some "5"
  /\ (forall r', r' ∈ uploadSubDir (uploadDir job) h ->
        mkdirEvent env (dir r') ∈ log (snd (processJob env job w0)))
  /\ loggedSince (fun ev => afterDirectories ev = false) w0 (snd (processJob env job w0)).
Proof.
  intros Hc Hp Hland Hmin Hr Hf He.
  destruct (mkdirOutcome_threw env (dir <$> uploadSubDir (uploadDir job) h) (dir r) e0)
    as [e Hmk]; [apply list_elem_of_fmap_2, Hr|exact Hf|].
  rewrite (processJob_handled _ _ _ _ _
             (tryBody_mkdir_fails _ _ w0 _ _ _ Hc Hp Hland Hmin Hmk) He).
  cbn [fst snd log redis].
  split; [reflexivity|]. split; [apply handled_status|].
  split.
  { apply (progress_after_error _ _ _ _ []). unfold probedWorld.
    apply (field_milestone_progress (videoId job) "checking video resolutions" "5"). }
  split.
  { intros r' Hr'. apply elem_of_app. right. apply elem_of_cons. right.
    apply elem_of_app. left. apply elem_of_reverse.
    apply list_elem_of_fmap_2, list_elem_of_fmap_2, Hr'. }
  eexists (cleanupLog env job ++ errorWrite env job e
           :: reverse (mkdirEvent env <$> (dir <$> uploadSubDir (uploadDir job) h))
           ++ [_; _]).
  split.
  { unfold probedWorld. cbn [log]. rewrite <- !app_assoc. cbn [app].
    rewrite <- app_assoc. reflexivity. }
  apply Forall_app. split.
  { unfold cleanupLog, rmLog.
    destruct (rmFault env RmUploadDir), (rmFault env RmInputDir), (rmFault env RmTempRoot);
      repeat constructor. }
  apply Forall_cons_2; [reflexivity|].
  apply Forall_app. split; [|repeat constructor].
  apply Forall_reverse, Forall_fmap, Forall_true. reflexivity.
Qed.

Lemma mkdir_failure_stops_before_workers_witness :
  (720 <= 1280)%Z /\ (360 <= Z.min 720 1280)%Z
  /\ mkRung "/tmp/vid/out/480p" 480 854 ∈ uploadSubDir (uploadDir sampleJob) 720
  /\ mkdirFault dirDenied "/tmp/vid/out/480p" = Some (ErrorObj "EACCES: permission denied")
  /\ field "vid" "status" (snd (processJob dirDenied sampleJob sampleStart)) = Some "error"
  /\ field "vid" "progress" (snd (processJob dirDenied sampleJob sampleStart)) = Some "5".
Proof.
  assert (Hr : mkRung "/tmp/vid/out/480p" 480 854 ∈ uploadSubDir (uploadDir sampleJob) 720)
    by (vm_compute; pick).
  destruct (mkdir_failure_stops_before_workers dirDenied sampleJob sampleStart 1280 720
              (mkRung "/tmp/vid/out/480p" 480 854) (ErrorObj "EACCES: permission denied")
              eq_refl eq_refl ltac:(lia) ltac:(lia) Hr eq_refl eq_refl)
    as (_ & H2 & H3 & _).
  repeat split; first [exact H2 | exact H3 | exact Hr | lia | reflexivity].
Defined.

(** The [try] block when the promise of the transcoder rejects. *)
Lemma tryBody_transcoder_fails env job w0 (w h : Z) e :
  reachesWorkers env job w h ->
  unhandledRejection env DuringTranscode [UploadPromise] = None ->
  ffmpegWorker env = Some e ->
  tryBody env job w0
  = (Threw e,
     mkWorld (redis (launchedWorld job h w0))
       (mkEvent AwaitFFmpeg (Some e) :: log (launchedWorld job h w0))).
Proof.
  intros Hreach Hquiet Hff.
  rewrite (tryBody_launched env job w0 w h Hreach). unfold fromWorkers.
  erewrite bind_threw; [reflexivity|].
  apply awaitFFmpeg_threw; assumption.
Qed.

(** The [try] block when the promise of the upload worker rejects while the
    runner awaits the transcoder: the process ends there. *)
Lemma tryBody_upload_rejects_early env job w0 (w h : Z) e :
  reachesWorkers env job w h ->
  uploadWorker env = Threw e ->
  settles env UploadPromise = DuringTranscode ->
  tryBody env job w0 = (Exited e, launchedWorld job h w0).
Proof.
  intros Hreach Hup Hm.
  rewrite (tryBody_launched env job w0 w h Hreach). unfold fromWorkers.
  erewrite bind_exited; [reflexivity|].
  apply awaitFFmpeg_exited, unhandled_upload; assumption.
Qed.

Lemma launchedWorld_status job h w0 :
  field (videoId job) "status" (launchedWorld job h w0) = Some "Processing & Uploading".
Proof. apply field_milestone_status. Qed.

Lemma launchedWorld_frame job h w0 f :
  f <> "status" -> f <> "progress" ->
  field (videoId job) f (launchedWorld job h w0) = field (videoId job) f w0.
Proof.
  intros Hs Hp.
  assert (Hf : f ∉ (milestoneFields "x" "y").*1).
  { cbn. rewrite !not_elem_of_cons. repeat split; auto using not_elem_of_nil. }
  unfold launchedWorld, probedWorld. cbn [redis].
  rewrite (field_upsert_other _ f (milestoneFields "Processing & Uploading" "20") _ _ [])
    by exact Hf.
  rewrite (field_upsert_other _ f (milestoneFields "checking video resolutions" "5") _ _ (log w0))
    by exact Hf.
  destruct w0; reflexivity.
Qed.

Lemma launchedWorld_no_error_write job h w0 :
  loggedSince (fun ev => setsStatus "error" ev = false) w0 (launchedWorld job h w0).
Proof.
  eexists (_ :: _ :: _ :: reverse _ ++ [_; _]). split.
  - unfold launchedWorld, probedWorld. cbn [log app]. rewrite <- app_assoc. reflexivity.
  - repeat (apply Forall_cons_2; [reflexivity|]).
    apply Forall_app. split; [|repeat constructor].
    apply Forall_reverse, Forall_fmap, Forall_true. reflexivity.
Qed.

Lemma launchedWorld_no_removal job h w0 :
  loggedSince (fun ev => isRm ev = false) w0 (launchedWorld job h w0).
Proof.
  eexists (_ :: _ :: _ :: reverse _ ++ [_; _]). split.
  - unfold launchedWorld, probedWorld. cbn [log app]. rewrite <- app_assoc. reflexivity.
  - repeat (apply Forall_cons_2; [reflexivity|]).
    apply Forall_app. split; [|repeat constructor].
    apply Forall_reverse, Forall_fmap, Forall_true. reflexivity.
Qed.

Lemma uploaderDown_reaches : reachesWorkers uploaderDown sampleJob 1280 720.
Proof. unfold reachesWorkers. cbn. repeat split; first [reflexivity | lia]. Qed.

(** C4: the code departs from the claim.  The promise of the upload worker
    has no handler until line 196.  When it rejects while the runner still
    awaits the transcoder, the rejection is unhandled and the process ends:
    the [catch] clause does not run, no [error] status is written, and the
    record stays at "Processing & Uploading" with the error field as it
    was. *)
Theorem upload_rejection_uncaught
    (env : Env) (job : JobData) (w0 : World) (w h : Z) (e : Thrown) :
  reachesWorkers env job w h ->
  uploadWorker env = Threw e ->
  settles env UploadPromise = DuringTranscode ->
  fst (processJob env job w0) = Exited e
  /\ field (videoId job) "status" (snd (processJob env job w0))
     = Some "Processing & Uploading"
  /\ field (videoId job) "error" (snd (processJob env job w0))
     = field (videoId job) "error" w0
  /\ loggedSince (fun ev => setsStatus "error" ev = false) w0 (snd (processJob env job w0)).
Proof.
  intros Hreach Hup Hm.
  rewrite (processJob_exited _ _ _ _ _
             (tryBody_upload_rejects_early _ _ w0 _ _ _ Hreach Hup Hm)).
  cbn [fst snd].
  split; [reflexivity|]. split; [apply launchedWorld_status|].
  split; [apply launchedWorld_frame; discriminate|apply launchedWorld_no_error_write].
Qed.

Lemma upload_rejection_uncaught_witness :
  reachesWorkers uploaderDown sampleJob 1280 720
  /\ uploadWorker uploaderDown = Threw (ErrorObj "Upload worker exited with code 1")
  /\ settles uploaderDown UploadPromise = DuringTranscode
  /\ fst (processJob uploaderDown sampleJob sampleStart)
     = Exited (ErrorObj "Upload worker exited with code 1")
  /\ field "vid" "status" (snd (processJob uploaderDown sampleJob sampleStart))
     = Some "Processing & Uploading".
Proof.
  assert (H1 : uploadWorker uploaderDown = Threw (ErrorObj "Upload worker exited with code 1"))
    by reflexivity.
  assert (H2 : settles uploaderDown UploadPromise = DuringTranscode) by reflexivity.
  destruct (upload_rejection_uncaught uploaderDown sampleJob sampleStart 1280 720 _
              uploaderDown_reaches H1 H2) as (H3 & H4 & _).
  split; [exact uploaderDown_reaches|]. split; [exact H1|]. split; [exact H2|].
  split; [exact H3|exact H4].
Defined.

(** C5: the code departs from the claim.  In the same run, with the process
    ended by the unhandled rejection of the upload promise, the [finally]
    block does not run: no removal is issued, neither of the output
    directory, nor of the input directory, nor of [/tmp/<videoId>]. *)
Theorem no_cleanup_after_unhandled_rejection
    (env : Env) (job : JobData) (w0 : World) (w h : Z) (e : Thrown) :
  reachesWorkers env job w h ->
  uploadWorker env = Threw e ->
  settles env UploadPromise = DuringTranscode ->
  fst (processJob env job w0) = Exited e
  /\ loggedSince (fun ev => isRm ev = false) w0 (snd (processJob env job w0))
  /\ (forall f, mkEvent (Rm (uploadDir job)) f ∈ log (snd (processJob env job w0)) ->
        mkEvent (Rm (uploadDir job)) f ∈ log w0)
  /\ (forall f, mkEvent (Rm (inputDir job)) f ∈ log (snd (processJob env job w0)) ->
        mkEvent (Rm (inputDir job)) f ∈ log w0)
  /\ (forall f, mkEvent (Rm ("/tmp/" +:+ videoId job)) f ∈ log (snd (processJob env job w0)) ->
        mkEvent (Rm ("/tmp/" +:+ videoId job)) f ∈ log w0).
Proof.
  intros Hreach Hup Hm.
  rewrite (processJob_exited _ _ _ _ _
             (tryBody_upload_rejects_early _ _ w0 _ _ _ Hreach Hup Hm)).
  cbn [fst snd].
  split; [reflexivity|]. split; [apply launchedWorld_no_removal|].
  assert (Hno : forall p f, mkEvent (Rm p) f ∈ log (launchedWorld job h w0) ->
                            mkEvent (Rm p) f ∈ log w0).
  { intros p f Hin.
    destruct (launchedWorld_no_removal job h w0) as (evs & Hlog & Hok).
    rewrite Hlog in Hin. apply elem_of_app in Hin as [Hin|Hin]; [|exact Hin].
    rewrite Forall_forall in Hok. specialize (Hok _ Hin). discriminate. }
  repeat split; intros f; apply Hno.
Qed.

Lemma no_cleanup_after_unhandled_rejection_witness :
  reachesWorkers uploaderDown sampleJob 1280 720
  /\ uploadWorker uploaderDown = Threw (ErrorObj "Upload worker exited with code 1")
  /\ settles uploaderDown UploadPromise = DuringTranscode
  /\ loggedSince (fun ev => isRm ev = false) sampleStart
       (snd (processJob uploaderDown sampleJob sampleStart)).
Proof.
  assert (H1 : uploadWorker uploaderDown = Threw (ErrorObj "Upload worker exited with code 1"))
    by reflexivity.
  assert (H2 : settles uploaderDown UploadPromise = DuringTranscode) by reflexivity.
  destruct (no_cleanup_after_unhandled_rejection uploaderDown sampleJob sampleStart 1280 720 _
              uploaderDown_reaches H1 H2) as (_ & H3 & _).
  split; [exact uploaderDown_reaches|]. split; [exact H1|]. split; [exact H2|exact H3].
Defined.





Lemma crashEnv_reaches : reachesWorkers crashEnv sampleJob 1280 720.
Proof. unfold reachesWorkers. cbn. repeat split; first [reflexivity | lia]. Qed.


(** X9: when the transcoder thread exits with a code other than 0 before it
    posts a message or raises an error, the [await] of its promise receives
    that outcome and the upload promise has not rejected before, the job
    ends with status [error] and the text "FFmpeg worker exited with code
    <code>". *)
Theorem transcoder_exit_code_reported
    (env : Env) (job : JobData) (w0 : World) (w h code : Z)
    (pre post : list (WorkerEvent FFmpegMessage)) :
  reachesWorkers env job w h ->
  unhandledRejection env DuringTranscode [UploadPromise] = None ->
  Forall cleanExit pre ->
  code <> 0%Z ->
  awaitedUnit (ffmpegWorkerPromise (pre ++ OnExit code :: post)) = Some (ffmpegWorker env) ->
  hsetFault env WError = None ->
  field (videoId job) "status" (snd (processJob env job w0)) = Some "error"
  /\ field (videoId job) "error" (snd (processJob env job w0))
     = Some ("FFmpeg worker exited with code " +:+ pretty code).
Proof.
  intros Hreach Hquiet Hpre Hcode Haw He.
  assert (Hp : ffmpegWorkerPromise (pre ++ OnExit code :: post)
               = Rejected (ErrorObj ("FFmpeg worker exited with code " +:+ pretty code))).
  { unfold ffmpegWorkerPromise. rewrite promiseOf_first.
    - cbn. rewrite bool_decide_eq_true_2 by exact Hcode. reflexivity.
    - apply (Forall_iff_pointwise _ _ _ ffmpegListener_pending), Hpre.
    - cbn. rewrite bool_decide_eq_true_2 by exact Hcode. discriminate. }
  rewrite Hp in Haw. cbn in Haw. injection Haw as Hff. symmetry in Hff.
  rewrite (processJob_handled _ _ _ _ _
             (tryBody_transcoder_fails _ _ w0 _ _ _ Hreach Hquiet Hff) He).
  cbn [snd]. split; [apply handled_status|apply handled_error].
Qed.

Lemma transcoder_exit_code_reported_witness :
  reachesWorkers crashEnv sampleJob 1280 720
  /\ unhandledRejection crashEnv DuringTranscode [UploadPromise] = None
  /\ Forall cleanExit ([] : list (WorkerEvent FFmpegMessage))
  /\ (1 <> 0)%Z
  /\ awaitedUnit (ffmpegWorkerPromise ([] ++ OnExit 1 :: [])) = Some (ffmpegWorker crashEnv)
  /\ field "vid" "error" (snd (processJob crashEnv sampleJob sampleStart))
     = Some "FFmpeg worker exited with code 1".
Proof.
  assert (H1 : Forall cleanExit ([] : list (WorkerEvent FFmpegMessage))) by constructor.
  assert (H2 : (1 <> 0)%Z) by lia.
  assert (H3 : awaitedUnit (ffmpegWorkerPromise ([] ++ OnExit 1 :: []))
               = Some (ffmpegWorker crashEnv)) by (vm_compute; reflexivity).
  assert (Hq : unhandledRejection crashEnv DuringTranscode [UploadPromise] = None)
    by reflexivity.
  destruct (transcoder_exit_code_reported crashEnv sampleJob sampleStart 1280 720 1 [] []
              crashEnv_reaches Hq H1 H2 H3 eq_refl) as (_ & H5).
  split; [exact crashEnv_reaches|]. split; [exact Hq|].
  split; [exact H1|]. split; [exact H2|]. split; [exact H3|exact H5].
Defined.

(** The [try] block when the upload of the master playlist is refused. *)
Lemma tryBody_master_upload_fails env job w0 (w h : Z) e :
  reachesMasterUpload env job w h ->
  cloudinaryUpload env = Threw e ->
  exists w1,
    tryBody env job w0 = (Threw e, w1)
    /\ field (videoId job) "progress" w1 = Some "20"
    /\ mkEvent (UploadToCloudinary (uploadDir job +:+ "/index.m3u8") (videoId job)) (Some e)
         ∈ log w1.
Proof.
  intros Hreach Hcl.
  pose proof Hreach as (_ & _ & (urls & Hup) & _).
  destruct (tryBody_at_master_upload env job w0 w h urls Hreach Hup)
    as (w1 & Hrun & Hp & _).
  rewrite Hrun. unfold fromMasterUpload, uploadToCloudinary.
  erewrite bind_threw by (apply request_threw, Hcl).
  eexists. split; [reflexivity|]. split.
  - exact Hp.
  - cbn [record_event log]. pick.
Qed.

(** X10: the callback of the Cloudinary upload decides the end of a run that
    got as far as the master playlist.  An error object rejects, whatever the
    result, and the record then reads "Cloudinary upload error for
    <uploadDir>/index.m3u8: <message>"; neither error nor result gives
    "Unknown Cloudinary upload error for <uploadDir>/index.m3u8"; in both
    cases the status is [error] and the progress stays at 20. *)
Theorem master_upload_error_reported
    (env : Env) (job : JobData) (w0 : World) (w h : Z) (error result : option string) :
  reachesMasterUpload env job w h ->
  cloudinaryUpload env = uploadCallback (uploadDir job +:+ "/index.m3u8") error result ->
  (error <> None \/ result = None) ->
  hsetFault env WError = None ->
  field (videoId job) "status" (snd (processJob env job w0)) = Some "error"
  /\ field (videoId job) "progress" (snd (processJob env job w0)) = Some "20"
  /\ (forall message, error = Some message ->
        field (videoId job) "error" (snd (processJob env job w0))
        = Some ("Cloudinary upload error for " +:+ (uploadDir job +:+ "/index.m3u8")
                +:+ ": " +:+ message))
  /\ (error = None ->
        field (videoId job) "error" (snd (processJob env job w0))
        = Some ("Unknown Cloudinary upload error for "
                +:+ (uploadDir job +:+ "/index.m3u8"))).
Proof.
  intros Hreach Hcb Hbad He.
  assert (Hthrew : exists e, uploadCallback (uploadDir job +:+ "/index.m3u8") error result
                             = Threw e).
  { destruct error as [m|]; [eexists; reflexivity|].
    destruct Hbad as [Hbad| ->]; [contradiction|]. eexists; reflexivity. }
  destruct Hthrew as [e Hthrew]. rewrite Hthrew in Hcb.
  destruct (tryBody_master_upload_fails env job w0 w h e Hreach Hcb) as (w1 & Hrun & Hp & _).
  rewrite (processJob_handled _ _ _ _ _ Hrun He). cbn [snd].
  split; [apply handled_status|].
  split; [destruct w1 as [db l]; apply (progress_after_error _ _ _ _ l), Hp|].
  split.
  - intros message ->. cbn in Hthrew. injection Hthrew as <-. apply handled_error.
  - intros ->. destruct result; cbn in Hthrew; [discriminate|].
    injection Hthrew as <-. apply handled_error.
Qed.

Lemma cloudinaryDown_reaches : reachesMasterUpload cloudinaryDown sampleJob 1280 720.
Proof.
  unfold reachesMasterUpload, reachesWorkers. cbn.
  repeat split; first [reflexivity | lia | (eexists; reflexivity)].
Qed.

Lemma master_upload_error_reported_witness :
  reachesMasterUpload cloudinaryDown sampleJob 1280 720
  /\ cloudinaryUpload cloudinaryDown
     = uploadCallback (uploadDir sampleJob +:+ "/index.m3u8") (Some "Invalid API key") None
  /\ field "vid" "error" (snd (processJob cloudinaryDown sampleJob sampleStart))
     = Some "Cloudinary upload error for /tmp/vid/out/index.m3u8: Invalid API key".
Proof.
  assert (H1 : cloudinaryUpload cloudinaryDown
               = uploadCallback (uploadDir sampleJob +:+ "/index.m3u8")
                   (Some "Invalid API key") None) by reflexivity.
  assert (H2 : Some "Invalid API key" <> None \/ (None : option string) = None)
    by (left; discriminate).
  assert (H3 : hsetFault cloudinaryDown WError = None) by reflexivity.
  destruct (master_upload_error_reported cloudinaryDown sampleJob sampleStart 1280 720
              (Some "Invalid API key") None cloudinaryDown_reaches H1 H2 H3)
    as (_ & _ & H4 & _).
  split; [exact cloudinaryDown_reaches|]. split; [exact H1|].
  exact (H4 _ eq_refl).
Defined.

(** ** The listeners of the queue events *)



(** ** The playlist on disk and the directories of the rungs *)

Lemma string_app_assoc (a b c : string) : (a +:+ b) +:+ c = a +:+ (b +:+ c).
Proof.
  induction a as [|x a IH]; [reflexivity|].
  change (String x ((a +:+ b) +:+ c) = String x (a +:+ b +:+ c)).
  rewrite IH. reflexivity.
Qed.

Lemma rev_app_app (s t acc : string) :
  String.rev_app (s +:+ t) acc = String.rev_app t (String.rev_app s acc).
Proof.
  revert acc. induction s as [|x s IH]; intros acc; [reflexivity|].
  change (String.rev_app (s +:+ t) (String x acc)
          = String.rev_app t (String.rev_app s (String x acc))).
  apply IH.
Qed.

Lemma rev_app_rev_app (s acc acc' : string) :
  String.rev_app (String.rev_app s acc) acc' = String.rev_app acc (s +:+ acc').
Proof.
  revert acc acc'. induction s as [|x s IH]; intros acc acc'; [reflexivity|].
  change (String.rev_app (String.rev_app s (String x acc)) acc'
          = String.rev_app acc (String x (s +:+ acc'))).
  rewrite IH. reflexivity.
Qed.

Lemma endsVisibly_app (s t t' : string) (c : Ascii.ascii) :
  t = t' +:+ String c EmptyString ->
  s +:+ t = (s +:+ t') +:+ String c EmptyString.
Proof. intros ->. symmetry. apply string_app_assoc. Qed.

Lemma trim_visible_ends (a c : Ascii.ascii) (s : string) :
  isSpace a = false -> isSpace c = false ->
  trim (String a s +:+ String c EmptyString) = String a s +:+ String c EmptyString.
Proof.
  intros Ha Hc. unfold trim.
  change (String a s +:+ String c EmptyString) with (String a (s +:+ String c EmptyString)).
  cbn [trimStart]. rewrite Ha.
  change (String a (s +:+ String c EmptyString)) with (String a s +:+ String c EmptyString).
  unfold String.rev at 2. rewrite rev_app_app.
  change (String.rev_app (String c EmptyString) (String.rev_app (String a s) EmptyString))
    with (String c (String.rev_app (String a s) EmptyString)).
  cbn [trimStart]. rewrite Hc.
  unfold String.rev.
  change (String.rev_app (String c (String.rev_app (String a s) EmptyString)) EmptyString)
    with (String.rev_app (String.rev_app (String a s) EmptyString) (String c EmptyString)).
  rewrite rev_app_rev_app. reflexivity.
Qed.

Lemma streamInf_ends (i : nat) (elem : Rung) :
  exists body, streamInf i elem = body +:+ String (Ascii.ascii_of_nat 56) EmptyString.
Proof.
  unfold streamInf.
  eexists. do 8 apply endsVisibly_app.
  exact (eq_refl : "p/index.m3u8" = "p/index.m3u" +:+ String (Ascii.ascii_of_nat 56) EmptyString).
Qed.

Lemma concat_ends (lines : list string) (line : string) :
  (exists body, line = body +:+ String (Ascii.ascii_of_nat 56) EmptyString) ->
  Forall (fun l => exists body, l = body +:+ String (Ascii.ascii_of_nat 56) EmptyString) lines ->
  exists body, String.concat newline (line :: lines) = body +:+ String (Ascii.ascii_of_nat 56) EmptyString.
Proof.
  intros Hline Hlines. revert line Hline.
  induction Hlines as [|l lines Hl _ IH]; intros line Hline; [exact Hline|].
  destruct (IH l Hl) as (body & Hbody).
  change (String.concat newline (line :: l :: lines))
    with (line +:+ newline +:+ String.concat newline (l :: lines)).
  rewrite Hbody. exists (line +:+ newline +:+ body).
  rewrite !string_app_assoc. reflexivity.
Qed.

Lemma imap_streamInf_ends (n : nat) (rungs : list Rung) :
  Forall (fun l => exists body, l = body +:+ String (Ascii.ascii_of_nat 56) EmptyString)
         (imap (fun i => streamInf (n + i)) rungs).
Proof.
  revert n. induction rungs as [|r rungs IH]; intros n; cbn [imap]; constructor.
  - apply streamInf_ends.
  - unfold compose. specialize (IH (S n)).
    erewrite imap_ext; [exact IH|]. intros i x _. cbn. f_equal. lia.
Qed.

(** X12: [trim] takes nothing away from a generated playlist, so the file
    that is written to disk and uploaded is the generated text itself. *)
Theorem playlist_written_unchanged (rungs : list Rung) :
  trim (generateMasterPlaylist rungs) = generateMasterPlaylist rungs.
Proof.
  unfold generateMasterPlaylist.
  destruct rungs as [|r rungs]; [vm_compute; reflexivity|].
  destruct (concat_ends (imap (fun i => streamInf (1 + i)) rungs) (streamInf 0 r)
              (streamInf_ends 0 r) (imap_streamInf_ends 1 rungs)) as (body & Hbody).
  change (String.concat newline ("#EXTM3U" :: imap streamInf (r :: rungs)))
    with ("#EXTM3U" +:+ newline
          +:+ String.concat newline (streamInf 0 r :: imap (fun i => streamInf (1 + i)) rungs)).
  rewrite Hbody.
  change ("#EXTM3U" +:+ newline +:+ body +:+ String (Ascii.ascii_of_nat 56) EmptyString)
    with (String (Ascii.ascii_of_nat 35) ("EXTM3U" +:+ newline +:+ body +:+ String (Ascii.ascii_of_nat 56) EmptyString)).
  rewrite <- !string_app_assoc.
  change (String (Ascii.ascii_of_nat 35) ((("EXTM3U" +:+ newline) +:+ body) +:+ String (Ascii.ascii_of_nat 56) EmptyString))
    with (String (Ascii.ascii_of_nat 35) (("EXTM3U" +:+ newline) +:+ body) +:+ String (Ascii.ascii_of_nat 56) EmptyString).
  apply trim_visible_ends; reflexivity.
Qed.

(** X13: the address that the playlist gives for a rung of the ladder,
    resolved against the output directory of the job, is [index.m3u8] in the
    directory that the job creates for that rung. *)
Theorem playlist_uri_in_rung_directory (uploadDir : string) (h : Z) (i : nat) (r : Rung) :
  uploadSubDir uploadDir h !! i = Some r ->
  exists header,
    streamInf i r = header +:+ newline +:+ pretty (height r) +:+ "p/index.m3u8"
    /\ uploadDir +:+ "/" +:+ pretty (height r) +:+ "p/index.m3u8" = dir r +:+ "/index.m3u8".
Proof.
  intros Hr. eexists. split.
  - unfold streamInf. rewrite <- !string_app_assoc. reflexivity.
  - apply list_elem_of_lookup_2 in Hr. revert Hr.
    unfold uploadSubDir, push. repeat case_bool_decide; cbn [app];
      rewrite ?elem_of_cons, elem_of_nil;
      intros Hr; repeat (destruct Hr as [Hr|Hr]); try contradiction; subst r;
      cbn [dir height]; rewrite string_app_assoc; reflexivity.
Qed.

Lemma playlist_uri_in_rung_directory_witness :
  uploadSubDir "/tmp/vid/out" 720 !! 2%nat = Some (mkRung "/tmp/vid/out/720p" 720 1280)
  /\ exists header,
       streamInf 2 (mkRung "/tmp/vid/out/720p" 720 1280)
       = header +:+ newline +:+ "720p/index.m3u8"
       /\ "/tmp/vid/out/720p/index.m3u8" = "/tmp/vid/out/720p/index.m3u8".
Proof.
  assert (H : uploadSubDir "/tmp/vid/out" 720 !! 2%nat
              = Some (mkRung "/tmp/vid/out/720p" 720 1280)) by reflexivity.
  split; [exact H|].
  exact (playlist_uri_in_rung_directory "/tmp/vid/out" 720 2 _ H).
Defined.

(** X14: a taller source keeps every rung of a shorter one, at the same
    place of the ladder; the ladder only grows at its end. *)
Theorem ladder_grows_with_height (uploadDir : string) (h h' : Z) :
  (h <= h')%Z ->
  uploadSubDir uploadDir h `prefix_of` uploadSubDir uploadDir h'.
Proof.
  intros Hle. unfold uploadSubDir, push.
  repeat (case_bool_decide; try lia); cbn [app];
    repeat first [apply prefix_cons | apply prefix_nil].
Qed.

Lemma ladder_grows_with_height_witness :
  (480 <= 1080)%Z
  /\ uploadSubDir "/tmp/vid/out" 480 `prefix_of` uploadSubDir "/tmp/vid/out" 1080.
Proof.
  assert (H : (480 <= 1080)%Z) by lia.
  split; [exact H|]. exact (ladder_grows_with_height "/tmp/vid/out" 480 1080 H).
Defined.

(** ** The upload promise of [POST /process] *)

Section UploadPromise.

Variable lowerExt : string -> string.

Lemma upload_snoc events ev :
  App.upload lowerExt (events ++ [ev]) = App.onEvent lowerExt (App.upload lowerExt events) ev.
Proof. unfold App.upload. rewrite foldl_app. reflexivity. Qed.

Lemma onEvent_done u ev : App.done u = true -> App.onEvent lowerExt u ev = u.
Proof.
  intros Hd. destruct ev; cbn [App.onEvent]; unfold App.onFile; rewrite Hd.
  all: rewrite ?andb_false_r; reflexivity.
Qed.

Lemma events_done u events : App.done u = true -> foldl (App.onEvent lowerExt) u events = u.
Proof.
  intros Hd. induction events as [|ev events IH]; [reflexivity|].
  cbn [foldl]. rewrite (onEvent_done _ _ Hd). exact IH.
Qed.

Lemma tidy_mono events ev u : tidy lowerExt events u -> tidy lowerExt (events ++ [ev]) u.
Proof.
  intros [Hd Hp]. split; [exact Hd|]. intros Hnr. specialize (Hp Hnr).
  destruct (App.fileSavedPath u) as [p|]; [|exact Hp].
  destruct Hp as (name & filename & mimeType & Hin & Hacc & Ho).
  exists name, filename, mimeType. split; [|split; assumption].
  apply elem_of_app. left. exact Hin.
Qed.

Lemma tidy_reject events u e :
  App.promise u = Pending -> tidy lowerExt events (App.reject u e).
Proof.
  intros Hp. unfold App.reject, tidy. cbn. rewrite Hp. cbn. split.
  - split; discriminate.
  - intros Hnr. exfalso. apply (Hnr e). reflexivity.
Qed.

Lemma tidy_step events u ev :
  tidy lowerExt events u -> tidy lowerExt (events ++ [ev]) (App.onEvent lowerExt u ev).
Proof.
  intros Ht. destruct (App.done u) eqn:Hd.
  { rewrite (onEvent_done _ _ Hd). apply tidy_mono, Ht. }
  pose proof Ht as [Hdone Hpath]. pose proof (proj1 Hdone Hd) as Hpend.
  destruct ev as [name filename mimeType saveAs|p err|p err|p| err|];
    cbn [App.onEvent]; unfold App.onFile; rewrite ?Hd; cbn [negb andb];
    rewrite ?andb_true_r.
  - case_bool_decide as Hname; [apply tidy_mono, Ht|].
    destruct (App.truthy filename) eqn:Hfn; cbn [negb];
      [|apply tidy_reject, Hpend].
    destruct (negb (App.isValidMimeType mimeType)
              && negb (App.isValidExtension
                         (lowerExt (default EmptyString filename)))) eqn:Hty;
      [apply tidy_reject; exact Hpend|].
    split; cbn; [split; [intros _; exact Hpend|reflexivity]|].
    intros _. exists name, filename, mimeType. split; [|split; [|reflexivity]].
    + apply elem_of_app. right. apply list_elem_of_singleton. reflexivity.
    + split; [|split; [exact Hfn|]].
      * destruct (decide (name = "file")) as [->|Hne]; [reflexivity|contradiction].
      * apply andb_false_iff in Hty as [Hty|Hty]; apply negb_false_iff in Hty;
          [left|right]; exact (bool_decide_eq_true_1 _ Hty).
  - case_bool_decide; [apply tidy_reject, Hpend|apply tidy_mono, Ht].
  - case_bool_decide; [apply tidy_reject, Hpend|apply tidy_mono, Ht].
  - case_bool_decide as Hin; [|apply tidy_mono, Ht].
    unfold App.resolve. split; cbn; rewrite Hpend; cbn.
    + split; discriminate.
    + intros _.
      assert (Hnr : forall e, App.promise u <> Rejected e)
        by (intros e; rewrite Hpend; discriminate).
      pose proof (proj2 (tidy_mono events (App.OnWriteClose p) u Ht) Hnr) as Hk.
      destruct (App.fileSavedPath u); [exact Hk|].
      rewrite Hk in Hin. apply elem_of_nil in Hin. contradiction.
  - apply tidy_reject, Hpend.
  - destruct (App.truthy (App.fileSavedPath u)); cbn [negb];
      [apply tidy_mono, Ht|apply tidy_reject, Hpend].
Qed.

Lemma upload_tidy events : tidy lowerExt events (App.upload lowerExt events).
Proof.
  induction events as [|ev events IH] using rev_ind.
  - split; cbn; [split; reflexivity|reflexivity].
  - rewrite upload_snoc. apply tidy_step, IH.
Qed.

Lemma resolved_path events :
  App.promise (App.upload lowerExt events) = Resolved () ->
  exists name filename mimeType saveAs,
    App.OnFile name filename mimeType saveAs ∈ events
    /\ acceptablePart lowerExt name filename mimeType
    /\ App.fileSavedPath (App.upload lowerExt events) = Some saveAs
    /\ App.originalFilename (App.upload lowerExt events) = filename.
Proof.
  intros Hres.
  destruct (upload_tidy events) as [_ Hp].
  assert (Hnr : forall e, App.promise (App.upload lowerExt events) <> Rejected e)
    by (intros e; rewrite Hres; discriminate).
  specialize (Hp Hnr).
  destruct (App.fileSavedPath (App.upload lowerExt events)) as [p|] eqn:Hpath.
  - destruct Hp as (name & filename & mimeType & Hin & Hacc & Ho).
    exists name, filename, mimeType, p. repeat split; try assumption; apply Hacc.
  - exfalso. revert Hres Hpath Hp. clear Hnr.
    induction events as [|ev events IH] using rev_ind; [discriminate|].
    rewrite upload_snoc.
    destruct (upload_tidy events) as [Hd Hq].
    destruct (App.done (App.upload lowerExt events)) eqn:Hdone.
    { rewrite (onEvent_done _ _ Hdone). exact IH. }
    pose proof (proj1 Hd eq_refl) as Hpend.
    destruct ev as [name filename mimeType saveAs|p err|p err|p| err|];
      cbn [App.onEvent]; unfold App.onFile; rewrite ?Hdone; cbn [negb andb];
      rewrite ?andb_true_r; repeat case_match;
      unfold App.reject, App.resolve; cbn; rewrite ?Hpend; cbn;
      try discriminate; try congruence.
    intros _ Hnone Hstreams.
    match goal with H : bool_decide _ = true |- _ => apply bool_decide_eq_true_1 in H;
      rewrite Hstreams in H; apply elem_of_nil in H; contradiction end.
Qed.

End UploadPromise.

(** X15: once the upload promise has settled, no later event of the request
    changes anything: no further file is saved, and the saved path, the
    original filename and the outcome stay as they are. *)
Theorem settled_upload_is_final
    (lowerExt : string -> string) (events more : list App.UploadEvent) :
  App.promise (App.upload lowerExt events) <> Pending ->
  App.upload lowerExt (events ++ more) = App.upload lowerExt events.
Proof.
  intros Hs.
  destruct (upload_tidy lowerExt events) as [Hd _].
  destruct (App.done (App.upload lowerExt events)) eqn:Hdone.
  - unfold App.upload in *. rewrite foldl_app. apply events_done, Hdone.
  - exfalso. apply Hs, Hd. reflexivity.
Qed.

Lemma settled_upload_is_final_witness :
  App.promise (App.upload sampleExt twoParts) <> Pending
  /\ App.upload sampleExt
       (twoParts ++ [App.OnFile "file" (Some "c.mp4") "video/mp4" "/tmp/v/in/c-3.mp4"])
     = App.upload sampleExt twoParts.
Proof.
  assert (H : App.promise (App.upload sampleExt twoParts) <> Pending) by discriminate.
  split; [exact H|].
  exact (settled_upload_is_final sampleExt twoParts _ H).
Defined.

(** X16: the upload promise resolves only when the request had an acceptable
    file part: a field called [file] with a filename that is not empty and
    with a listed MIME type or a listed extension (one of the two is
    enough).  The saved path and the original filename are then those of
    such a part. *)
Theorem resolved_upload_has_acceptable_part
    (lowerExt : string -> string) (events : list App.UploadEvent) :
  App.promise (App.upload lowerExt events) = Resolved () ->
  exists name filename mimeType saveAs,
    App.OnFile name filename mimeType saveAs ∈ events
    /\ acceptablePart lowerExt name filename mimeType
    /\ App.fileSavedPath (App.upload lowerExt events) = Some saveAs
    /\ App.originalFilename (App.upload lowerExt events) = filename.
Proof. apply resolved_path. Qed.

Lemma resolved_upload_has_acceptable_part_witness :
  App.promise (App.upload sampleExt twoParts) = Resolved ()
  /\ exists name filename mimeType saveAs,
       App.OnFile name filename mimeType saveAs ∈ twoParts
       /\ acceptablePart sampleExt name filename mimeType
       /\ App.fileSavedPath (App.upload sampleExt twoParts) = Some saveAs
       /\ App.originalFilename (App.upload sampleExt twoParts) = filename.
Proof.
  assert (H : App.promise (App.upload sampleExt twoParts) = Resolved ()) by reflexivity.
  split; [exact H|].
  exact (resolved_upload_has_acceptable_part sampleExt twoParts H).
Defined.

(** X17: when a request carries two acceptable file parts and the write
    stream of the first closes before that of the second, the promise
    resolves at that moment with the path and the name of the second part,
    whose stream has not closed. *)
Theorem second_part_takes_over
    (lowerExt : string -> string) (fa fb : option string) (ma mb pa pb : string)
    (rest : list App.UploadEvent) :
  acceptablePart lowerExt "file" fa ma ->
  acceptablePart lowerExt "file" fb mb ->
  let u := App.upload lowerExt
             ([App.OnFile "file" fa ma pa; App.OnFile "file" fb mb pb; App.OnWriteClose pa]
              ++ rest) in
  App.promise u = Resolved ()
  /\ App.fileSavedPath u = Some pb
  /\ App.originalFilename u = fb
  /\ App.streams u = [pa; pb].
Proof.
  intros (_ & Hfa & Hta) (_ & Hfb & Htb) u.
  assert (Hty : forall f m,
            m ∈ App.ALLOWED_VIDEO_TYPES
            \/ lowerExt (default EmptyString f) ∈ App.allowedExtensions ->
            negb (App.isValidMimeType m)
            && negb (App.isValidExtension (lowerExt (default EmptyString f))) = false).
  { intros f m [H|H]; apply andb_false_iff; [left|right]; apply negb_false_iff;
      apply bool_decide_eq_true_2; exact H. }
  assert (Hu : App.upload lowerExt
                 [App.OnFile "file" fa ma pa; App.OnFile "file" fb mb pb; App.OnWriteClose pa]
               = App.mkUpload true (Some pb) fb [pa; pb] (Resolved ())).
  { unfold App.upload. cbn [foldl App.onEvent]. unfold App.onFile. cbn [App.done App.idle].
    rewrite (bool_decide_eq_false_2 ("file" <> "file")) by (intros H; apply H; reflexivity).
    rewrite Hfa. cbn [negb]. rewrite (Hty fa ma Hta).
    cbn [App.done App.fileSavedPath App.originalFilename App.streams App.promise app].
    rewrite Hfb. cbn [negb]. rewrite (Hty fb mb Htb).
    cbn [App.done App.fileSavedPath App.originalFilename App.streams App.promise app negb].
    rewrite bool_decide_eq_true_2 by (apply elem_of_cons; left; reflexivity).
    reflexivity. }
  subst u. unfold App.upload. rewrite foldl_app.
  change (foldl (App.onEvent lowerExt) App.idle
            [App.OnFile "file" fa ma pa; App.OnFile "file" fb mb pb; App.OnWriteClose pa])
    with (App.upload lowerExt
            [App.OnFile "file" fa ma pa; App.OnFile "file" fb mb pb; App.OnWriteClose pa]).
  rewrite Hu, events_done by reflexivity.
  repeat split.
Qed.

Lemma second_part_takes_over_witness :
  acceptablePart sampleExt "file" (Some "a.mp4") "video/mp4"
  /\ acceptablePart sampleExt "file" (Some "b.bin") "video/webm"
  /\ App.fileSavedPath (App.upload sampleExt (twoParts ++ [App.OnFinish]))
     = Some "/tmp/v/in/b-2.bin".
Proof.
  assert (Ha : acceptablePart sampleExt "file" (Some "a.mp4") "video/mp4").
  { split; [reflexivity|]. split; [reflexivity|]. left. apply elem_of_cons. left. reflexivity. }
  assert (Hb : acceptablePart sampleExt "file" (Some "b.bin") "video/webm").
  { split; [reflexivity|]. split; [reflexivity|]. left.
    do 2 (apply elem_of_cons; right). apply elem_of_cons. left. reflexivity. }
  destruct (second_part_takes_over sampleExt _ _ _ _ "/tmp/v/in/a-1.mp4" "/tmp/v/in/b-2.bin"
              [App.OnFinish] Ha Hb) as (_ & H & _).
  split; [exact Ha|]. split; [exact Hb|exact H].
Defined.

(** ** The handler of [POST /process] *)

Lemma opened_frame (w : App.World) (ps : list string) :
  App.redis (foldl (fun w p => App.record_event (App.mkEvent (App.CreateWriteStream p) None) w)
               w ps)
  = App.redis w
  /\ App.queue (foldl (fun w p =>
                         App.record_event (App.mkEvent (App.CreateWriteStream p) None) w)
                  w ps)
     = App.queue w.
Proof.
  revert w. induction ps as [|p ps IH]; intros w; [split; reflexivity|].
  cbn [foldl].
  destruct (IH (App.record_event (App.mkEvent (App.CreateWriteStream p) None) w)) as [H1 H2].
  rewrite H1, H2. split; reflexivity.
Qed.

(** The handler, evaluated along the outcomes of its calls. *)
Ltac handler_eval :=
  cbv beta iota zeta delta
    [App.reply App.postProcess App.awaitUpload App.hset App.queueAdd App.unlinkSaved
     mbind mret App.Handler_bind App.Handler_ret App.attempt App.replyIfCaught App.send
     fst snd negb orb].

Ltac handler_case t :=
  lazymatch goal with
  | |- context [t] =>
      let H := fresh "Hcase" in
      destruct t eqn:H; handler_eval; rewrite ?H; handler_eval; try discriminate
  | |- _ => idtac
  end.

Ltac handler_open env :=
  handler_eval;
  handler_case (bool_decide (App.redisStatus env <> "ready"));
  [handler_case (App.connectFault env)|];
  (handler_case (App.mkdirFault env ("/tmp/" +:+ App.freshVideoId env +:+ "/out"));
   handler_case (App.mkdirFault env ("/tmp/" +:+ App.freshVideoId env +:+ "/in")));
  handler_case (App.promise (App.upload (App.lowerExt env) (App.requestEvents env)));
  handler_case (App.truthy (App.fileSavedPath
                              (App.upload (App.lowerExt env) (App.requestEvents env))));
  handler_case (App.truthy (App.originalFilename
                              (App.upload (App.lowerExt env) (App.requestEvents env))));
  handler_case (App.hsetFault env);
  handler_case (App.addFault env).

Ltac frame_done :=
  cbn [App.redis App.queue App.record_event];
  rewrite ?(proj1 (opened_frame _ _)), ?(proj2 (opened_frame _ _));
  cbn [App.redis App.queue App.record_event].

(** What an accepted request leaves behind. *)
Lemma postProcess_accepted (env : App.Env) (w : App.World) (a : App.Accepted) :
  App.reply env w = Some (App.Ok a) ->
  a = App.mkAccepted (App.freshVideoId env) App.queuedMessage
  /\ App.promise (App.upload (App.lowerExt env) (App.requestEvents env)) = Resolved ()
  /\ App.redis (snd (App.postProcess env w))
     = upsert (statusKey (App.freshVideoId env)) (App.queuedFields (App.createdAt env))
         (App.redis w)
  /\ App.queue (snd (App.postProcess env w))
     = App.queue w
       ++ [(queuedJob env,
            default EmptyString
              (App.originalFilename (App.upload (App.lowerExt env) (App.requestEvents env))),
            jobOptions)].
Proof.
  handler_open env; intros Ha; injection Ha as <-.
  all: match goal with u : unit |- _ => destruct u end.
  all: split; [reflexivity|]; split; [reflexivity|].
  all: frame_done; split; reflexivity.
Qed.

(** What a request that is not accepted leaves behind. *)
Lemma postProcess_refused (env : App.Env) (w : App.World) :
  (forall a, App.reply env w <> Some (App.Ok a)) ->
  App.queue (snd (App.postProcess env w)) = App.queue w
  /\ (App.reply env w <> Some (App.Fail 500 "Failed to enqueue job") ->
      App.redis (snd (App.postProcess env w)) = App.redis w).
Proof.
  handler_open env; intros Hne; try (exfalso; eapply Hne; reflexivity); frame_done.
  all: split; [reflexivity|]; intros Hq;
    first [reflexivity | exfalso; apply Hq; reflexivity].
Qed.

Lemma postProcess_enqueue_failed (env : App.Env) (w : App.World) :
  App.reply env w = Some (App.Fail 500 "Failed to enqueue job") ->
  App.redis (snd (App.postProcess env w))
  = upsert (statusKey (App.freshVideoId env)) (App.queuedFields (App.createdAt env))
      (App.redis w)
  /\ App.queue (snd (App.postProcess env w)) = App.queue w.
Proof.
  handler_open env; intros _; frame_done; split; reflexivity.
Qed.

(** ** The handler of [GET /status/:videoId] *)

Lemma getStatus_record {Json : Type} (rd : App.Reader Json) (vid g : string)
    (db : gmap string (gmap string string)) (l : list Event) :
  vid <> EmptyString ->
  App.hgetallFault rd = None ->
  is_Some (field vid g (mkWorld db l)) ->
  App.getStatus rd vid db
  = let body urls :=
      App.Ok (App.mkStatusBody vid (field vid "status" (mkWorld db l))
                (field vid "progress" (mkWorld db l)) (field vid "error" (mkWorld db l))
                (field vid "masterUrl" (mkWorld db l)) urls
                (field vid "createdAt" (mkWorld db l))) in
    if App.truthy (field vid "urls" (mkWorld db l))
    then match App.JSON_parse rd (default EmptyString (field vid "urls" (mkWorld db l))) with
         | Some parsed => body (Some parsed)
         | None => App.statusFailure
         end
    else body None.
Proof.
  intros Hvid Hrd [v Hg]. unfold App.getStatus.
  rewrite (bool_decide_eq_false_2 _ Hvid), Hrd.
  unfold field, statusRecord in *. cbn [redis] in *.
  case_bool_decide as Hsize; [|reflexivity].
  apply map_size_empty_iff in Hsize. rewrite Hsize, lookup_empty in Hg. discriminate.
Qed.

(** The fields that the job runner never writes. *)
Lemma processJob_keeps_field env job w0 vid f :
  f ∉ ["status"; "progress"; "masterUrl"; "urls"; "error"] ->
  field vid f (snd (processJob env job w0)) = field vid f w0.
Proof.
  intros Hf. rewrite !not_elem_of_cons in Hf.
  destruct Hf as (Hs & Hp & Hm & Hu & He & _).
  set (Inv := fun w : World => field vid f w = field vid f w0).
  assert (Hsilent : forall w ev, Inv w -> Inv (record_event ev w)).
  { intros [db l] ev Hw. exact Hw. }
  assert (H : triple Inv (tryCatch (tryBody env job) (catchHandler env job))
                (fun _ => Inv) (fun _ => Inv)).
  { eapply triple_tryCatch.
    - apply (tryBody_invariant env job Inv Inv).
      + intros w c fl _ Hw. apply Hsilent, Hw.
      + intros w fs e _ Hw. apply Hsilent, Hw.
      + intros [db l] s p _ Hw. unfold Inv.
        rewrite (field_upsert_frame _ _ _ _ _ _ l); [exact Hw|].
        cbn. rewrite !not_elem_of_cons. repeat split; auto using not_elem_of_nil.
      + intros [db l] m u Hw. unfold Inv.
        rewrite (field_upsert_frame _ _ _ _ _ _ l); [exact Hw|].
        cbn. rewrite !not_elem_of_cons. repeat split; auto using not_elem_of_nil.
    - intros e [db l] Hw. unfold catchHandler, hset.
      destruct (hsetFault env WError); [exact Hw|]. unfold Inv.
      rewrite (field_upsert_frame _ _ _ _ _ _ l); [exact Hw|].
      cbn. rewrite !not_elem_of_cons. repeat split; auto using not_elem_of_nil.
    - intros e w Hw. exact Hw. }
  specialize (H w0 eq_refl). rewrite processJob_run.
  destruct (tryCatch (tryBody env job) (catchHandler env job) w0) as [[[]|e|e] [db l]];
    exact H.
Qed.

Lemma field_redis vid f (w : World) (l : list Event) :
  field vid f (mkWorld (redis w) l) = field vid f w.
Proof. destruct w; reflexivity. Qed.

Lemma queued_field (env : App.Env) (db : gmap string (gmap string string)) l f v :
  (f, v) ∈ App.queuedFields (App.createdAt env) ->
  field (App.freshVideoId env) f
    (mkWorld (upsert (statusKey (App.freshVideoId env))
                (App.queuedFields (App.createdAt env)) db) l)
  = Some v.
Proof. intros Hf. apply field_upsert_set; [nodup|exact Hf]. Qed.

Lemma queued_field_absent (env : App.Env) (db : gmap string (gmap string string)) l f :
  db !! statusKey (App.freshVideoId env) = None ->
  f ∉ (App.queuedFields (App.createdAt env)).*1 ->
  field (App.freshVideoId env) f
    (mkWorld (upsert (statusKey (App.freshVideoId env))
                (App.queuedFields (App.createdAt env)) db) l)
  = None.
Proof.
  intros Hfresh Hf. rewrite (field_upsert_other _ _ _ _ _ []) by exact Hf.
  unfold field, statusRecord. cbn [redis]. rewrite Hfresh. apply lookup_empty.
Qed.

(** X18: a request that is answered with 200 has left the record
    [queued] / 0 / empty error / creation time under the id of the reply, and
    exactly one new job on the queue, added with the options of line 217,
    whose input path is the path under which an acceptable file part of the
    request was saved. *)
Theorem accepted_request_is_queued (env : App.Env) (w : App.World) (a : App.Accepted) :
  App.reply env w = Some (App.Ok a) ->
  App.acceptedVideoId a = App.freshVideoId env
  /\ (forall f v, (f, v) ∈ App.queuedFields (App.createdAt env) ->
        field (App.freshVideoId env) f (workerWorld (snd (App.postProcess env w))) = Some v)
  /\ (exists originalName,
        App.queue (snd (App.postProcess env w))
        = App.queue w ++ [(queuedJob env, originalName, jobOptions)])
  /\ (exists name filename mimeType,
        App.OnFile name filename mimeType (inputFilePath (queuedJob env))
          ∈ App.requestEvents env
        /\ acceptablePart (App.lowerExt env) name filename mimeType).
Proof.
  intros Ha. destruct (postProcess_accepted env w a Ha) as (-> & Hres & Hdb & Hq).
  split; [reflexivity|]. split.
  { intros f v Hf. unfold workerWorld. rewrite Hdb. apply queued_field, Hf. }
  split; [eexists; exact Hq|].
  destruct (resolved_path _ _ Hres) as (name & filename & mimeType & saveAs & Hin & Hacc & Hp & _).
  exists name, filename, mimeType. split; [|exact Hacc].
  unfold queuedJob. cbn [inputFilePath]. rewrite Hp. exact Hin.
Qed.

Lemma accepted_request_is_queued_witness :
  App.reply sampleRequest emptyServer
  = Some (App.Ok (App.mkAccepted "vid" "Video queued for processing."))
  /\ field "vid" "status" (workerWorld (snd (App.postProcess sampleRequest emptyServer)))
     = Some "queued"
  /\ exists originalName,
       App.queue (snd (App.postProcess sampleRequest emptyServer))
       = [(sampleJob, originalName, jobOptions)].
Proof.
  assert (H : App.reply sampleRequest emptyServer
              = Some (App.Ok (App.mkAccepted "vid" "Video queued for processing.")))
    by (vm_compute; reflexivity).
  destruct (accepted_request_is_queued sampleRequest emptyServer _ H) as (_ & H2 & H3 & _).
  split; [exact H|]. split.
  - apply H2. apply elem_of_cons. left. reflexivity.
  - exact H3.
Defined.

(** X19: a request that is not answered with 200 adds no job to the queue;
    and it leaves the store as it was, unless the answer is "Failed to
    enqueue job". *)
Theorem refused_request_adds_no_job (env : App.Env) (w : App.World) :
  (forall a, App.reply env w <> Some (App.Ok a)) ->
  App.queue (snd (App.postProcess env w)) = App.queue w
  /\ (App.reply env w <> Some (App.Fail 500 "Failed to enqueue job") ->
      App.redis (snd (App.postProcess env w)) = App.redis w).
Proof. apply postProcess_refused. Qed.

Lemma refused_request_adds_no_job_witness :
  (forall a, App.reply queueDown emptyServer <> Some (App.Ok a))
  /\ App.queue (snd (App.postProcess queueDown emptyServer)) = [].
Proof.
  assert (H : forall a, App.reply queueDown emptyServer <> Some (App.Ok a))
    by (intros a; vm_compute; discriminate).
  split; [exact H|].
  exact (proj1 (refused_request_adds_no_job queueDown emptyServer H)).
Defined.

(** X20: when the queue refuses the job, the client is told "Failed to
    enqueue job" without a video id, but the record written just before
    stays: for an id that was not in the store, the status endpoint
    answers 200 with status [queued], and no job exists that would ever
    change it. *)
Theorem enqueue_failure_leaves_queued_record {Json : Type}
    (env : App.Env) (w : App.World) (rd : App.Reader Json) :
  App.reply env w = Some (App.Fail 500 "Failed to enqueue job") ->
  App.redis w !! statusKey (App.freshVideoId env) = None ->
  App.freshVideoId env <> EmptyString ->
  App.hgetallFault rd = None ->
  App.queue (snd (App.postProcess env w)) = App.queue w
  /\ App.getStatus rd (App.freshVideoId env) (App.redis (snd (App.postProcess env w)))
     = App.Ok (queuedBody (App.freshVideoId env) (App.createdAt env)).
Proof.
  intros Hr Hfresh Hvid Hrd.
  destruct (postProcess_enqueue_failed env w Hr) as [Hdb Hq].
  split; [exact Hq|]. rewrite Hdb.
  assert (Hset : forall f v, (f, v) ∈ App.queuedFields (App.createdAt env) ->
            field (App.freshVideoId env) f
              (mkWorld (upsert (statusKey (App.freshVideoId env))
                          (App.queuedFields (App.createdAt env)) (App.redis w)) [])
            = Some v) by (intros f v Hf; apply queued_field, Hf).
  assert (Hnot : forall f, f ∉ (App.queuedFields (App.createdAt env)).*1 ->
            field (App.freshVideoId env) f
              (mkWorld (upsert (statusKey (App.freshVideoId env))
                          (App.queuedFields (App.createdAt env)) (App.redis w)) [])
            = None) by (intros f Hf; apply queued_field_absent; assumption).
  rewrite (getStatus_record rd _ "status" _ [] Hvid Hrd)
    by (eexists; apply Hset; apply elem_of_cons; left; reflexivity).
  cbv zeta.
  rewrite (Hset "status" "queued"), (Hset "progress" "0"), (Hset "error" EmptyString),
    (Hset "createdAt" (App.createdAt env)) by pick.
  rewrite (Hnot "masterUrl"), (Hnot "urls")
    by (cbn; rewrite !not_elem_of_cons; repeat split;
        first [discriminate | apply not_elem_of_nil]).
  reflexivity.
Qed.

Lemma enqueue_failure_leaves_queued_record_witness :
  App.reply queueDown emptyServer = Some (App.Fail 500 "Failed to enqueue job")
  /\ App.getStatus sampleReader "vid" (App.redis (snd (App.postProcess queueDown emptyServer)))
     = App.Ok (queuedBody "vid" "2025-01-01T00:00:00.000Z").
Proof.
  assert (H1 : App.reply queueDown emptyServer = Some (App.Fail 500 "Failed to enqueue job"))
    by (vm_compute; reflexivity).
  assert (H2 : App.redis emptyServer !! statusKey (App.freshVideoId queueDown) = None)
    by reflexivity.
  assert (H3 : App.freshVideoId queueDown <> EmptyString) by discriminate.
  assert (H4 : App.hgetallFault sampleReader = None) by reflexivity.
  split; [exact H1|].
  exact (proj2 (enqueue_failure_leaves_queued_record queueDown emptyServer sampleReader
                  H1 H2 H3 H4)).
Defined.

(** ** From the upload to the status endpoint *)

(** X21: a video that was accepted, and whose job then went through every
    step in the worker, is reported by the status endpoint with status
    [completed], progress 100, the error text still empty (not [null]), the
    URL of the master playlist, the parsed list of the rung playlists and the
    creation time of the upload. *)
Theorem accepted_video_reported_completed {Json : Type}
    (env : App.Env) (w : App.World) (a : App.Accepted)
    (wenv : Env) (failedReason : string) (jobs : Jobs) (jobId : string)
    (rd : App.Reader Json) (pw ph : Z) (urls : Urls) (masterUrl : string) (parsed : Json) :
  App.reply env w = Some (App.Ok a) ->
  jobs !! jobId = Some (queuedJob env, jobOptions) ->
  smoothRun wenv (queuedJob env) pw ph urls masterUrl ->
  JSON_stringify wenv urls <> EmptyString ->
  App.JSON_parse rd (JSON_stringify wenv urls) = Some parsed ->
  App.hgetallFault rd = None ->
  App.freshVideoId env <> EmptyString ->
  App.getStatus rd (App.acceptedVideoId a)
    (redis (snd (fst (worker wenv failedReason jobs jobId
                        (workerWorld (snd (App.postProcess env w)))))))
  = App.Ok (App.mkStatusBody (App.freshVideoId env) (Some "completed") (Some "100")
              (Some EmptyString) (Some masterUrl) (Some parsed)
              (Some (App.createdAt env))).
Proof.
  intros Ha Hjob Hsmooth Htext Hparse Hrd Hvid.
  destruct (postProcess_accepted env w a Ha) as (-> & _ & Hdb & _).
  cbn [App.acceptedVideoId].
  rewrite (worker_world _ _ _ _ _ _ Hjob).
  set (start := workerWorld (snd (App.postProcess env w))).
  assert (Hkeep : forall f v, f = "error" \/ f = "createdAt" ->
            (f, v) ∈ App.queuedFields (App.createdAt env) ->
            field (App.freshVideoId env) f (snd (processJob wenv (queuedJob env) start))
            = Some v).
  { intros f v Hf Hin.
    change (App.freshVideoId env) with (videoId (queuedJob env)).
    destruct (smooth_tryBody wenv (queuedJob env) start pw ph urls masterUrl Hsmooth)
      as (w1 & Hrun & _).
    rewrite (processJob_returned _ _ _ _ Hrun). cbn [snd]. rewrite field_redis.
    assert (Ht : triple (fun w => field (videoId (queuedJob env)) f w = Some v)
                   (tryBody wenv (queuedJob env))
                   (fun _ w => field (videoId (queuedJob env)) f w = Some v)
                   (fun _ w => field (videoId (queuedJob env)) f w = Some v)).
    { apply (tryBody_invariant wenv (queuedJob env)
               (fun w => field (videoId (queuedJob env)) f w = Some v)
               (fun w => field (videoId (queuedJob env)) f w = Some v)).
      - intros [db l] c fl _ Hw. exact Hw.
      - intros [db l] fs e _ Hw. exact Hw.
      - intros [db l] s p _ Hw.
        rewrite (field_upsert_other _ _ _ _ _ l); [exact Hw|].
        cbn. rewrite !not_elem_of_cons.
        destruct Hf as [-> | ->]; repeat split;
          first [discriminate | apply not_elem_of_nil].
      - intros [db l] m u Hw.
        rewrite (field_upsert_other _ _ _ _ _ l); [exact Hw|].
        cbn. rewrite !not_elem_of_cons.
        destruct Hf as [-> | ->]; repeat split;
          first [discriminate | apply not_elem_of_nil]. }
    specialize (Ht start). rewrite Hrun in Ht. apply Ht.
    unfold start, workerWorld. rewrite Hdb. cbn [videoId queuedJob].
    apply queued_field, Hin. }
  destruct (smooth_run_facts wenv (queuedJob env) start pw ph urls masterUrl Hsmooth)
    as (Hs & Hp & Hm & Hu).
  cbn [videoId queuedJob] in Hs, Hp, Hm, Hu.
  rewrite (getStatus_record rd _ "status" _ [] Hvid Hrd)
    by (rewrite field_redis, Hs; eexists; reflexivity).
  cbv zeta. rewrite !field_redis, Hs, Hp, Hm, Hu.
  rewrite (Hkeep "error" EmptyString), (Hkeep "createdAt" (App.createdAt env))
    by first [left; reflexivity | right; reflexivity | pick].
  cbn [App.truthy default from_option id].
  rewrite (bool_decide_eq_true_2 _ Htext), Hparse. reflexivity.
Qed.

Lemma accepted_video_reported_completed_witness :
  App.reply sampleRequest emptyServer
  = Some (App.Ok (App.mkAccepted "vid" "Video queued for processing."))
  /\ App.getStatus sampleReader "vid"
       (redis (snd (fst (worker (calm (1280, 720)%Z) "failed"
                           (add "17" (queuedJob sampleRequest) jobOptions ∅) "17"
                           (workerWorld (snd (App.postProcess sampleRequest emptyServer)))))))
     = App.Ok (App.mkStatusBody "vid" (Some "completed") (Some "100") (Some EmptyString)
                 (Some "https://cdn.example/vid/index.m3u8")
                 (Some [(360%Z, "https://cdn.example/vid/360p/index.m3u8")])
                 (Some "2025-01-01T00:00:00.000Z")).
Proof.
  assert (H1 : App.reply sampleRequest emptyServer
               = Some (App.Ok (App.mkAccepted "vid" "Video queued for processing.")))
    by (vm_compute; reflexivity).
  assert (H2 : add "17" (queuedJob sampleRequest) jobOptions ∅ !! "17"
               = Some (queuedJob sampleRequest, jobOptions)) by reflexivity.
  assert (H3 : smoothRun (calm (1280, 720)%Z) (queuedJob sampleRequest) 1280 720
                 [(360%Z, "https://cdn.example/vid/360p/index.m3u8")]
                 "https://cdn.example/vid/index.m3u8").
  { unfold smoothRun. cbn. repeat split; first [reflexivity | lia]. }
  assert (H4 : JSON_stringify (calm (1280, 720)%Z)
                 [(360%Z, "https://cdn.example/vid/360p/index.m3u8")] <> EmptyString)
    by discriminate.
  assert (H5 : App.JSON_parse sampleReader
                 (JSON_stringify (calm (1280, 720)%Z)
                    [(360%Z, "https://cdn.example/vid/360p/index.m3u8")])
               = Some [(360%Z, "https://cdn.example/vid/360p/index.m3u8")]) by reflexivity.
  assert (H6 : App.hgetallFault sampleReader = None) by reflexivity.
  assert (H7 : App.freshVideoId sampleRequest <> EmptyString) by discriminate.
  split; [exact H1|].
  exact (accepted_video_reported_completed sampleRequest emptyServer _
           (calm (1280, 720)%Z) "failed" _ "17" sampleReader 1280 720 _ _ _
           H1 H2 H3 H4 H5 H6 H7).
Defined.

(** X22: once a video is accepted, the status endpoint knows its id for
    good: whatever happens to its job in the worker, a failure at any step
    or the end of the process included, the answer is never 404; it is 200
    with the id and the creation time of the upload, or 500 when the stored
    list of URLs does not parse. *)
Theorem accepted_video_stays_known {Json : Type}
    (env : App.Env) (w : App.World) (a : App.Accepted)
    (wenv : Env) (failedReason : string) (jobs : Jobs) (jobId : string)
    (rd : App.Reader Json) :
  App.reply env w = Some (App.Ok a) ->
  jobs !! jobId = Some (queuedJob env, jobOptions) ->
  App.hgetallFault rd = None ->
  App.freshVideoId env <> EmptyString ->
  match App.getStatus rd (App.acceptedVideoId a)
          (redis (snd (fst (worker wenv failedReason jobs jobId
                              (workerWorld (snd (App.postProcess env w)))))))
  with
  | App.Ok body =>
      App.bodyVideoId body = App.freshVideoId env
      /\ App.bodyCreatedAt body = Some (App.createdAt env)
  | App.Fail status _ => status = 500
  end.
Proof.
  intros Ha Hjob Hrd Hvid.
  destruct (postProcess_accepted env w a Ha) as (-> & _ & Hdb & _).
  cbn [App.acceptedVideoId].
  rewrite (worker_world _ _ _ _ _ _ Hjob).
  set (start := workerWorld (snd (App.postProcess env w))).
  assert (Hc : field (App.freshVideoId env) "createdAt"
                 (snd (processJob wenv (queuedJob env) start))
               = Some (App.createdAt env)).
  { rewrite processJob_keeps_field.
    - unfold start, workerWorld. rewrite Hdb. apply queued_field. pick.
    - rewrite !not_elem_of_cons. repeat split; first [discriminate | apply not_elem_of_nil]. }
  rewrite (getStatus_record rd _ "createdAt" _ [] Hvid Hrd)
    by (rewrite field_redis, Hc; eexists; reflexivity).
  cbv zeta. rewrite !field_redis, Hc.
  destruct (App.truthy _); [destruct (App.JSON_parse rd _)|];
    first [split; reflexivity | reflexivity].
Qed.

Lemma accepted_video_stays_known_witness :
  App.reply sampleRequest emptyServer
  = Some (App.Ok (App.mkAccepted "vid" "Video queued for processing."))
  /\ match App.getStatus sampleReader "vid"
             (redis (snd (fst (worker uploaderDown "failed"
                                 (add "17" (queuedJob sampleRequest) jobOptions ∅) "17"
                                 (workerWorld (snd (App.postProcess sampleRequest
                                                      emptyServer)))))))
     with
     | App.Ok body =>
         App.bodyVideoId body = "vid"
         /\ App.bodyCreatedAt body = Some "2025-01-01T00:00:00.000Z"
     | App.Fail status _ => status = 500
     end.
Proof.
  assert (H1 : App.reply sampleRequest emptyServer
               = Some (App.Ok (App.mkAccepted "vid" "Video queued for processing.")))
    by (vm_compute; reflexivity).
  assert (H2 : add "17" (queuedJob sampleRequest) jobOptions ∅ !! "17"
               = Some (queuedJob sampleRequest, jobOptions)) by reflexivity.
  assert (H3 : App.hgetallFault sampleReader = None) by reflexivity.
  assert (H4 : App.freshVideoId sampleRequest <> EmptyString) by discriminate.
  split; [exact H1|].
  exact (accepted_video_stays_known sampleRequest emptyServer _ uploaderDown "failed" _ "17"
           sampleReader H1 H2 H3 H4).
Defined.
